(** * Tick ingestion, bar aggregation, persistence and pair analytics

    A shallow embedding of [ingestion.py], [database.py] and [analytics.py].

    Conventions of the embedding:
    - Python code that mutates state or raises is written in the monad
      [Py S], a state monad over [S] whose computations either return a
      value or raise an exception; the state reached at the point of the
      [raise] is kept, as in Python.
    - Instants are integers: milliseconds since the Unix epoch, UTC (the
      field ["T"] of a trade message).  Where the code keeps the ISO text of
      an instant ([tick["time"]], the [time TEXT] columns) the text is
      produced by [isoformat]; [pd.to_datetime] gives the instant back.
    - A price or a quantity of the ingestion pipeline is the rational
      number ([Q]) that a finite [float] of the code holds.  Prices are only
      selected and compared, which involves no rounding.  Quantities are
      added in binary64: the sum that pandas computes is a parameter
      [float_sum] of the aggregation, so that nothing is said about its
      rounding.  The analytics functions, whose behaviour on NaN matters,
      are written over IEEE binary64 ([PrimFloat]).
    - Dictionaries used as maps ([_stream_threads], [_stop_flags]) are
      [gmap]s; SQL tables are lists of rows in rowid order.
    - What the process does not decide is given by an environment: which
      connections to the store fail, the readings of the clocks, the
      messages that arrive, the fate of the feed's connections.  An endless
      loop is observed for a number of turns.
    - Library calls are modelled by what they compute on well-formed
      input: JSON decoding is taken not to raise; of the pandas steps of
      the aggregation, [pd.to_datetime] raises on a column of texts that it
      cannot parse with one format, the others are taken not to raise for
      instants of the years 1678 to 2261, which lie well within the bounds
      of a pandas [Timestamp]; the regression of statsmodels is a
      parameter.  Memory is not bounded: a frame has as many windows as lie
      between its first and its last tick. *)

From Stdlib Require Import ZArith QArith Qminmax Lqa String Ascii List Lia.
From Stdlib Require Import Floats.
From Stdlib Require OrderedTypeEx.
From stdpp Require Import gmap strings list sorting.

Local Open Scope Z_scope.

(** ** Exceptions and the [Py] monad *)

Inductive exn : Type :=
| QueueFull                          (* queue.Full *)
| QueueEmpty                         (* queue.Empty *)
| KeyError (key : string)
| ValueError (msg : string)
| OperationalError (msg : string)    (* sqlite3.OperationalError *)
| WebSocketException (msg : string).

Inductive outcome (A : Type) : Type :=
| Returned (a : A)
| Raised (e : exn).
Arguments Returned {A} a.
Arguments Raised {A} e.

Definition Py (S A : Type) : Type := S → outcome A * S.

Definition py_ret {S A} (a : A) : Py S A := λ s, (Returned a, s).

Definition py_bind {S A B} (c : Py S A) (k : A → Py S B) : Py S B :=
  λ s, match c s with
       | (Returned a, s') => k a s'
       | (Raised e, s') => (Raised e, s')
       end.

Definition raise {S A} (e : exn) : Py S A := λ s, (Raised e, s).

(** [try: c  except ...: h]: the handler [h] says which exceptions its
    [except] clauses match ([None]: the exception propagates). *)
Definition try_except {S A} (c : Py S A) (h : exn → option (Py S A)) : Py S A :=
  λ s, match c s with
       | (Returned a, s') => (Returned a, s')
       | (Raised e, s') =>
           match h e with
           | Some handler => handler s'
           | None => (Raised e, s')
           end
       end.

Definition get_state {S} : Py S S := λ s, (Returned s, s).
Definition set_state {S} (s' : S) : Py S unit := λ _, (Returned (), s').

(** Running a computation on a component of the state. *)
Definition zoom {S T A} (proj : S → T) (inj : T → S → S) (c : Py T A) : Py S A :=
  λ s, match c (proj s) with (r, t') => (r, inj t' s) end.

Notation "'do' x '<-' c ';' k" := (py_bind c (λ x, k))
  (at level 10, x name, c at level 100, k at level 200).
Notation "'do_' c ';' k" := (py_bind c (λ _, k))
  (at level 10, c at level 100, k at level 200).

(** [for x in l: body x] *)
Fixpoint for_each {S A} (l : list A) (body : A → Py S unit) : Py S unit :=
  match l with
  | [] => py_ret ()
  | x :: l' => do_ body x; for_each l' body
  end.

(** ** Ticks and trade messages *)

Record Tick : Type := mkTick {
  tick_time : Z;          (* instant of tick["time"], epoch milliseconds *)
  tick_symbol : string;
  tick_price : Q;
  tick_qty : Q
}.

(** The fields of a decoded trade message that [_on_message] reads. *)
Record TradeMsg : Type := mkTradeMsg {
  msg_T : Z;
  msg_s : string;
  msg_p : Q;
  msg_q : Q
}.

Definition lower_ascii (c : ascii) : ascii :=
  let n := nat_of_ascii c in
  if ((65 <=? n)%nat && (n <=? 90)%nat)%bool then ascii_of_nat (n + 32) else c.

Fixpoint lower (s : string) : string :=
  match s with
  | EmptyString => EmptyString
  | String c s' => String (lower_ascii c) (lower s')
  end.

Definition tick_of_message (data : TradeMsg) : Tick :=
  {| tick_time := msg_T data;
     tick_symbol := lower (msg_s data);
     tick_price := msg_p data;
     tick_qty := msg_q data |}.

(** ** The tick buffer: [queue.Queue(maxsize)] *)

Record Queue : Type := mkQueue {
  maxsize : Z;
  items : list Tick
}.

Definition qsize (q : Queue) : Z := Z.of_nat (length (items q)).

Definition full (q : Queue) : bool := (0 <? maxsize q) && (maxsize q <=? qsize q).

Definition put_nowait (x : Tick) : Py Queue unit :=
  λ q, if full q then (Raised QueueFull, q)
       else (Returned (), {| maxsize := maxsize q; items := items q ++ [x] |}).

Definition get_nowait : Py Queue Tick :=
  λ q, match items q with
       | [] => (Raised QueueEmpty, q)
       | x :: rest => (Returned x, {| maxsize := maxsize q; items := rest |})
       end.

(** The [try] block of [_on_message]: drop the oldest tick when full. *)
Definition offer (tick : Tick) : Py Queue unit :=
  try_except (put_nowait tick)
    (λ e, match e with
          | QueueFull =>
              Some (try_except (do_ get_nowait; put_nowait tick)
                      (λ e', match e' with
                             | QueueEmpty => Some (py_ret ())
                             | _ => None
                             end))
          | _ => None
          end).

Definition _on_message (data : TradeMsg) : Py Queue unit :=
  offer (tick_of_message data).

Definition _tick_queue : Queue := {| maxsize := 10000; items := [] |}.

(** The buffer receives the messages one after the other. *)
Definition feed (msgs : list TradeMsg) : Py Queue unit := for_each msgs _on_message.

(** ** Calendar text of an instant

    [datetime.isoformat()] (Python) and [datetime('now', ...)] (SQLite) both
    print the proleptic Gregorian date and the time of day of a UTC
    instant; they differ in the separator and in the suffix. *)

Definition digit (d : Z) : ascii := ascii_of_nat (48 + Z.to_nat (d mod 10)).

(** [n] in decimal on exactly [width] digits, zero padded. *)
Fixpoint decimal (width : nat) (n : Z) : string :=
  match width with
  | O => EmptyString
  | S w => String (digit (n / 10 ^ Z.of_nat w)) (decimal w n)
  end.

(** Year, month and day of the day number [days] (days since 1970-01-01). *)
Definition civil_from_days (days : Z) : Z * Z * Z :=
  let z := days + 719468 in
  let era := z / 146097 in
  let doe := z - era * 146097 in
  let yoe := (doe - doe / 1460 + doe / 36524 - doe / 146096) / 365 in
  let doy := doe - (365 * yoe + yoe / 4 - yoe / 100) in
  let mp := (5 * doy + 2) / 153 in
  let d := doy - (153 * mp + 2) / 5 + 1 in
  let m := if mp <? 10 then mp + 3 else mp - 9 in
  let y := yoe + era * 400 + (if m <=? 2 then 1 else 0) in
  (y, m, d).

(** ["YYYY-MM-DD"] of the instant [secs] (epoch seconds). *)
Definition date_text (secs : Z) : string :=
  let '(y, m, d) := civil_from_days (secs / 86400) in
  (decimal 4 y ++ "-" ++ decimal 2 m ++ "-" ++ decimal 2 d)%string.

(** ["HH:MM:SS"] of the instant [secs]. *)
Definition clock_text (secs : Z) : string :=
  let s := secs mod 86400 in
  (decimal 2 (s / 3600) ++ ":" ++ decimal 2 (s / 60 mod 60) ++ ":" ++ decimal 2 (s mod 60))%string.

(** [datetime.fromtimestamp(T / 1000, tz=timezone.utc).isoformat()]: the
    fraction is printed, on six digits, only when it is not zero. *)
Definition isoformat (ms : Z) : string :=
  let secs := ms / 1000 in
  let micro := (ms mod 1000) * 1000 in
  (date_text secs ++ "T" ++ clock_text secs
     ++ (if (micro =? 0)%Z then "" else "." ++ decimal 6 micro) ++ "+00:00")%string.

(** The instants of the years 0000 to 9999, which SQLite prints as below,
    and those of the years 0001 to 9999, which a Python [datetime] holds.
    Outside the former what [datetime()] gives (a signed year, or NULL)
    depends on the version of SQLite and is not modelled: the properties
    that depend on the text of a cutoff assume that it lies in these
    years. *)
Definition sqlite_years (ms : Z) : Prop := -62167219200000 ≤ ms < 253402300800000.
Definition python_years (ms : Z) : Prop := -62135596800000 ≤ ms < 253402300800000.

(** SQLite's [datetime(t)]: ["YYYY-MM-DD HH:MM:SS"], whole seconds, for an
    instant of [sqlite_years]. *)
Definition sqlite_datetime (ms : Z) : string :=
  let secs := ms / 1000 in
  (date_text secs ++ " " ++ clock_text secs)%string.

(** SQLite's [datetime('now', '-<hours> hours')] when ['now'] is [now],
    for a cutoff of [sqlite_years]. *)
Definition sqlite_datetime_hours_before (now : Z) (hours : N) : string :=
  sqlite_datetime (now - Z.of_N hours * 3600000).

(** Comparison of two TEXT values under the BINARY collation. *)
Definition text_lt (a b : string) : Prop := String.ltb a b = true.

Global Instance text_lt_dec a b : Decision (text_lt a b).
Proof. unfold text_lt. apply _. Defined.

(** ** The store: [database.py] *)

Record TickRow : Type := mkTickRow {
  row_time : string;      (* time TEXT *)
  row_symbol : string;    (* symbol TEXT *)
  row_price : Q;          (* price REAL *)
  row_qty : Q             (* qty REAL *)
}.

Record Bar : Type := mkBar {
  bar_time : string;
  bar_symbol : string;
  bar_open : Q;
  bar_high : Q;
  bar_low : Q;
  bar_close : Q;
  bar_volume : Q
}.

Inductive Timeframe : Type := TF_1s | TF_1m | TF_5m.
Inductive BarTable : Type := bars_1s | bars_1m | bars_5m.

Definition BAR_TABLES (tf : Timeframe) : BarTable :=
  match tf with
  | TF_1s => bars_1s
  | TF_1m => bars_1m
  | TF_5m => bars_5m
  end.

(** The contents of [market_data.db].  [created] tells whether the tables
    exist; every table is the list of its rows in rowid order. *)
Record Database : Type := mkDatabase {
  created : bool;
  ticks : list TickRow;
  rows_1s : list Bar;
  rows_1m : list Bar;
  rows_5m : list Bar
}.

Definition empty_db : Database :=
  {| created := false; ticks := []; rows_1s := []; rows_1m := []; rows_5m := [] |}.

Definition bar_rows (t : BarTable) (db : Database) : list Bar :=
  match t with
  | bars_1s => rows_1s db
  | bars_1m => rows_1m db
  | bars_5m => rows_5m db
  end.

Definition set_bar_rows (t : BarTable) (rows : list Bar) (db : Database) : Database :=
  match t with
  | bars_1s => {| created := created db; ticks := ticks db;
                  rows_1s := rows; rows_1m := rows_1m db; rows_5m := rows_5m db |}
  | bars_1m => {| created := created db; ticks := ticks db;
                  rows_1s := rows_1s db; rows_1m := rows; rows_5m := rows_5m db |}
  | bars_5m => {| created := created db; ticks := ticks db;
                  rows_1s := rows_1s db; rows_1m := rows_1m db; rows_5m := rows |}
  end.

Definition set_ticks (rows : list TickRow) (db : Database) : Database :=
  {| created := created db; ticks := rows;
     rows_1s := rows_1s db; rows_1m := rows_1m db; rows_5m := rows_5m db |}.

(** *** SQL statements *)

(** [CREATE TABLE IF NOT EXISTS ...] for the four tables. *)
Definition sql_create_tables (db : Database) : Database :=
  {| created := true; ticks := ticks db;
     rows_1s := rows_1s db; rows_1m := rows_1m db; rows_5m := rows_5m db |}.

(** The conflict target [UNIQUE(symbol, time)]. *)
Definition same_key (a b : Bar) : Prop :=
  bar_symbol a = bar_symbol b ∧ bar_time a = bar_time b.

Global Instance same_key_dec a b : Decision (same_key a b).
Proof. unfold same_key. apply _. Defined.

(** [DO UPDATE SET open=excluded.open, ..., volume=excluded.volume] on the
    conflicting row [r]. *)
Definition do_update (r excluded : Bar) : Bar :=
  {| bar_time := bar_time r; bar_symbol := bar_symbol r;
     bar_open := bar_open excluded; bar_high := bar_high excluded;
     bar_low := bar_low excluded; bar_close := bar_close excluded;
     bar_volume := bar_volume excluded |}.

(** [INSERT INTO <table> ... ON CONFLICT(symbol, time) DO UPDATE SET ...]
    of one bar. *)
Fixpoint sql_upsert_bar (b : Bar) (rows : list Bar) : list Bar :=
  match rows with
  | [] => [b]
  | r :: rest =>
      if decide (same_key r b) then do_update r b :: rest
      else r :: sql_upsert_bar b rest
  end.

(** [executemany] of the upsert over [bars], in order. *)
Definition sql_upsert_bars (bars : list Bar) (rows : list Bar) : list Bar :=
  fold_left (λ acc b, sql_upsert_bar b acc) bars rows.

(** [DELETE FROM ticks WHERE time < <cutoff>] *)
Definition sql_delete_ticks_before (cutoff : string) (rows : list TickRow) : list TickRow :=
  filter (λ r, ¬ text_lt (row_time r) cutoff) rows.

(** *** Connections

    Every function of [database.py] opens a connection, executes, commits
    and closes.  The environment decides which of the successive
    connections fail (locked or unwritable file): a failed connection
    raises [sqlite3.OperationalError] and commits nothing.  It also gives
    SQLite's clock. *)

Record Store : Type := mkStore {
  db : Database;
  connections : nat        (* connections opened so far *)
}.

Record DbEnv : Type := mkDbEnv {
  io_fails : nat → bool;   (* does the n-th connection fail? *)
  sqlite_now : nat → Z     (* ['now'] during the n-th connection, epoch ms *)
}.

(** One connection that executes [stmt] (which may find a table missing)
    and commits. *)
Definition transaction (env : DbEnv) (stmt : Z → Database → option Database) : Py Store unit :=
  λ s, let n := connections s in
       if io_fails env n then
         (Raised (OperationalError "database is locked"),
          {| db := db s; connections := S n |})
       else
         match stmt (sqlite_now env n) (db s) with
         | Some db' => (Returned (), {| db := db'; connections := S n |})
         | None => (Raised (OperationalError "no such table"),
                    {| db := db s; connections := S n |})
         end.

Definition if_created (f : Database → Database) (d : Database) : option Database :=
  if created d then Some (f d) else None.

Definition create_tables (env : DbEnv) : Py Store unit :=
  transaction env (λ _ d, Some (sql_create_tables d)).

Definition tick_row (t : Tick) : TickRow :=
  {| row_time := isoformat (tick_time t); row_symbol := tick_symbol t;
     row_price := tick_price t; row_qty := tick_qty t |}.

Definition insert_ticks_bulk (env : DbEnv) (batch : list Tick) : Py Store unit :=
  match batch with
  | [] => py_ret ()
  | _ => transaction env
           (λ _, if_created (λ d, set_ticks (ticks d ++ map tick_row batch) d))
  end.

Definition insert_or_replace_bars (env : DbEnv) (table_name : BarTable) (bars : list Bar)
  : Py Store unit :=
  match bars with
  | [] => py_ret ()
  | _ => transaction env
           (λ _, if_created (λ d, set_bar_rows table_name
                                    (sql_upsert_bars bars (bar_rows table_name d)) d))
  end.

(** [hours] is [None] or a number of hours, here the natural number that
    [int(hours)] prints into the modifier. *)
Definition prune_ticks_older_than (env : DbEnv) (hours : option N) : Py Store unit :=
  match hours with
  | None => py_ret ()
  | Some h =>
      transaction env
        (λ now, if_created (λ d, set_ticks
                   (sql_delete_ticks_before (sqlite_datetime_hours_before now h) (ticks d)) d))
  end.

(** ** Bar aggregation: [_aggregate_and_store_bars] *)

(** [rules]: the resampling width of each timeframe, in milliseconds
    (["1S"], ["1T"], ["5T"]). *)
Definition rules (tf : Timeframe) : Z :=
  match tf with
  | TF_1s => 1000
  | TF_1m => 60000
  | TF_5m => 300000
  end.

Definition timeframes : list Timeframe := [TF_1s; TF_1m; TF_5m].

(** Start of the window of width [w] that holds the instant [t]. *)
Definition bin_start (w t : Z) : Z := t / w * w.

(** The group keys of [df.groupby("symbol")]: the distinct symbols, sorted. *)
Fixpoint insert_key (k : string) (keys : list string) : list string :=
  match keys with
  | [] => [k]
  | k' :: rest =>
      if decide (k = k') then keys
      else if String.ltb k k' then k :: keys
      else k' :: insert_key k rest
  end.

Definition group_keys (batch : list Tick) : list string :=
  foldr insert_key [] (map tick_symbol batch).

(** [resample] orders each group by time with a stable sort: ticks with the
    same instant keep their order of arrival. *)
Fixpoint insert_by_time (t : Tick) (l : list Tick) : list Tick :=
  match l with
  | [] => [t]
  | u :: rest =>
      if tick_time u <? tick_time t then u :: insert_by_time t rest
      else t :: l
  end.

Fixpoint sort_by_time (l : list Tick) : list Tick :=
  match l with
  | [] => []
  | t :: rest => insert_by_time t (sort_by_time rest)
  end.

(** [pd.to_datetime(df["time"], utc=True)] on the column of ISO texts that
    [_on_message] wrote.  pandas (2.x) takes the format of the first text
    for the whole column and raises [ValueError] when another text does not
    have it: [isoformat] prints the fraction of a second only when it is
    not zero, so the texts of a batch must all carry a fraction or all lack
    one.  It also raises ([OutOfBoundsDatetime], a [ValueError]) for an
    instant that a nanosecond [Timestamp] cannot hold.  When it returns,
    the frame is indexed by the instants of the ticks. *)
Definition has_fraction (ms : Z) : bool := negb (ms mod 1000 =? 0).

(** [Timestamp.min] and [Timestamp.max], in whole milliseconds. *)
Definition timestamp_min : Z := -9223372036854.
Definition timestamp_max : Z := 9223372036854.

Definition in_timestamp_bounds (ms : Z) : bool :=
  (timestamp_min <=? ms) && (ms <=? timestamp_max).

(** The instants of the years 1678 to 2261, well within these bounds: the
    windows around them are within the bounds too. *)
Definition pandas_years (ms : Z) : Prop := -9214560000000 ≤ ms < 9214646400000.

Definition same_format (t0 t : Tick) : bool :=
  Bool.eqb (has_fraction (tick_time t)) (has_fraction (tick_time t0)).

Definition to_datetime (batch : list Tick) : outcome (list Tick) :=
  match batch with
  | [] => Returned []
  | t0 :: _ =>
      if negb (forallb (λ t, in_timestamp_bounds (tick_time t)) batch)
      then Raised (ValueError "Out of bounds nanosecond timestamp")
      else if negb (forallb (same_format t0) batch)
      then Raised (ValueError "time data doesn't match format")
      else Returned batch
  end.

(** The aggregations; [None] is the NaN that an empty bucket yields. *)
Definition agg_first (xs : list Q) : option Q := head xs.
Definition agg_last (xs : list Q) : option Q := last xs.

Definition q_max (m x : Q) : Q := if Qle_bool x m then m else x.
Definition q_min (m x : Q) : Q := if Qle_bool m x then m else x.

Definition agg_max (xs : list Q) : option Q :=
  match xs with
  | [] => None
  | x :: rest => Some (fold_left q_max rest x)
  end.

Definition agg_min (xs : list Q) : option Q :=
  match xs with
  | [] => None
  | x :: rest => Some (fold_left q_min rest x)
  end.

(** One row of [.agg(open=first, high=max, low=min, close=last,
    volume=sum)] followed by [.dropna()]: a row with a NaN is dropped.
    [float_sum] is the [sum] of pandas on a column of binary64 values,
    which rounds as it adds; it receives the quantities of the bucket in
    the order of the rows. *)
Definition agg_row (float_sum : list Q → Q) (symbol : string) (start : Z)
    (bucket : list Tick) : option Bar :=
  let prices := map tick_price bucket in
  o ← agg_first prices;
  h ← agg_max prices;
  l ← agg_min prices;
  c ← agg_last prices;
  Some {| bar_time := isoformat start; bar_symbol := symbol;
          bar_open := o; bar_high := h; bar_low := l; bar_close := c;
          bar_volume := float_sum (map tick_qty bucket) |}.

(** The ticks of [l] that fall in the window starting at [start]. *)
Definition in_bin (w start : Z) (l : list Tick) : list Tick :=
  filter (λ t, bin_start w (tick_time t) = start) l.

(** [resample(rule)] of one group: every window from the one of the
    earliest tick to the one of the latest, empty ones included. *)
Definition bins (w : Z) (sorted : list Tick) : list Z :=
  match sorted with
  | [] => []
  | t0 :: _ =>
      let first := bin_start w (tick_time t0) in
      let final := bin_start w (tick_time (List.last sorted t0)) in
      map (λ i, first + i * w) (seqZ 0 ((final - first) / w + 1))
  end.

Definition resample_group (float_sum : list Q → Q) (w : Z) (symbol : string)
    (group : list Tick) : list Bar :=
  let sorted := sort_by_time group in
  omap (λ start, agg_row float_sum symbol start (in_bin w start sorted)) (bins w sorted).

(** [df.groupby("symbol").resample(rule).agg(...).dropna()] as records,
    for the frame [df] that [to_datetime] has returned. *)
Definition grouped (float_sum : list Q → Q) (tf : Timeframe) (df : list Tick) : list Bar :=
  mbind (λ symbol, resample_group float_sum (rules tf) symbol
                     (filter (λ t, tick_symbol t = symbol) df))
        (group_keys df).

Definition _aggregate_and_store_bars (float_sum : list Q → Q) (env : DbEnv)
    (batch : list Tick) : Py Store unit :=
  match batch with
  | [] => py_ret ()
  | _ =>
      match to_datetime batch with
      | Raised e => raise e
      | Returned df =>
          for_each timeframes
            (λ tf, let table := BAR_TABLES tf in
                   let bars := grouped float_sum tf df in
                   match bars with
                   | [] => py_ret ()                        (* continue *)
                   | _ => insert_or_replace_bars env table bars
                   end)
      end
  end.

(** ** The process: the globals of [ingestion.py], its threads, the store *)

(** What a thread runs. *)
Inductive Target : Type :=
| FlushLoop (batch_size : nat) (flush_interval : Q) (retention_hours : option N)
| StartSocket (symbol : string) (stop_event : nat).

(** A [threading.Thread] object: its target and [is_alive()]. *)
Record Thread : Type := mkThread {
  target : Target;
  alive : bool
}.

(** Thread and [threading.Event] objects live in two heaps and are named
    by their index; the globals hold such names. *)
Record Process : Type := mkProcess {
  tick_queue : Queue;                     (* _tick_queue *)
  _flush_thread : option nat;
  _stream_threads : gmap string nat;
  _stop_flags : gmap string nat;
  threads : list Thread;
  events : list bool;                     (* the flag of each Event *)
  store : Store;
  clock_reads : nat;                      (* calls of time.time() so far *)
  gets : nat                              (* calls of _tick_queue.get so far *)
}.

Definition initial_process : Process :=
  {| tick_queue := _tick_queue; _flush_thread := None;
     _stream_threads := ∅; _stop_flags := ∅;
     threads := []; events := [];
     store := {| db := empty_db; connections := 0 |};
     clock_reads := 0; gets := 0 |}.

Definition set_tick_queue (q : Queue) (p : Process) : Process :=
  {| tick_queue := q; _flush_thread := _flush_thread p;
     _stream_threads := _stream_threads p; _stop_flags := _stop_flags p;
     threads := threads p; events := events p; store := store p;
     clock_reads := clock_reads p; gets := gets p |}.

Definition set_flush_thread (t : option nat) (p : Process) : Process :=
  {| tick_queue := tick_queue p; _flush_thread := t;
     _stream_threads := _stream_threads p; _stop_flags := _stop_flags p;
     threads := threads p; events := events p; store := store p;
     clock_reads := clock_reads p; gets := gets p |}.

Definition set_stream_threads (m : gmap string nat) (p : Process) : Process :=
  {| tick_queue := tick_queue p; _flush_thread := _flush_thread p;
     _stream_threads := m; _stop_flags := _stop_flags p;
     threads := threads p; events := events p; store := store p;
     clock_reads := clock_reads p; gets := gets p |}.

Definition set_stop_flags (m : gmap string nat) (p : Process) : Process :=
  {| tick_queue := tick_queue p; _flush_thread := _flush_thread p;
     _stream_threads := _stream_threads p; _stop_flags := m;
     threads := threads p; events := events p; store := store p;
     clock_reads := clock_reads p; gets := gets p |}.

Definition set_threads (l : list Thread) (p : Process) : Process :=
  {| tick_queue := tick_queue p; _flush_thread := _flush_thread p;
     _stream_threads := _stream_threads p; _stop_flags := _stop_flags p;
     threads := l; events := events p; store := store p;
     clock_reads := clock_reads p; gets := gets p |}.

Definition set_events (l : list bool) (p : Process) : Process :=
  {| tick_queue := tick_queue p; _flush_thread := _flush_thread p;
     _stream_threads := _stream_threads p; _stop_flags := _stop_flags p;
     threads := threads p; events := l; store := store p;
     clock_reads := clock_reads p; gets := gets p |}.

Definition set_store (s : Store) (p : Process) : Process :=
  {| tick_queue := tick_queue p; _flush_thread := _flush_thread p;
     _stream_threads := _stream_threads p; _stop_flags := _stop_flags p;
     threads := threads p; events := events p; store := s;
     clock_reads := clock_reads p; gets := gets p |}.

Definition set_clock_reads (n : nat) (p : Process) : Process :=
  {| tick_queue := tick_queue p; _flush_thread := _flush_thread p;
     _stream_threads := _stream_threads p; _stop_flags := _stop_flags p;
     threads := threads p; events := events p; store := store p;
     clock_reads := n; gets := gets p |}.

Definition set_gets (n : nat) (p : Process) : Process :=
  {| tick_queue := tick_queue p; _flush_thread := _flush_thread p;
     _stream_threads := _stream_threads p; _stop_flags := _stop_flags p;
     threads := threads p; events := events p; store := store p;
     clock_reads := clock_reads p; gets := n |}.

Definition on_queue {A} (c : Py Queue A) : Py Process A := zoom tick_queue set_tick_queue c.
Definition on_store {A} (c : Py Store A) : Py Process A := zoom store set_store c.

(** What the process does not control: the store's failures and clock,
    the readings of [time.time()] (seconds), and the messages that the
    connectors deliver while the flusher waits in its n-th [get]. *)
Record Env : Type := mkEnv {
  db_env : DbEnv;
  time_time : nat → Q;
  arrivals : nat → list TradeMsg
}.

Definition time_ (env : Env) : Py Process Q :=
  λ p, (Returned (time_time env (clock_reads p)), set_clock_reads (S (clock_reads p)) p).

(** The connector threads hand [msgs] to [_on_message]; what a callback
    raises stays in the connector's thread. *)
Definition deliver (msgs : list TradeMsg) : Py Process unit :=
  λ p, (Returned (), snd (on_queue (feed msgs) p)).

(** [_tick_queue.get(timeout=...)]: an item if one is queued or arrives
    within the timeout, else [queue.Empty]. *)
Definition queue_get (env : Env) : Py Process Tick :=
  do p <- get_state;
  do_ set_state (set_gets (S (gets p)) p);
  do_ deliver (arrivals env (gets p));
  on_queue get_nowait.

(** ** The flush loop *)

Definition Qlt_bool (a b : Q) : bool := negb (Qle_bool b a).

(** The inner [while] of a cycle; [room] is [batch_size - len(batch)]. *)
Fixpoint drain (env : Env) (room : nat) (flush_interval start : Q) (batch : list Tick)
  : Py Process (list Tick) :=
  match room with
  | O => py_ret batch
  | S room' =>
      do now <- time_ env;
      if Qlt_bool (now - start) flush_interval then
        do got <- try_except (do item <- queue_get env; py_ret (Some item))
                    (λ e, match e with
                          | QueueEmpty => Some (py_ret None)
                          | _ => None
                          end);
        match got with
        | Some item => drain env room' flush_interval start (batch ++ [item])
        | None => py_ret batch                           (* break *)
        end
      else py_ret batch
  end.

(** Is [retention_hours] true as a condition? *)
Definition truthy (hours : option N) : bool :=
  match hours with
  | None => false
  | Some h => negb (h =? 0)%N
  end.

(** One turn of [while True]; returns the new [last_prune]. *)
Definition flush_cycle (float_sum : list Q → Q) (env : Env) (batch_size : nat)
    (flush_interval : Q) (retention_hours : option N) (last_prune : Q) : Py Process Q :=
  do start <- time_ env;
  do batch <- drain env batch_size flush_interval start [];
  do_ match batch with
      | [] => py_ret ()
      | _ => do_ on_store (insert_ticks_bulk (db_env env) batch);
             on_store (_aggregate_and_store_bars float_sum (db_env env) batch)
      end;
  if truthy retention_hours then
    do now <- time_ env;
    if Qlt_bool (300 # 1) (now - last_prune) then
      do_ on_store (prune_ticks_older_than (db_env env) retention_hours);
      time_ env
    else py_ret last_prune
  else py_ret last_prune.

Fixpoint flush_cycles (float_sum : list Q → Q) (env : Env) (batch_size : nat)
    (flush_interval : Q) (retention_hours : option N) (cycles : nat) (last_prune : Q)
  : Py Process unit :=
  match cycles with
  | O => py_ret ()
  | S n =>
      do last_prune' <- flush_cycle float_sum env batch_size flush_interval retention_hours
                          last_prune;
      flush_cycles float_sum env batch_size flush_interval retention_hours n last_prune'
  end.

(** [_flush_loop], observed for [cycles] turns of its [while True]:
    [Returned] means that it is still looping. *)
Definition _flush_loop (float_sum : list Q → Q) (env : Env) (batch_size : nat)
    (flush_interval : Q) (retention_hours : option N) (cycles : nat) : Py Process unit :=
  do_ on_store (create_tables (db_env env));
  do last_prune <- time_ env;
  flush_cycles float_sum env batch_size flush_interval retention_hours cycles last_prune.

(** *** Threads *)

Definition new_thread (tg : Target) : Py Process nat :=
  λ p, (Returned (length (threads p)),
        set_threads (threads p ++ [{| target := tg; alive := false |}]) p).

Definition set_alive (b : bool) (t : Thread) : Thread :=
  {| target := target t; alive := b |}.

Definition thread_start (t : nat) : Py Process unit :=
  λ p, (Returned (), set_threads (alter (set_alive true) t (threads p)) p).

Definition is_alive (t : nat) (p : Process) : bool :=
  match threads p !! t with
  | Some th => alive th
  | None => false
  end.

(** A thread whose target raises ends: the exception goes no further than
    the thread. *)
Definition run_thread (t : nat) (body : Py Process unit) : Py Process unit :=
  λ p, match body p with
       | (Returned _, p') => (Returned (), p')
       | (Raised _, p') => (Returned (), set_threads (alter (set_alive false) t (threads p')) p')
       end.

Definition flush_alive_now (p : Process) : bool :=
  match _flush_thread p with
  | Some t => is_alive t p
  | None => false
  end.

Definition _ensure_flush_thread (batch_size : nat) (flush_interval : Q)
    (retention_hours : option N) : Py Process unit :=
  do p <- get_state;
  if flush_alive_now p then py_ret ()
  else
    do t <- new_thread (FlushLoop batch_size flush_interval retention_hours);
    do_ (λ p, (Returned (), set_flush_thread (Some t) p));
    thread_start t.

(** The default arguments of [_ensure_flush_thread]. *)
Definition default_batch_size : nat := 200.
Definition default_flush_interval : Q := 1 # 1.
Definition default_retention_hours : option N := Some 6%N.

(** The flush thread of the process, run for [cycles] turns of its loop. *)
Definition run_flush_thread (float_sum : list Q → Q) (env : Env) (cycles : nat)
  : Py Process unit :=
  do p <- get_state;
  match _flush_thread p with
  | Some t =>
      match target <$> threads p !! t with
      | Some (FlushLoop batch_size flush_interval retention_hours) =>
          run_thread t
            (_flush_loop float_sum env batch_size flush_interval retention_hours cycles)
      | _ => py_ret ()
      end
  | None => py_ret ()
  end.

(** ** Connector registry *)

Definition new_event : Py Process nat :=
  λ p, (Returned (length (events p)), set_events (events p ++ [false]) p).

Definition event_set (e : nat) : Py Process unit :=
  λ p, (Returned (), set_events (<[e := true]> (events p)) p).

Definition start_stream (env : Env) (symbol : string) : Py Process unit :=
  do p <- get_state;
  if decide (symbol ∈ dom (_stream_threads p)) then py_ret ()
  else
    do_ on_store (create_tables (db_env env));
    do_ _ensure_flush_thread default_batch_size default_flush_interval default_retention_hours;
    do stop_event <- new_event;
    do thread <- new_thread (StartSocket symbol stop_event);
    do_ (λ p, (Returned (), set_stream_threads (<[symbol := thread]> (_stream_threads p)) p));
    do_ (λ p, (Returned (), set_stop_flags (<[symbol := stop_event]> (_stop_flags p)) p));
    thread_start thread.

Definition stop_stream (symbol : string) : Py Process unit :=
  do p <- get_state;
  if decide (symbol ∈ dom (_stream_threads p)) then
    match _stop_flags p !! symbol with
    | None => raise (KeyError symbol)
    | Some ev =>
        do_ event_set ev;
        do_ (λ p, (Returned (), set_stream_threads (delete symbol (_stream_threads p)) p));
        (λ p, (Returned (), set_stop_flags (delete symbol (_stop_flags p)) p))
    end
  else py_ret ().

Record Status : Type := mkStatus {
  active_symbols : list string;
  queue_size : Z;
  flush_alive : bool
}.

(** [list(_stream_threads.keys())] lists the keys in insertion order; the
    map keeps no such order, and [active_symbols] is used as a set. *)
Definition get_status (p : Process) : Status :=
  {| active_symbols := elements (dom (_stream_threads p));
     queue_size := qsize (tick_queue p);
     flush_alive := flush_alive_now p |}.

(** A call of the registry's interface. *)
Inductive Call : Type :=
| Start (symbol : string)
| Stop (symbol : string).

Definition call (env : Env) (c : Call) : Py Process unit :=
  match c with
  | Start s => start_stream env s
  | Stop s => stop_stream s
  end.

(** The calls one after the other; a call that raises does not stop the
    caller from making the next one. *)
Fixpoint calls (env : Env) (cs : list Call) (p : Process) : Process :=
  match cs with
  | [] => p
  | c :: rest => calls env rest (snd (call env c p))
  end.

(** ** Connector: [_start_socket] *)

(** The connector's view: how many connections it has made and the
    durations it has slept, oldest first. *)
Record Connector : Type := mkConnector {
  attempts : nat;
  slept : list Z
}.

(** For the n-th pass of the loop: the value of [stop_event.is_set()]
    at its test, and whether [run_forever] raises rather than returns. *)
Record Feed : Type := mkFeed {
  stop_is_set : nat → bool;
  connection_raises : nat → bool
}.

Definition run_forever (wire : Feed) : Py Connector unit :=
  λ c, let c' := {| attempts := S (attempts c); slept := slept c |} in
       if connection_raises wire (attempts c)
       then (Raised (WebSocketException "connection failed"), c')
       else (Returned (), c').

Definition sleep (d : Z) : Py Connector unit :=
  λ c, (Returned (), {| attempts := attempts c; slept := slept c ++ [d] |}).

(** The loop of [_start_socket], for at most [passes] passes. *)
Fixpoint socket_loop (wire : Feed) (passes : nat) (backoff : Z) : Py Connector unit :=
  match passes with
  | O => py_ret ()
  | S n =>
      do c <- get_state;
      if stop_is_set wire (attempts c) then py_ret ()
      else
        do backoff' <- try_except
                         (do_ run_forever wire; py_ret (Z.min (backoff * 2) 30))
                         (λ _, Some (py_ret (Z.min (backoff * 2) 30)));
        do_ sleep backoff';
        socket_loop wire n backoff'
  end.

Definition _start_socket (wire : Feed) (passes : nat) : Py Connector unit :=
  let backoff := 1 in
  socket_loop wire passes backoff.

(** ** Pair analytics: [analytics.py] *)

(** A numeric pandas Series or numpy array: its values, IEEE binary64. *)
Abbreviation Series := (list float) (only parsing).

(** [a[-k:]] for [k > 0]: the last [k] elements (all of [a] when it has
    fewer). *)
Definition last_items {A} (k : nat) (a : list A) : list A :=
  drop (length a - k) a.

(** [hedge_ratio] on one-dimensional inputs (on which [ravel] does
    nothing); [fit y x] stands for statsmodels'
    [OLS(y, add_constant(x)).fit().params[1]]. *)
Definition hedge_ratio (fit : Series → Series → outcome float) (y x : Series) : outcome float :=
  let y_arr := y in
  let x_arr := x in
  let min_len := Nat.min (length y_arr) (length x_arr) in
  if (min_len =? 0)%nat then Raised (ValueError "Not enough data to compute hedge ratio")
  else
    let y_arr := last_items min_len y_arr in
    let x_arr := last_items min_len x_arr in
    fit y_arr x_arr.

Definition float_of_nat (n : nat) : float := PrimFloat.of_uint63 (Uint63.of_Z (Z.of_nat n)).

(** A sum from left to right.  numpy adds the values of a longer array in
    another order, so that the last digits of a mean or of a standard
    deviation below may differ from those of pandas; no property depends on
    them. *)
Definition fsum (xs : Series) : float := fold_left PrimFloat.add xs 0%float.

(** pandas reductions skip NaN ([skipna=True]). *)
Definition notna (s : Series) : Series := List.filter (λ x, negb (PrimFloat.is_nan x)) s.

(** [Series.mean()] *)
Definition mean (s : Series) : float :=
  let v := notna s in
  match v with
  | [] => nan
  | _ => (fsum v / float_of_nat (length v))%float
  end.

(** [Series.std()]: the sample standard deviation ([ddof=1]). *)
Definition std (s : Series) : float :=
  let v := notna s in
  let count := length v in
  if (count <=? 1)%nat then nan
  else
    let avg := (fsum v / float_of_nat count)%float in
    let sqr := map (λ x, ((avg - x) * (avg - x))%float) v in
    PrimFloat.sqrt (fsum sqr / float_of_nat (count - 1)).

(** [zscore]: element-wise arithmetic on a Series raises nothing. *)
Definition zscore (series : Series) : outcome Series :=
  let m := mean series in
  let sd := std series in
  Returned (map (λ x, ((x - m) / sd)%float) series).

(** [rolling_corr]: [s1.rolling(window).corr(s2)], for two series with
    the same index.

    pandas first makes the two series undefined at the same positions
    ([prep_binary]), then computes at every position, over the window of
    the last [window] positions (fewer at the start of the series), the
    rolling means of [x * y], [x] and [y], the number of positions where
    both are defined and the rolling sample variances, and combines them.
    A rolling mean or variance is NaN when its window holds fewer than
    [min_periods] values that are not NaN, and [min_periods] is [window]
    here.  How pandas adds up the values of a window (it updates running
    sums from one window to the next) is left open: [mean_of] and [var_of]
    stand for the mean and the sample variance of the values of a window. *)
Definition prep_binary (s1 s2 : Series) : Series * Series :=
  (zip_with (λ a b, (a + 0 * b)%float) s1 s2,
   zip_with (λ a b, (b + 0 * a)%float) s1 s2).

(** The window that ends at position [i]. *)
Definition window_at (window i : nat) (x : Series) : Series :=
  drop (S i - window) (take (S i) x).

Definition roll_mean (mean_of : Series → float) (minp : nat) (win : Series) : float :=
  let v := notna win in
  if ((minp <=? length v) && (0 <? length v))%nat then mean_of v else nan.

Definition roll_var (var_of : Series → float) (minp : nat) (win : Series) : float :=
  let v := notna win in
  if ((Nat.max minp 1 <=? length v) && (1 <? length v))%nat then var_of v else nan.

Definition corr_at (mean_of var_of : Series → float) (window i : nat) (x y : Series)
  : float :=
  let min_periods := window in
  let wx := window_at window i x in
  let wy := window_at window i y in
  let mean_x_y := roll_mean mean_of min_periods (zip_with PrimFloat.mul wx wy) in
  let mean_x := roll_mean mean_of min_periods wx in
  let mean_y := roll_mean mean_of min_periods wy in
  let count_x_y := float_of_nat (length (notna (zip_with PrimFloat.add wx wy))) in
  let x_var := roll_var var_of min_periods wx in
  let y_var := roll_var var_of min_periods wy in
  let numerator := ((mean_x_y - mean_x * mean_y) * (count_x_y / (count_x_y - 1)))%float in
  let denominator := PrimFloat.sqrt (x_var * y_var) in
  (numerator / denominator)%float.

Definition rolling_corr (mean_of var_of : Series → float) (s1 s2 : Series) (window : nat)
  : Series :=
  let '(x, y) := prep_binary s1 s2 in
  map (λ i, corr_at mean_of var_of window i x y) (seq 0 (length x)).

(** The mean and the sample variance of some values by the formulas, with
    the sums taken from left to right. *)
Definition plain_mean (v : Series) : float := (fsum v / float_of_nat (length v))%float.

Definition plain_var (v : Series) : float :=
  let avg := plain_mean v in
  (fsum (map (λ x, ((x - avg) * (x - avg))%float) v) / float_of_nat (length v - 1))%float.

(** A series all of whose values are the same number. *)
Definition constant_series (s : Series) : Prop :=
  ∃ c, PrimFloat.is_nan c = false ∧ s ≠ [] ∧ Forall (λ x, x = c) s.

(** ** Notions used by the properties *)

(** The key columns of a bar row. *)
Definition bar_key (r : Bar) : string * string := (bar_symbol r, bar_time r).

(** An environment of the store in which no connection fails. *)
Definition reliable_store (now : Z) : DbEnv :=
  {| io_fails := λ _, false; sqlite_now := λ _, now |}.

(** A store whose tables exist and are empty. *)
Definition fresh_store : Store :=
  {| db := sql_create_tables empty_db; connections := 0 |}.


(** The [UNIQUE(symbol, time)] constraint of a bar table. *)
Definition unique_keys (rows : list Bar) : Prop :=
  NoDup (map bar_key rows).

(** The rows of a table stored under the key of [b]. *)
Definition rows_of_key (b : Bar) (rows : list Bar) : list Bar :=
  filter (λ r, same_key r b) rows.

(** The ticks of [batch] that a bar of [symbol] starting at [start] with
    width [w] is made of, in their order of arrival. *)
Definition bucket_of (w : Z) (symbol : string) (start : Z) (batch : list Tick) : list Tick :=
  filter (λ t, bin_start w (tick_time t) = start ∧ tick_symbol t = symbol) batch.

(** The windows of the bars of a timeframe: the symbol and the start of
    every bucket of the frame that is not empty, in the order of the
    bars. *)
Definition windows (tf : Timeframe) (df : list Tick) : list (string * Z) :=
  group_keys df ≫= λ symbol,
    let sorted := sort_by_time (filter (λ t, tick_symbol t = symbol) df) in
    pair symbol <$>
      filter (λ start, (0 < length (in_bin (rules tf) start sorted))%nat)
             (bins (rules tf) sorted).

(** [t] is not later than [u]. *)
Definition time_le (t u : Tick) : Prop := tick_time t ≤ tick_time u.

(** A summation that does not round, as binary64 addition is on values
    such as the small integers of the examples below. *)
Definition exact_sum (xs : list Q) : Q := fold_left Qplus xs (0 # 1).

(** The exponential schedule that starts at [first]: doubling, capped at 30. *)
Definition backoff_schedule (first : Z) (n : nat) : list Z :=
  map (λ i, Z.min (first * 2 ^ Z.of_nat i) 30) (seq 0 n).

(** The state of the flush loop after [k] whole cycles: the value of
    [last_prune] and the process, if none of these cycles raised. *)
Fixpoint after_cycles (float_sum : list Q → Q) (env : Env) (batch_size : nat)
    (flush_interval : Q) (retention_hours : option N) (k : nat) (last_prune : Q)
    (p : Process) : option (Q * Process) :=
  match k with
  | O => Some (last_prune, p)
  | S k' =>
      match flush_cycle float_sum env batch_size flush_interval retention_hours
              last_prune p with
      | (Returned last_prune', p') =>
          after_cycles float_sum env batch_size flush_interval retention_hours k'
            last_prune' p'
      | (Raised _, _) => None
      end
  end.

(** What SQLite raises for a connection that fails. *)
Definition locked : exn := OperationalError "database is locked".

(** How a run from the store [s] to the store [s'] with the result [r] has
    used connections, the tables being there: it has opened the
    connections numbered from [connections s] up to [connections s'], not
    included; if one of them failed it is the last one, nothing was
    attempted after it and SQLite's error is the result; an exception is
    that error, after such a failure, or a [ValueError]. *)
Definition disciplined (denv : DbEnv) {A} (s : Store) (r : outcome A) (s' : Store) : Prop :=
  (connections s ≤ connections s')%nat ∧
  created (db s') = true ∧
  (∀ n, (connections s ≤ n < connections s')%nat → io_fails denv n = true →
        S n = connections s' ∧ r = Raised locked) ∧
  match r with
  | Returned _ => True
  | Raised e =>
      (e = locked ∧ ∃ n, connections s' = S n ∧ (connections s ≤ n)%nat ∧
                         io_fails denv n = true) ∨
      (∃ msg, e = ValueError msg)
  end.

Definition store_discipline (denv : DbEnv) {A} (c : Py Store A) : Prop :=
  ∀ s, created (db s) = true →
       disciplined denv s (fst (c s)) (snd (c s)).

Definition flusher_discipline (env : Env) {A} (c : Py Process A) : Prop :=
  ∀ p, created (db (store p)) = true →
       disciplined (db_env env) (store p) (fst (c p)) (store (snd (c p))).

(** Every tick that the flusher can come to hold is of the years 1678 to
    2261 and its ISO text has a fraction or not as [fraction] says: the
    ticks that are queued and those of the messages that arrive. *)
Definition one_format (fraction : bool) (t : Tick) : Prop :=
  pandas_years (tick_time t) ∧ has_fraction (tick_time t) = fraction.

Definition feed_of_one_format (env : Env) (fraction : bool) (p : Process) : Prop :=
  Forall (one_format fraction) (items (tick_queue p)) ∧
  ∀ n, Forall (λ m, one_format fraction (tick_of_message m)) (arrivals env n).

(** An environment in which the store is locked during its sixth
    connection only, the clock stands still, and one trade arrives during
    every other wait of the flusher: the first cycle stores a tick and its
    bars (connections 1 to 4, after [create_tables]), the second finds the
    store locked. *)
Definition locked_once : Env :=
  {| db_env := {| io_fails := λ n, (n =? 5)%nat; sqlite_now := λ _, 1704139200000 |};
     time_time := λ _, 0 # 1;
     arrivals := λ n, if Nat.even n
                      then [{| msg_T := 1704139199000 + Z.of_nat n; msg_s := "BTCUSDT";
                               msg_p := 100 # 1; msg_q := 1 # 1 |}]
                      else [] |}.

(** The process once [_flush_loop] has created the tables and read the
    clock, in [locked_once]. *)
Definition flusher_started : Process :=
  snd ((do_ on_store (create_tables (db_env locked_once)); time_ locked_once) initial_process).

(** A feed whose connections always fail and whose stop is never
    requested. *)
Definition dead_feed : Feed :=
  {| stop_is_set := λ _, false; connection_raises := λ _, true |}.

Definition new_connector : Connector := {| attempts := 0; slept := [] |}.

(** A float that is a zero, of either sign. *)
Definition is_zero (x : float) : Prop := x = 0%float ∨ x = (-0)%float.

(** Both registries have the same keys. *)
Definition aligned (p : Process) : Prop := dom (_stream_threads p) = dom (_stop_flags p).

(** ** The rest of [database.py]: single insert and the readers *)

Definition insert_tick (env : DbEnv) (time symbol : string) (price qty : Q) : Py Store unit :=
  transaction env
    (λ _, if_created (λ d, set_ticks
            (ticks d ++ [{| row_time := time; row_symbol := symbol;
                            row_price := price; row_qty := qty |}]) d)).

(** [create_table] is another name of [create_tables]. *)
Definition create_table (env : DbEnv) : Py Store unit := create_tables env.

(** The keys of the dictionary [BAR_TABLES], and [BAR_TABLES.get]. *)
Definition timeframe_of_key (k : string) : option Timeframe :=
  if decide (k = "1s") then Some TF_1s
  else if decide (k = "1m") then Some TF_1m
  else if decide (k = "5m") then Some TF_5m
  else None.

Definition BAR_TABLES_get (k : string) : option BarTable := BAR_TABLES <$> timeframe_of_key k.

(** An optional text argument as a condition: [None] and [""] are false. *)
Definition given (o : option string) : option string :=
  match o with
  | Some EmptyString => None
  | _ => o
  end.

(** [ORDER BY time ASC] on a text column; rows with the same text, whose
    order SQL leaves open, are kept in rowid order. *)
Fixpoint insert_by_text {A} (key : A → string) (r : A) (l : list A) : list A :=
  match l with
  | [] => [r]
  | u :: rest =>
      if String.ltb (key u) (key r) then u :: insert_by_text key r rest
      else r :: l
  end.

Fixpoint order_by {A} (key : A → string) (l : list A) : list A :=
  match l with
  | [] => []
  | r :: rest => insert_by_text key r (order_by key rest)
  end.

(** [LIMIT n], given only when [limit] is true as a condition. *)
Definition sql_limit {A} (limit : option N) (rows : list A) : list A :=
  match limit with
  | Some n => if (n =? 0)%N then rows else take (N.to_nat n) rows
  | None => rows
  end.

(** [WHERE symbol = ?], given only for a symbol that is true as a
    condition. *)
Definition where_symbol {A} (col : A → string) (symbol : option string) (rows : list A)
  : list A :=
  match given symbol with
  | Some sy => filter (λ r, col r = sy) rows
  | None => rows
  end.

(** [WHERE time >= <bound>] on TEXT values. *)
Definition where_time_from {A} (col : A → string) (bound : option string) (rows : list A)
  : list A :=
  match bound with
  | Some t => filter (λ r, ¬ text_lt (col r) t) rows
  | None => rows
  end.

(** [pd.read_sql(query, conn)] over one more connection: the rows, or
    SQLite's error. *)
Definition read_sql {A} (env : DbEnv) (query : Z → Database → list A) : Py Store (list A) :=
  λ s, let n := connections s in
       let s' := {| db := db s; connections := S n |} in
       if io_fails env n then (Raised (OperationalError "database is locked"), s')
       else if created (db s) then (Returned (query (sqlite_now env n) (db s)), s')
       else (Raised (OperationalError "no such table"), s').

(** The query that [load_ticks] builds. *)
Definition select_ticks (symbol since : option string) (limit : option N) (d : Database)
  : list TickRow :=
  sql_limit limit
    (order_by row_time
       (where_time_from row_time (given since)
          (where_symbol row_symbol symbol (ticks d)))).

Definition load_ticks (env : DbEnv) (symbol since : option string) (limit : option N)
  : Py Store (list TickRow) :=
  do_ create_tables env;
  try_except (read_sql env (λ _, select_ticks symbol since limit))
    (λ _, Some (py_ret [])).

(** The query that [load_bars] builds; [lookback] is the natural number
    that [int(lookback)] prints. *)
Definition select_bars (table : BarTable) (symbol : option string) (lookback : option N)
    (now : Z) (d : Database) : list Bar :=
  order_by bar_time
    (where_time_from bar_time
       (if truthy lookback
        then sqlite_datetime_hours_before now <$> lookback
        else None)
       (where_symbol bar_symbol symbol (bar_rows table d))).

Definition load_bars (env : DbEnv) (timeframe : string) (symbol : option string)
    (lookback : option N) : Py Store (list Bar) :=
  match BAR_TABLES_get timeframe with
  | None => py_ret []
  | Some table =>
      do_ create_tables env;
      try_except (read_sql env (select_bars table symbol lookback))
        (λ _, Some (py_ret []))
  end.

(** ** [services.py] *)

(** [df.sort_values("time")] on parsed instants. *)
Fixpoint insert_by_instant {A} (key : A → Z) (r : A) (l : list A) : list A :=
  match l with
  | [] => [r]
  | u :: rest =>
      if key u <? key r then u :: insert_by_instant key r rest
      else r :: l
  end.

Fixpoint sort_values {A} (key : A → Z) (l : list A) : list A :=
  match l with
  | [] => []
  | r :: rest => insert_by_instant key r (sort_values key rest)
  end.

(** A frame of bars indexed by time: every row with its instant. *)
Abbreviation BarFrame := (list (Z * Bar)) (only parsing).

(** [_prepare_bars].  [parse] stands for [pd.to_datetime(_, utc=True)] on
    the column of the stored time texts: the instants, one for each text,
    or [None] when pandas raises.  An empty frame is returned as it is.
    The order in which [sort_values] leaves rows of the same instant is
    not specified by pandas; the properties do not depend on it. *)
Definition _prepare_bars (parse : list string → option (list Z)) (df : list Bar)
  : outcome BarFrame :=
  match df with
  | [] => Returned []
  | _ =>
      match parse (map bar_time df) with
      | Some instants => Returned (sort_values fst (zip instants df))
      | None => Raised (ValueError "time data doesn't match format")
      end
  end.

Definition load_pair_bars (env : DbEnv) (parse : list string → option (list Z))
    (symbol_1 symbol_2 : option string) (timeframe : string) (lookback_hours : option N)
  : Py Store (BarFrame * BarFrame) :=
  do rows1 <- load_bars env timeframe symbol_1 lookback_hours;
  match _prepare_bars parse rows1 with
  | Raised e => raise e
  | Returned df1 =>
      do rows2 <- load_bars env timeframe symbol_2 lookback_hours;
      match _prepare_bars parse rows2 with
      | Raised e => raise e
      | Returned df2 =>
          match df1, df2 with
          | [], _ | _, [] => py_ret (df1, df2)
          | _, _ =>
              let min_len := Nat.min (length df1) (length df2) in
              if (min_len =? 0)%nat then py_ret (df1, df2)
              else py_ret (last_items min_len df1, last_items min_len df2)
          end
      end
  end.

(** [health] *)
Definition health (p : Process) : Status := get_status p.

(** [frame] is what [_prepare_bars] makes of [rows]: every row with the
    instant of its time text, in the order of the instants. *)
Definition prepared (parse : list string → option (list Z)) (rows : list Bar)
    (frame : list (Z * Bar)) : Prop :=
  StronglySorted (λ a b, a.1 ≤ b.1) frame ∧
  (rows = [] ∧ frame = [] ∨
   ∃ instants, parse (map bar_time rows) = Some instants ∧ frame ≡ₚ zip instants rows).

(** ** Further notions used by the properties *)

(** The passes that the loop of [_start_socket] makes when it is allowed
    [passes] of them from its [n]-th connection on: it stops at the first
    test that finds the stop event set. *)
Fixpoint passes_made (wire : Feed) (passes n : nat) : nat :=
  match passes with
  | O => O
  | S k => if stop_is_set wire n then O else S (passes_made wire k (S n))
  end.

(** The objects that the registries name are there, and a symbol's
    thread tests the very event that [_stop_flags] holds for the symbol. *)
Definition wired (p : Process) : Prop :=
  aligned p ∧
  ∀ symbol th, _stream_threads p !! symbol = Some th →
    ∃ ev a, threads p !! th = Some {| target := StartSocket symbol ev; alive := a |} ∧
            _stop_flags p !! symbol = Some ev ∧
            (ev < length (events p))%nat.

(** Text order, as [ORDER BY] leaves the rows. *)
Definition text_le (a b : string) : Prop := ¬ text_lt b a.

(** The number of raw ticks in the store of a process. *)
Definition stored_ticks (p : Process) : nat := length (ticks (db (store p))).

(** An environment in which the store always works, the clock advances
    by a second at every reading and a trade arrives during every wait,
    a millisecond after the one before. *)
Definition steady : Env :=
  {| db_env := reliable_store 1704139200000;
     time_time := λ n, Z.of_nat n # 1;
     arrivals := λ n, [{| msg_T := 1704139199000 + Z.of_nat n; msg_s := "BTCUSDT";
                          msg_p := 100 # 1; msg_q := 1 # 1 |}] |}.

(** The same with trades that arrive a second after one another, on whole
    seconds, for an hour. *)
Definition steady_seconds : Env :=
  {| db_env := reliable_store 1704139200000;
     time_time := λ n, Z.of_nat n # 1;
     arrivals := λ n, [{| msg_T := 1704139199000 + 1000 * Z.of_nat (Nat.min n 3600);
                          msg_s := "BTCUSDT";
                          msg_p := 100 # 1; msg_q := 1 # 1 |}] |}.

(** * Properties *)

(** ** The tick buffer *)

Section buffer.
Implicit Types (q : Queue) (t : Tick) (l : list Tick).

Lemma last_items_short {A} (n : nat) (l : list A) :
  (length l ≤ n)%nat → last_items n l = l.
Proof.
  intros Hle. unfold last_items.
  replace (length l - n)%nat with 0%nat by lia. done.
Qed.

Lemma last_items_length {A} (n : nat) (l : list A) :
  length (last_items n l) = Nat.min n (length l).
Proof. unfold last_items. rewrite length_drop. lia. Qed.

Lemma last_items_app {A} (n : nat) (l l' : list A) :
  last_items n (last_items n l ++ l') = last_items n (l ++ l').
Proof.
  unfold last_items. rewrite !length_app, length_drop.
  rewrite !drop_app, drop_drop, length_drop.
  f_equal; f_equal; lia.
Qed.

(** One [offer] on a buffer of positive capacity that is not over-full:
    it returns, and the buffer holds the newest ticks. *)
Lemma offer_spec t q :
  0 < maxsize q → qsize q ≤ maxsize q →
  offer t q = (Returned (),
               {| maxsize := maxsize q;
                  items := last_items (Z.to_nat (maxsize q)) (items q ++ [t]) |}).
Proof.
  intros Hpos Hle. unfold offer, try_except, put_nowait at 1.
  unfold full, qsize in *.
  destruct (0 <? maxsize q) eqn:H0; [|lia]. simpl.
  destruct (maxsize q <=? Z.of_nat (length (items q))) eqn:Hfull.
  - (* full: the oldest tick goes *)
    apply Z.leb_le in Hfull.
    assert (Hlen : length (items q) = Z.to_nat (maxsize q)) by lia.
    destruct (items q) as [|x rest] eqn:Hitems; [simpl in Hlen; lia|].
    unfold py_bind, get_nowait. rewrite Hitems.
    unfold put_nowait, full, qsize. simpl maxsize. simpl items.
    rewrite H0. simpl in Hlen.
    destruct (maxsize q <=? Z.of_nat (length rest)) eqn:Hfull'; [apply Z.leb_le in Hfull'; lia|]. simpl.
    do 2 f_equal. unfold last_items. simpl length. rewrite length_app. simpl.
    replace (S (length rest + 1) - Z.to_nat (maxsize q))%nat with 1%nat by lia.
    done.
  - apply Z.leb_gt in Hfull.
    rewrite last_items_short; [done|].
    rewrite length_app. simpl. lia.
Qed.

Lemma feed_spec (msgs : list TradeMsg) q :
  0 < maxsize q → qsize q ≤ maxsize q →
  feed msgs q = (Returned (),
                 {| maxsize := maxsize q;
                    items := last_items (Z.to_nat (maxsize q))
                               (items q ++ map tick_of_message msgs) |}).
Proof.
  revert q. induction msgs as [|m msgs IH]; intros q Hpos Hle.
  - simpl. unfold py_ret. rewrite app_nil_r.
    rewrite last_items_short by (unfold qsize in Hle; lia).
    by destruct q.
  - unfold feed in *. simpl. unfold py_bind, _on_message at 1.
    rewrite offer_spec by done.
    rewrite IH; simpl; [|done|].
    + rewrite last_items_app, <- app_assoc. done.
    + unfold qsize. simpl. rewrite last_items_length. lia.
Qed.
End buffer.

(** C4.  A buffer of capacity [N > 0], empty at first, that is fed
    [N + k] messages in order with [k > 0] and from which nothing is
    taken meanwhile: every [offer] returns without raising (the feeding of
    every prefix returns), the [k] earliest ticks are gone, and the buffer
    holds the last [N] ticks in their order. *)
Theorem buffer_overflow_keeps_newest (N k : nat) (msgs : list TradeMsg) :
  (0 < N)%nat → (0 < k)%nat → length msgs = (N + k)%nat →
  let q0 := {| maxsize := Z.of_nat N; items := [] |} in
  let input := map tick_of_message msgs in
  (∀ n, fst (feed (take n msgs) q0) = Returned ()) ∧
  ∃ q', feed msgs q0 = (Returned (), q') ∧
        maxsize q' = Z.of_nat N ∧
        length (items q') = N ∧
        items q' = drop k input ∧
        input = take k input ++ items q'.
Proof.
  intros HN Hk Hlen q0 input. split.
  - intros n. rewrite feed_spec; simpl; [done|lia|unfold qsize; simpl; lia].
  - eexists. rewrite feed_spec; simpl; [|lia|unfold qsize; simpl; lia].
    split; [done|]. simpl. rewrite Nat2Z.id.
    assert (Hitems : last_items N (map tick_of_message msgs) = drop k input).
    { unfold last_items, input. rewrite length_map, Hlen. f_equal. lia. }
    rewrite Hitems. repeat split.
    + rewrite length_drop. unfold input. rewrite length_map. lia.
    + by rewrite take_drop.
Qed.

Lemma buffer_overflow_keeps_newest_witness :
  let m (i : Z) := {| msg_T := i; msg_s := "BTCUSDT"; msg_p := 100 # 1; msg_q := 1 # 1 |} in
  ∃ q', feed [m 1; m 2; m 3] {| maxsize := 2; items := [] |} = (Returned (), q') ∧
        items q' = map tick_of_message [m 2; m 3].
Proof.
  intros m.
  destruct (buffer_overflow_keeps_newest 2 1 [m 1; m 2; m 3]) as [_ (q' & Hfeed & _ & _ & Hitems & _)];
    [lia | lia | reflexivity |].
  exists q'. split; [exact Hfeed | exact Hitems].
Defined.

(** ** Bar upsert *)

Section upsert.
Implicit Types (b r : Bar) (rows : list Bar).

Lemma same_key_bar_key r b : same_key r b ↔ bar_key r = bar_key b.
Proof. unfold same_key, bar_key. split; [intros [-> ->]; done | by inversion 1]. Qed.

Lemma do_update_same_key r b : same_key r b → do_update r b = b.
Proof. intros [Hs Ht]. destruct b. unfold do_update. simpl in *. by rewrite Hs, Ht. Qed.

Lemma rows_of_key_absent b rows :
  bar_key b ∉ map bar_key rows → rows_of_key b rows = [].
Proof.
  intros Hnot. unfold rows_of_key. induction rows as [|r rows IH]; [done|].
  rewrite filter_cons. rewrite fmap_cons, not_elem_of_cons in Hnot.
  destruct Hnot as [Hne Hnot]. case_decide as Hk.
  - apply same_key_bar_key in Hk. congruence.
  - by apply IH.
Qed.

(** The keys after an upsert: unchanged on a conflict, one more at the
    end otherwise. *)
Lemma sql_upsert_bar_keys b rows :
  map bar_key (sql_upsert_bar b rows) =
    if decide (bar_key b ∈ map bar_key rows) then map bar_key rows
    else map bar_key rows ++ [bar_key b].
Proof.
  induction rows as [|r rows IH]; simpl.
  - done.
  - destruct (decide (same_key r b)) as [Hk|Hk]; simpl.
    + apply same_key_bar_key in Hk.
      rewrite decide_True by (rewrite Hk; left). done.
    + rewrite IH. rewrite same_key_bar_key in Hk.
      destruct (decide (bar_key b ∈ map bar_key rows)) as [Hin|Hin].
      * rewrite decide_True by (by right). done.
      * rewrite decide_False; [done|].
        rewrite not_elem_of_cons. split; congruence.
Qed.

Lemma sql_upsert_bar_unique b rows :
  unique_keys rows → unique_keys (sql_upsert_bar b rows).
Proof.
  unfold unique_keys. intros Hnd. rewrite sql_upsert_bar_keys.
  case_decide as Hin; [done|].
  apply NoDup_app. split_and!; [done| |apply NoDup_singleton].
  intros k Hk Hk'. apply list_elem_of_singleton in Hk'. by subst.
Qed.

(** After an upsert of [b] the table has one row under the key of [b],
    and that row is [b]. *)
Lemma sql_upsert_bar_row b rows :
  unique_keys rows → rows_of_key b (sql_upsert_bar b rows) = [b].
Proof.
  unfold unique_keys, rows_of_key.
  induction rows as [|r rows IH]; intros Hnd; simpl.
  - rewrite filter_cons, decide_True by done. done.
  - apply NoDup_cons in Hnd as [Hr Hnd].
    destruct (decide (same_key r b)) as [Hk|Hk].
    + rewrite (do_update_same_key r b Hk).
      rewrite filter_cons, decide_True by done. f_equal.
      apply rows_of_key_absent. apply same_key_bar_key in Hk. by rewrite <- Hk.
    + rewrite filter_cons, decide_False by done. by apply IH.
Qed.

(** Rows under other keys are left as they are. *)
Lemma sql_upsert_bar_others b b' rows :
  ¬ same_key b' b → rows_of_key b' (sql_upsert_bar b rows) = rows_of_key b' rows.
Proof.
  intros Hne. unfold rows_of_key. induction rows as [|r rows IH]; simpl.
  - rewrite filter_cons, decide_False; [done|].
    intros [Hs Ht]. apply Hne. by split.
  - destruct (decide (same_key r b)) as [Hk|Hk].
    + rewrite !filter_cons.
      assert (Hr : ¬ same_key r b').
      { intros [Hs Ht]. destruct Hk as [Hs' Ht']. apply Hne. split; congruence. }
      rewrite !decide_False; [done|done|].
      intros [Hs Ht]. apply Hr. by split.
    + rewrite !filter_cons. case_decide; by rewrite IH.
Qed.

Lemma sql_upsert_bars_unique bars rows :
  unique_keys rows → unique_keys (sql_upsert_bars bars rows).
Proof.
  unfold sql_upsert_bars. revert rows.
  induction bars as [|b bars IH]; intros rows Hu; simpl; [done|].
  by apply IH, sql_upsert_bar_unique.
Qed.

(** What a call of [insert_or_replace_bars] that returns has done. *)
Lemma insert_or_replace_bars_returned env table b bars (s s' : Store) :
  insert_or_replace_bars env table (b :: bars) s = (Returned (), s') →
  created (db s) = true ∧
  db s' = set_bar_rows table (sql_upsert_bars (b :: bars) (bar_rows table (db s))) (db s).
Proof.
  unfold insert_or_replace_bars, transaction, if_created.
  destruct (io_fails env (connections s)); [done|].
  destruct (created (db s)); [|done].
  intros [= <-]. done.
Qed.

Lemma bar_rows_set_bar_rows table rows (d : Database) :
  bar_rows table (set_bar_rows table rows d) = rows.
Proof. by destruct table. Qed.
End upsert.

(** C6.  In a bar table that satisfies its [UNIQUE(symbol, time)]
    constraint, two successive upserts under one key leave exactly one row
    under that key, and that row carries the values of the second write;
    the constraint still holds. *)
Theorem upsert_twice_keeps_second (env : DbEnv) (table : BarTable) (b1 b2 : Bar)
    (s s1 s2 : Store) :
  unique_keys (bar_rows table (db s)) →
  same_key b1 b2 →
  insert_or_replace_bars env table [b1] s = (Returned (), s1) →
  insert_or_replace_bars env table [b2] s1 = (Returned (), s2) →
  rows_of_key b2 (bar_rows table (db s2)) = [b2] ∧
  unique_keys (bar_rows table (db s2)).
Proof.
  intros Hu Hk H1 H2.
  apply insert_or_replace_bars_returned in H1 as [_ H1].
  apply insert_or_replace_bars_returned in H2 as [_ H2].
  rewrite H2, bar_rows_set_bar_rows, H1, bar_rows_set_bar_rows.
  unfold sql_upsert_bars. simpl.
  assert (Hu1 : unique_keys (sql_upsert_bar b1 (bar_rows table (db s))))
    by by apply sql_upsert_bar_unique.
  split.
  - by apply sql_upsert_bar_row.
  - by apply sql_upsert_bar_unique.
Qed.

Lemma upsert_twice_keeps_second_witness :
  let b1 := {| bar_time := "2024-01-01T00:00:00+00:00"; bar_symbol := "btcusdt";
               bar_open := 100 # 1; bar_high := 101 # 1; bar_low := 99 # 1;
               bar_close := 99 # 1; bar_volume := 6 # 1 |} in
  let b2 := {| bar_time := "2024-01-01T00:00:00+00:00"; bar_symbol := "btcusdt";
               bar_open := 98 # 1; bar_high := 98 # 1; bar_low := 97 # 1;
               bar_close := 97 # 1; bar_volume := 2 # 1 |} in
  let env := reliable_store 0 in
  let s1 := snd (insert_or_replace_bars env bars_1s [b1] fresh_store) in
  let s2 := snd (insert_or_replace_bars env bars_1s [b2] s1) in
  rows_of_key b2 (bar_rows bars_1s (db s2)) = [b2] ∧ bar_rows bars_1s (db s2) = [b2].
Proof.
  intros b1 b2 env s1 s2. split; [|reflexivity].
  refine (proj1 (upsert_twice_keeps_second env bars_1s b1 b2 fresh_store s1 s2 _ _ _ _)).
  - apply NoDup_nil_2.
  - split; reflexivity.
  - reflexivity.
  - reflexivity.
Defined.

(** ** The connector registries *)

Section registry.
Implicit Types (p : Process) (symbol : string).

Lemma start_stream_active env symbol p :
  symbol ∈ dom (_stream_threads p) → start_stream env symbol p = (Returned (), p).
Proof.
  intros Hin. unfold start_stream, py_bind, get_state.
  by rewrite decide_True.
Qed.

Lemma stop_stream_inactive symbol p :
  symbol ∉ dom (_stream_threads p) → stop_stream symbol p = (Returned (), p).
Proof.
  intros Hin. unfold stop_stream, py_bind, get_state.
  by rewrite decide_False.
Qed.

(** A start of a symbol that is not active either fails in
    [create_tables], before it touches the registries, or registers the
    symbol in both. *)
Lemma start_stream_inactive env symbol p :
  symbol ∉ dom (_stream_threads p) →
  let '(r, p') := start_stream env symbol p in
  (r = Returned () ∧
   dom (_stream_threads p') = {[symbol]} ∪ dom (_stream_threads p) ∧
   dom (_stop_flags p') = {[symbol]} ∪ dom (_stop_flags p)) ∨
  ((∃ e, r = Raised e) ∧
   _stream_threads p' = _stream_threads p ∧ _stop_flags p' = _stop_flags p).
Proof.
  intros Hin. unfold start_stream, py_bind, get_state.
  rewrite decide_False by done.
  unfold on_store, zoom, create_tables, transaction.
  destruct (io_fails (db_env env) (connections (store p))); simpl.
  { right. eauto. }
  unfold _ensure_flush_thread, py_bind, get_state.
  destruct (flush_alive_now _); simpl; left; rewrite !dom_insert_L; done.
Qed.

Lemma stop_stream_active symbol p :
  aligned p → symbol ∈ dom (_stream_threads p) →
  ∃ p', stop_stream symbol p = (Returned (), p') ∧
        dom (_stream_threads p') = dom (_stream_threads p) ∖ {[symbol]} ∧
        dom (_stop_flags p') = dom (_stop_flags p) ∖ {[symbol]}.
Proof.
  intros Hal Hin. unfold stop_stream, py_bind, get_state.
  rewrite decide_True by done.
  assert (Hflag : is_Some (_stop_flags p !! symbol)).
  { apply elem_of_dom. by rewrite <- Hal. }
  destruct Hflag as [ev ->]. eexists. split; [reflexivity|].
  simpl. by rewrite !dom_delete_L.
Qed.

Lemma call_aligned env c p : aligned p → aligned (snd (call env c p)).
Proof.
  intros Hal. destruct c as [symbol|symbol]; simpl.
  - destruct (decide (symbol ∈ dom (_stream_threads p))) as [Hin|Hin].
    + by rewrite start_stream_active.
    + pose proof (start_stream_inactive env symbol p Hin) as H.
      destruct (start_stream env symbol p) as [r p']. simpl.
      unfold aligned in *.
      destruct H as [(_ & -> & ->)|(_ & -> & ->)]; congruence.
  - destruct (decide (symbol ∈ dom (_stream_threads p))) as [Hin|Hin].
    + destruct (stop_stream_active symbol p Hal Hin) as (p' & -> & H1 & H2).
      simpl. unfold aligned in *. congruence.
    + by rewrite stop_stream_inactive.
Qed.

Lemma calls_aligned env cs p : aligned p → aligned (calls env cs p).
Proof.
  revert p. induction cs as [|c cs IH]; intros p Hal; simpl; [done|].
  by apply IH, call_aligned.
Qed.
End registry.

(** C10.  After any sequence of [start_stream] and [stop_stream] calls
    from the initial state, the two registries have the same keys,
    [get_status] lists exactly these keys (each once), starting an active
    symbol and stopping an inactive one return without raising and leave
    the whole state as it is, and no [stop_stream] raises. *)
Theorem registries_share_keys (env : Env) (cs : list Call) :
  let p := calls env cs initial_process in
  dom (_stream_threads p) = dom (_stop_flags p) ∧
  (∀ s, s ∈ active_symbols (get_status p) ↔ s ∈ dom (_stream_threads p)) ∧
  NoDup (active_symbols (get_status p)) ∧
  (∀ s, s ∈ dom (_stream_threads p) → start_stream env s p = (Returned (), p)) ∧
  (∀ s, s ∉ dom (_stream_threads p) → stop_stream s p = (Returned (), p)) ∧
  (∀ s, fst (stop_stream s p) = Returned ()).
Proof.
  intros p.
  assert (Hal : aligned p) by (apply calls_aligned; reflexivity).
  split_and!.
  - exact Hal.
  - intros s. unfold get_status. simpl. apply elem_of_elements.
  - unfold get_status. simpl. apply NoDup_elements.
  - intros s. apply start_stream_active.
  - intros s. apply stop_stream_inactive.
  - intros s. destruct (decide (s ∈ dom (_stream_threads p))) as [Hin|Hin].
    + by destruct (stop_stream_active s p Hal Hin) as (p' & -> & _).
    + by rewrite stop_stream_inactive.
Qed.

(** ** Reconnection waits *)

Section connector.
Implicit Types (c : Connector) (wire : Feed).

Lemma backoff_step (b : Z) (i : nat) :
  1 ≤ b →
  Z.min (Z.min (b * 2) 30 * 2 ^ Z.of_nat (S i)) 30 = Z.min (b * 2 ^ Z.of_nat (S (S i))) 30.
Proof.
  intros Hb.
  rewrite (Nat2Z.inj_succ (S i)), Z.pow_succ_r by lia.
  assert (Hp : 1 ≤ 2 ^ Z.of_nat (S i)) by (apply Z.lt_pred_le, Z.pow_pos_nonneg; lia).
  destruct (Z.le_gt_cases (b * 2) 30) as [Hle|Hgt].
  - rewrite (Z.min_l (b * 2) 30) by lia. f_equal. lia.
  - rewrite (Z.min_r (b * 2) 30) by lia.
    rewrite !Z.min_r; [done| |]; nia.
Qed.

(** While no stop is requested, every pass sleeps once, whether the
    connection returned or raised, and the n-th sleep (from 0) after a
    backoff of [b] lasts [min (b * 2^(n+1)) 30]. *)
Lemma socket_loop_waits wire (passes : nat) (b : Z) c :
  1 ≤ b →
  (∀ i, (attempts c ≤ i < attempts c + passes)%nat → stop_is_set wire i = false) →
  socket_loop wire passes b c =
    (Returned (),
     {| attempts := attempts c + passes;
        slept := slept c ++ map (λ i, Z.min (b * 2 ^ Z.of_nat (S i)) 30) (seq 0 passes) |}).
Proof.
  revert b c. induction passes as [|n IH]; intros b c Hb Hstop.
  - simpl. unfold py_ret. rewrite app_nil_r, Nat.add_0_r. by destruct c.
  - cbn [socket_loop]. unfold py_bind at 1. unfold get_state at 1.
    rewrite Hstop by lia.
    unfold py_bind at 1. unfold try_except, py_bind at 1, run_forever.
    assert (Hb' : 1 ≤ Z.min (b * 2) 30) by lia.
    assert (Hrest : ∀ c', attempts c' = S (attempts c) →
              slept c' = slept c ++ [Z.min (b * 2) 30] →
              socket_loop wire n (Z.min (b * 2) 30) c' =
                (Returned (),
                 {| attempts := attempts c + S n;
                    slept := slept c ++
                      map (λ i, Z.min (b * 2 ^ Z.of_nat (S i)) 30) (seq 0 (S n)) |})).
    { intros c' Hatt Hslept.
      rewrite (IH _ _ Hb'); [|intros i Hi; apply Hstop; lia].
      rewrite Hatt, Hslept. do 2 f_equal; [lia|].
      rewrite <- app_assoc. f_equal. cbn [seq map app].
      f_equal.
      rewrite <- seq_shift, map_map.
      apply map_ext. intros i. apply backoff_step. lia. }
    destruct (connection_raises wire (attempts c)); cbn [py_ret];
      unfold py_bind at 1, sleep at 1; apply Hrest; reflexivity.
Qed.

(** The waits of a connector whose stop is never requested: 2, 4, 8, 16,
    30, 30, ... for as many passes as one looks at. *)
Lemma start_socket_waits wire (passes : nat) :
  (∀ i, stop_is_set wire i = false) →
  _start_socket wire passes new_connector =
    (Returned (), {| attempts := passes; slept := backoff_schedule 2 passes |}).
Proof.
  intros Hstop. unfold _start_socket.
  rewrite socket_loop_waits; [|lia|intros; apply Hstop].
  cbn [attempts slept new_connector app Nat.add]. do 2 f_equal.
  unfold backoff_schedule. apply map_ext. intros i.
  rewrite Nat2Z.inj_succ, Z.pow_succ_r by lia. f_equal. lia.
Qed.
End connector.

(** C8.  The waits of the connector on a feed that always fails, over six
    passes: they begin at 2, not at 1; the schedule that begins at 1 is
    not what the code sleeps. *)
Theorem start_socket_first_wait_is_two :
  slept (snd (_start_socket dead_feed 6 new_connector)) = [2; 4; 8; 16; 30; 30] ∧
  backoff_schedule 1 6 = [1; 2; 4; 8; 16; 30] ∧
  slept (snd (_start_socket dead_feed 6 new_connector)) ≠ backoff_schedule 1 6.
Proof. split_and!; [reflexivity | reflexivity | discriminate]. Qed.

(** ** Hedge ratio *)

(** C7.  [hedge_ratio] fits the last [min (len y) (len x)] values of each
    series: both fitted arrays have that length and are the tails of the
    inputs; on lengths 10 and 7 it fits the last 7 of each.  When one of
    the series is empty it raises [ValueError] and fits nothing. *)
Theorem hedge_ratio_fits_tails (fit : Series → Series → outcome float) (y x : Series) :
  let n := Nat.min (length y) (length x) in
  (y ≠ [] → x ≠ [] →
   ∃ y_arr x_arr,
     hedge_ratio fit y x = fit y_arr x_arr ∧
     length y_arr = n ∧ length x_arr = n ∧
     y = take (length y - n) y ++ y_arr ∧
     x = take (length x - n) x ++ x_arr) ∧
  (length y = 10%nat → length x = 7%nat →
   hedge_ratio fit y x = fit (drop 3 y) x) ∧
  (n = 0%nat →
   hedge_ratio fit y x = Raised (ValueError "Not enough data to compute hedge ratio")).
Proof.
  intros n. split_and!.
  - intros Hy Hx. exists (drop (length y - n) y), (drop (length x - n) x).
    assert (Hn : n ≠ 0%nat).
    { unfold n. destruct y, x; simpl; congruence. }
    unfold hedge_ratio. fold n.
    destruct (Nat.eqb_spec n 0) as [|_]; [done|].
    rewrite !length_drop, !take_drop. unfold last_items. split_and!; [done|lia|lia|done|done].
  - intros Hy Hx. unfold hedge_ratio, last_items. rewrite Hy, Hx. simpl. done.
  - intros Hn. unfold hedge_ratio. fold n. by rewrite Hn.
Qed.

Lemma hedge_ratio_fits_tails_witness :
  let fit (y x : Series) := Returned (fsum y / fsum x)%float in
  hedge_ratio fit [8; 2; 4; 6]%float [1; 2; 3]%float = Returned 2%float ∧
  hedge_ratio fit [] [1; 2; 3]%float = Raised (ValueError "Not enough data to compute hedge ratio").
Proof.
  intros fit. split.
  - destruct (hedge_ratio_fits_tails fit [8; 2; 4; 6]%float [1; 2; 3]%float)
      as [Htail _].
    destruct Htail as (y_arr & x_arr & -> & _ & _ & Hy & Hx); [discriminate | discriminate |].
    vm_compute in Hy, Hx. injection Hy as <-. subst x_arr. reflexivity.
  - apply (hedge_ratio_fits_tails fit [] [1; 2; 3]%float). reflexivity.
Defined.

(** ** Z-score *)

Lemma lookup_map {A B} (f : A → B) (l : list A) (i : nat) :
  map f l !! i = f <$> (l !! i).
Proof. revert i. induction l as [|a l IH]; intros [|i]; simpl; auto. Qed.

(** Against C3 as stated: on the constant series [1.0, 1.0, 1.0] the
    z-score is computed without any error and is NaN at every position. *)
Lemma zscore_constant_is_silent_nan :
  let s := [1; 1; 1]%float in
  constant_series s ∧
  zscore s = Returned [nan; nan; nan] ∧
  ¬ ∃ e, zscore s = Raised e.
Proof.
  intros s. split_and!.
  - exists 1%float. split_and!; [reflexivity | discriminate | repeat constructor].
  - reflexivity.
  - intros [e He]. discriminate He.
Qed.

(** C3, as the code has it.  [zscore] raises nothing, on a constant
    series or any other: it returns a series as long as its input, and
    wherever the deviation from the mean and the standard deviation are both
    zero the value is NaN. *)
Theorem zscore_returns_unflagged (s : Series) :
  ∃ r, zscore s = Returned r ∧
       length r = length s ∧
       ∀ i x, s !! i = Some x →
              is_zero (x - mean s)%float → is_zero (std s) →
              r !! i = Some nan.
Proof.
  eexists. split; [reflexivity|]. split.
  - by rewrite length_map.
  - intros i x Hx Hdev Hsd.
    rewrite lookup_map, Hx. simpl. f_equal.
    destruct Hdev as [-> | ->], Hsd as [-> | ->]; reflexivity.
Qed.

Lemma zscore_returns_unflagged_witness :
  ∃ r, zscore [1; 1; 1]%float = Returned r ∧ r !! 2%nat = Some nan.
Proof.
  destruct (zscore_returns_unflagged [1; 1; 1]%float) as (r & Hr & _ & Hnan).
  exists r. split; [exact Hr|].
  apply (Hnan 2%nat 1%float); [reflexivity | left; reflexivity | left; reflexivity].
Defined.

(** ** Rolling correlation *)

Section rolling.
Context (mean_of var_of : Series → float).
Implicit Types (x y : Series).

Lemma sub_nan_l (a : float) : (nan - a)%float = nan.
Proof.
  apply Prim2SF_inj. rewrite sub_spec.
  change (Prim2SF nan) with S754_nan. reflexivity.
Qed.

Lemma mul_nan_l (a : float) : (nan * a)%float = nan.
Proof.
  apply Prim2SF_inj. rewrite mul_spec.
  change (Prim2SF nan) with S754_nan. reflexivity.
Qed.

Lemma div_nan_l (a : float) : (nan / a)%float = nan.
Proof.
  apply Prim2SF_inj. rewrite div_spec.
  change (Prim2SF nan) with S754_nan. reflexivity.
Qed.

Lemma window_at_length (window i : nat) x :
  (length (window_at window i x) ≤ S i)%nat.
Proof. unfold window_at. rewrite length_drop, length_take. lia. Qed.

Lemma notna_length x : (length (notna x) ≤ length x)%nat.
Proof. apply List.filter_length_le. Qed.

(** A rolling mean over fewer values than [min_periods] is NaN. *)
Lemma roll_mean_short (minp : nat) x :
  (length x < minp)%nat → roll_mean mean_of minp x = nan.
Proof.
  intros Hlen. unfold roll_mean. pose proof (notna_length x).
  destruct (Nat.leb_spec minp (length (notna x))); [lia | done].
Qed.

(** Before a whole window is there the correlation is NaN. *)
Lemma corr_at_short (window i : nat) x y :
  (S i < window)%nat → corr_at mean_of var_of window i x y = nan.
Proof.
  intros Hi. unfold corr_at.
  rewrite (roll_mean_short window (zip_with PrimFloat.mul _ _)).
  - by rewrite sub_nan_l, mul_nan_l, div_nan_l.
  - rewrite length_zip_with. pose proof (window_at_length window i x). lia.
Qed.
End rolling.

(** Against C9 as stated.  The series [1e9, 1e9 + 1] with a window of two:
    the second position is defined, and the rolling correlation of the
    series with itself is 0.0 there, not 1.0.  The squares of the values
    are beyond 2^53 and are rounded, the mean of the products and the
    product of the means round to the same number, and the covariance comes
    out as zero while the variance is 0.5; every operation on the way, but
    for these roundings, is exact, whatever the order of the additions. *)
Lemma rolling_corr_self_is_not_one :
  let s := [1000000000; 1000000001]%float in
  rolling_corr plain_mean plain_var s s 2 = [nan; 0%float] ∧
  plain_var s = 0.5%float ∧
  ∃ v, rolling_corr plain_mean plain_var s s 2 !! 1%nat = Some v ∧
       PrimFloat.is_nan v = false ∧ v ≠ 1%float.
Proof.
  intros s. split; [reflexivity|]. split; [reflexivity|].
  exists 0%float. split_and!; [reflexivity | reflexivity | discriminate].
Qed.

(** C9, as the code has it.  For a window of one position or more, the
    rolling correlation of a series with itself has the length of the
    series and is undefined (NaN) at the first [window - 1] positions,
    whatever the values and however the means and variances of the windows
    are computed. *)
Theorem rolling_corr_starts_undefined (mean_of var_of : Series → float) (s : Series)
    (window : nat) :
  (0 < window)%nat →
  length (rolling_corr mean_of var_of s s window) = length s ∧
  ∀ i, (i < length s)%nat → (S i < window)%nat →
       rolling_corr mean_of var_of s s window !! i = Some nan.
Proof.
  intros _. unfold rolling_corr, prep_binary. split.
  - rewrite length_map, length_seq, length_zip_with. lia.
  - intros i Hi Hw. rewrite lookup_map.
    rewrite lookup_seq_lt by (rewrite length_zip_with; lia).
    simpl. f_equal. by apply corr_at_short.
Qed.

Lemma rolling_corr_starts_undefined_witness :
  let s := [100; 101; 103; 102]%float in
  rolling_corr plain_mean plain_var s s 3 !! 1%nat = Some nan.
Proof.
  intros s.
  destruct (rolling_corr_starts_undefined plain_mean plain_var s 3) as [_ H]; [lia|].
  apply H; simpl; lia.
Defined.

(** ** Pruning *)

Section prune.
Local Open Scope string_scope.

Lemma ascii_compare_refl (a : ascii) : Ascii.compare a a = Eq.
Proof. unfold Ascii.compare. apply N.compare_refl. Qed.

Lemma compare_common_prefix (d a b : string) :
  String.compare (d ++ a) (d ++ b) = String.compare a b.
Proof. induction d as [|c d IH]; simpl; [done|]. by rewrite ascii_compare_refl. Qed.

Lemma compare_distinct_prefix (d1 d2 a b : string) :
  String.length d1 = String.length d2 → d1 ≠ d2 →
  String.compare (d1 ++ a) (d2 ++ b) = String.compare d1 d2.
Proof.
  revert d2. induction d1 as [|c1 d1 IH]; intros [|c2 d2] Hlen Hne; simpl in *;
    try done.
  destruct (Ascii.compare c1 c2) eqn:Hc; try done.
  apply Ascii.compare_eq_iff in Hc. subst c2.
  apply IH; [lia | congruence].
Qed.

Lemma string_length_app (a b : string) :
  String.length (a ++ b) = (String.length a + String.length b)%nat.
Proof. induction a as [|c a IH]; simpl; [done|]. by rewrite IH. Qed.

Lemma decimal_length (width : nat) (n : Z) : String.length (decimal width n) = width.
Proof. induction width as [|w IH]; simpl; [done|]. by rewrite IH. Qed.

Lemma date_text_length (secs : Z) : String.length (date_text secs) = 10%nat.
Proof.
  unfold date_text. destruct (civil_from_days _) as [[y m] d].
  rewrite !string_length_app, !decimal_length. done.
Qed.

Lemma string_compare_refl (a : string) : String.compare a a = Eq.
Proof. induction a as [|c a IH]; simpl; [done|]. by rewrite ascii_compare_refl. Qed.

(** An ISO text against a text of SQLite: on the same date the ["T"] of
    the first is above the [" "] of the second, whatever follows. *)
Lemma ltb_T_space (d1 d2 r1 r2 : string) :
  String.length d1 = String.length d2 →
  String.ltb (d1 ++ "T" ++ r1) (d2 ++ " " ++ r2) = String.ltb d1 d2.
Proof.
  intros Hlen. unfold String.ltb.
  destruct (decide (d1 = d2)) as [->|Hne].
  - rewrite compare_common_prefix, string_compare_refl. reflexivity.
  - by rewrite compare_distinct_prefix.
Qed.

(** The comparison that [DELETE FROM ticks WHERE time < datetime(...)]
    makes between a stored ISO text and SQLite's text only looks at the
    calendar dates. *)
Lemma iso_before_sqlite (ms cutoff : Z) :
  String.ltb (isoformat ms) (sqlite_datetime cutoff) =
  String.ltb (date_text (ms / 1000)) (date_text (cutoff / 1000)).
Proof.
  unfold isoformat, sqlite_datetime. cbv zeta.
  apply ltb_T_space. by rewrite !date_text_length.
Qed.

(** What pruning does to ticks that [insert_ticks_bulk] stored: it deletes
    those of a calendar day before the day of the cutoff, and no other. *)
Lemma prune_deletes_by_calendar_day (now : Z) (hours : N) (batch : list Tick) :
  let cutoff := now - Z.of_N hours * 3600000 in
  sql_delete_ticks_before (sqlite_datetime_hours_before now hours) (map tick_row batch) =
  map tick_row
    (filter (λ t, ¬ text_lt (date_text (tick_time t / 1000)) (date_text (cutoff / 1000))) batch).
Proof.
  intros cutoff. unfold sql_delete_ticks_before, sqlite_datetime_hours_before. fold cutoff.
  induction batch as [|t batch IH]; [reflexivity|].
  cbn [map]. rewrite !filter_cons, IH.
  assert (Hiff : text_lt (row_time (tick_row t)) (sqlite_datetime cutoff) ↔
                 text_lt (date_text (tick_time t / 1000)) (date_text (cutoff / 1000))).
  { unfold text_lt. cbn [tick_row row_time]. rewrite iso_before_sqlite. tauto. }
  destruct (decide (¬ text_lt (row_time (tick_row t)) (sqlite_datetime cutoff))) as [H1|H1];
    destruct (decide (¬ text_lt (date_text (tick_time t / 1000)) (date_text (cutoff / 1000))))
      as [H2|H2]; try reflexivity; exfalso; tauto.
Qed.

(** Pruning never touches a bar table. *)
Lemma prune_keeps_bars (env : DbEnv) (hours : option N) (s : Store) (table : BarTable) :
  bar_rows table (db (snd (prune_ticks_older_than env hours s))) = bar_rows table (db s).
Proof.
  unfold prune_ticks_older_than, transaction, if_created.
  destruct hours as [h|]; [|done].
  destruct (io_fails env (connections s)); [done|].
  destruct (created (db s)); [|done].
  by destruct table.
Qed.
End prune.

(** C2, on the code.  At 2024-01-01 20:00:00 UTC, with a tick ten hours
    old and a tick one hour old in the store, pruning with
    [retention_hours = 6] deletes nothing: the ten hours old tick, of the
    same calendar day as the cutoff, is still there. *)
Theorem prune_keeps_old_tick_of_same_day :
  let now := 1704139200000 in
  let old := {| tick_time := now - 10 * 3600000; tick_symbol := "btcusdt";
                tick_price := 100 # 1; tick_qty := 1 # 1 |} in
  let recent := {| tick_time := now - 1 * 3600000; tick_symbol := "btcusdt";
                   tick_price := 101 # 1; tick_qty := 1 # 1 |} in
  let env := reliable_store now in
  let stored := snd (insert_ticks_bulk env [old; recent] fresh_store) in
  let pruned := prune_ticks_older_than env (Some 6%N) stored in
  isoformat now = "2024-01-01T20:00:00+00:00" ∧
  map row_time (ticks (db stored)) = ["2024-01-01T10:00:00+00:00"; "2024-01-01T19:00:00+00:00"] ∧
  sqlite_datetime_hours_before now 6 = "2024-01-01 14:00:00" ∧
  fst pruned = Returned () ∧
  ticks (db (snd pruned)) = [tick_row old; tick_row recent].
Proof. vm_compute. split_and!; reflexivity. Qed.

(** ** The flush loop and persistence failures *)

Section flusher.
Context (float_sum : list Q → Q) (env : Env).
Implicit Types (s : Store) (p : Process).

Lemma store_discipline_ret {A} (a : A) : store_discipline (db_env env) (py_ret a).
Proof. intros s Hcr. unfold py_ret. simpl. split_and!; [lia | done | intros; lia | done]. Qed.

Lemma store_discipline_raise {A} (msg : string) :
  store_discipline (db_env env) (raise (A := A) (ValueError msg)).
Proof.
  intros s Hcr. unfold raise. simpl.
  split_and!; [lia | done | intros; lia | right; by eexists].
Qed.

Lemma disciplined_seq {A B} s (a : A) s1 (r2 : outcome B) s2 :
  disciplined (db_env env) s (Returned a) s1 →
  disciplined (db_env env) s1 r2 s2 →
  disciplined (db_env env) s r2 s2.
Proof.
  intros (Hle & Hcr1 & Hfail & _) (Hle2 & Hcr2 & Hfail2 & Hr2).
  split_and!; [lia | done | |].
  - intros n Hn Hio. destruct (decide (n < connections s1)%nat) as [Hlt|Hge].
    + destruct (Hfail n) as [_ Habs]; [lia | done | discriminate Habs].
    + apply Hfail2; [lia | done].
  - destruct r2 as [b|e]; [done|].
    destruct Hr2 as [(He & n & Hn & Hle' & Hio) | Hv]; [|by right].
    left. split; [done|]. exists n. split_and!; [done | lia | done].
Qed.

Lemma disciplined_raised {A B} s (e : exn) s' :
  disciplined (A := A) (db_env env) s (Raised e) s' →
  disciplined (A := B) (db_env env) s (Raised e) s'.
Proof.
  intros (Hle & Hcr & Hfail & He). split_and!; [done | done | | done].
  intros n Hn Hio. destruct (Hfail n Hn Hio) as [Hlast [= ->]]. done.
Qed.

Lemma store_discipline_bind {A B} (c : Py Store A) (k : A → Py Store B) :
  store_discipline (db_env env) c →
  (∀ a, store_discipline (db_env env) (k a)) →
  store_discipline (db_env env) (py_bind c k).
Proof.
  intros Hc Hk s Hcr. unfold py_bind. specialize (Hc s Hcr).
  destruct (c s) as [[a|e] s1]; [|by apply (disciplined_raised (A := A))]. simpl in Hc.
  eapply disciplined_seq; [exact Hc|]. apply Hk. by destruct Hc as (_ & ? & _).
Qed.

Lemma store_discipline_for_each {A} (l : list A) (body : A → Py Store unit) :
  (∀ a, store_discipline (db_env env) (body a)) →
  store_discipline (db_env env) (for_each l body).
Proof.
  intros Hbody. induction l as [|a l IH]; simpl.
  - apply store_discipline_ret.
  - apply store_discipline_bind; auto.
Qed.

Lemma store_discipline_transaction (stmt : Z → Database → option Database) :
  (∀ now d, created d = true → ∃ d', stmt now d = Some d' ∧ created d' = true) →
  store_discipline (db_env env) (transaction (db_env env) stmt).
Proof.
  intros Hsome s Hcr. unfold transaction.
  destruct (io_fails (db_env env) (connections s)) eqn:Hio; simpl.
  - unfold disciplined. simpl. split_and!; [lia | done | |].
    + intros n Hn _. split; [f_equal; lia | done].
    + left. split; [done|]. exists (connections s). done.
  - destruct (Hsome (sqlite_now (db_env env) (connections s)) (db s) Hcr) as (d' & -> & Hcr').
    unfold disciplined. simpl. split_and!; [lia | done | | done].
    intros n Hn Hio'. assert (n = connections s) as -> by lia. congruence.
Qed.

Lemma store_discipline_if_created (f : Z → Database → Database) :
  (∀ now d, created (f now d) = created d) →
  store_discipline (db_env env) (transaction (db_env env) (λ now, if_created (f now))).
Proof.
  intros Hf. apply store_discipline_transaction. unfold if_created.
  intros now d Hcr. rewrite Hcr. eexists. split; [done|]. by rewrite Hf.
Qed.

Lemma create_tables_discipline : store_discipline (db_env env) (create_tables (db_env env)).
Proof.
  apply store_discipline_transaction. intros _ d _. eexists. split; done.
Qed.

Lemma insert_ticks_bulk_discipline (batch : list Tick) :
  store_discipline (db_env env) (insert_ticks_bulk (db_env env) batch).
Proof.
  destruct batch as [|t batch]; [apply store_discipline_ret|].
  apply (store_discipline_if_created (λ _ d, set_ticks _ d)). done.
Qed.

Lemma insert_or_replace_bars_discipline (table : BarTable) (bars : list Bar) :
  store_discipline (db_env env) (insert_or_replace_bars (db_env env) table bars).
Proof.
  destruct bars as [|b bars]; [apply store_discipline_ret|].
  apply (store_discipline_if_created (λ _ d, set_bar_rows table _ d)).
  intros _ d. by destruct table.
Qed.

Lemma aggregate_and_store_bars_discipline (batch : list Tick) :
  store_discipline (db_env env) (_aggregate_and_store_bars float_sum (db_env env) batch).
Proof.
  destruct batch as [|t batch]; [apply store_discipline_ret|].
  unfold _aggregate_and_store_bars.
  destruct (to_datetime (t :: batch)) as [df|e] eqn:Hparse.
  - apply store_discipline_for_each. intros tf.
    destruct (grouped float_sum tf df); [apply store_discipline_ret|].
    apply insert_or_replace_bars_discipline.
  - unfold to_datetime in Hparse.
    repeat (destruct (negb _) in Hparse; [injection Hparse as <-; apply store_discipline_raise|]).
    discriminate Hparse.
Qed.

Lemma prune_discipline (hours : option N) :
  store_discipline (db_env env) (prune_ticks_older_than (db_env env) hours).
Proof.
  destruct hours as [h|]; [|apply store_discipline_ret].
  apply (store_discipline_if_created (λ now d, set_ticks _ d)). done.
Qed.

Lemma flusher_discipline_ret {A} (a : A) : flusher_discipline env (py_ret a).
Proof. intros p Hcr. unfold py_ret. simpl. split_and!; [lia | done | intros; lia | done]. Qed.

Lemma flusher_discipline_bind {A B} (c : Py Process A) (k : A → Py Process B) :
  flusher_discipline env c →
  (∀ a, flusher_discipline env (k a)) →
  flusher_discipline env (py_bind c k).
Proof.
  intros Hc Hk p Hcr. unfold py_bind. specialize (Hc p Hcr).
  destruct (c p) as [[a|e] p1]; [|by apply (disciplined_raised (A := A))]. simpl in Hc.
  eapply disciplined_seq; [exact Hc|]. apply Hk. by destruct Hc as (_ & ? & _).
Qed.

Lemma flusher_discipline_on_store {A} (c : Py Store A) :
  store_discipline (db_env env) c → flusher_discipline env (on_store c).
Proof.
  intros Hc p Hcr. unfold on_store, zoom. specialize (Hc (store p) Hcr).
  by destruct (c (store p)) as [r s'].
Qed.

(** A step that returns and leaves the store alone. *)
Lemma flusher_discipline_quiet {A} (c : Py Process A) :
  (∀ p, ∃ a p', c p = (Returned a, p') ∧ store p' = store p) →
  flusher_discipline env c.
Proof.
  intros Hc p Hcr. destruct (Hc p) as (a & p' & -> & Hst). simpl. rewrite Hst.
  split_and!; [lia | done | intros; lia | done].
Qed.

Lemma time_quiet p : ∃ a p', time_ env p = (Returned a, p') ∧ store p' = store p.
Proof. unfold time_. eauto. Qed.

(** [get] gives an item or raises [queue.Empty], nothing else. *)
Lemma queue_get_cases p :
  ∃ p', store p' = store p ∧
        (queue_get env p = (Raised QueueEmpty, p') ∨
         ∃ item, queue_get env p = (Returned item, p')).
Proof.
  unfold queue_get, py_bind, get_state, set_state, deliver, on_queue, zoom, get_nowait.
  destruct (feed _ _) as [r q]. simpl.
  destruct (items q) as [|x rest]; eexists; (split; [|eauto]); done.
Qed.

Lemma drain_quiet (room : nat) (flush_interval start : Q) (batch : list Tick) p :
  ∃ b p', drain env room flush_interval start batch p = (Returned b, p') ∧
          store p' = store p.
Proof.
  revert batch p. induction room as [|room IH]; intros batch p; simpl.
  - unfold py_ret. eauto.
  - unfold py_bind at 1. unfold time_ at 1.
    destruct (Qlt_bool _ _); [|unfold py_ret; eauto].
    unfold py_bind at 1, try_except, py_bind at 1.
    destruct (queue_get_cases (set_clock_reads (S (clock_reads p)) p))
      as (p1 & Hst & [Hget | [item Hget]]); rewrite Hget.
    + unfold py_ret. eauto.
    + unfold py_ret at 1.
      destruct (IH (batch ++ [item]) p1) as (b & p' & Hd & Hst').
      exists b, p'. split; [exact Hd|]. by rewrite Hst', Hst.
Qed.

Lemma flush_cycle_discipline (batch_size : nat) (flush_interval : Q)
    (retention_hours : option N) (last_prune : Q) :
  flusher_discipline env
    (flush_cycle float_sum env batch_size flush_interval retention_hours last_prune).
Proof.
  unfold flush_cycle.
  apply flusher_discipline_bind; [apply flusher_discipline_quiet, time_quiet|].
  intros start.
  apply flusher_discipline_bind; [apply flusher_discipline_quiet, drain_quiet|].
  intros batch. apply flusher_discipline_bind.
  - destruct batch as [|t batch]; [apply flusher_discipline_ret|].
    apply flusher_discipline_bind.
    + apply flusher_discipline_on_store, insert_ticks_bulk_discipline.
    + intros _. apply flusher_discipline_on_store, aggregate_and_store_bars_discipline.
  - intros _. destruct (truthy retention_hours); [|apply flusher_discipline_ret].
    apply flusher_discipline_bind; [apply flusher_discipline_quiet, time_quiet|].
    intros now. destruct (Qlt_bool _ _); [|apply flusher_discipline_ret].
    apply flusher_discipline_bind.
    + apply flusher_discipline_on_store, prune_discipline.
    + intros _. apply flusher_discipline_quiet, time_quiet.
Qed.

(** The tables stay in place over whole cycles. *)
Lemma after_cycles_created (batch_size : nat) (flush_interval : Q)
    (retention_hours : option N) (k : nat) (lp lp_k : Q) p p_k :
  after_cycles float_sum env batch_size flush_interval retention_hours k lp p
    = Some (lp_k, p_k) →
  created (db (store p)) = true → created (db (store p_k)) = true.
Proof.
  revert lp p. induction k as [|k IH]; intros lp p; simpl.
  - by intros [= _ <-].
  - intros Hafter Hcr.
    pose proof (flush_cycle_discipline batch_size flush_interval retention_hours lp p Hcr)
      as Hd.
    destruct (flush_cycle _ _ _ _ _ _ p) as [[lp'|e] p1]; [|done].
    destruct Hd as (_ & Hcr' & _). eapply IH; eauto.
Qed.

(** The loop over [k + n] turns is the loop over [n] turns from the state
    after [k] whole cycles. *)
Lemma flush_cycles_after (batch_size : nat) (flush_interval : Q)
    (retention_hours : option N) (k n : nat) (lp lp_k : Q) p p_k :
  after_cycles float_sum env batch_size flush_interval retention_hours k lp p
    = Some (lp_k, p_k) →
  flush_cycles float_sum env batch_size flush_interval retention_hours (k + n) lp p =
  flush_cycles float_sum env batch_size flush_interval retention_hours n lp_k p_k.
Proof.
  revert lp p. induction k as [|k IH]; intros lp p; simpl.
  - by intros [= <- <-].
  - unfold py_bind at 1.
    destruct (flush_cycle _ _ _ _ _ _ p) as [[lp'|e] p1]; [|done].
    apply IH.
Qed.

(** A thread whose target raises is not alive afterwards. *)
Lemma run_thread_raised (t : nat) (body : Py Process unit) p e p' :
  body p = (Raised e, p') → is_alive t (snd (run_thread t body p)) = false.
Proof.
  intros Hb. unfold run_thread. rewrite Hb. unfold is_alive. simpl.
  rewrite list_lookup_alter_eq. by destruct (threads p' !! t).
Qed.
End flusher.

(** Against C1 as stated.  The flush loop in [locked_once], watched for
    three turns: the first cycle stores its tick, the second raises out of
    the loop when the store is locked, its tick is neither stored nor
    queued any more, the third never runs (no further [get], no further
    connection), and the flush thread is dead. *)
Lemma flush_loop_dies_when_store_locked :
  let r := _flush_loop exact_sum locked_once 200 (1 # 1) (Some 6%N) 3 initial_process in
  let started := snd (_ensure_flush_thread 200 (1 # 1) (Some 6%N) initial_process) in
  let p := snd (run_flush_thread exact_sum locked_once 3 started) in
  fst r = Raised (OperationalError "database is locked") ∧
  (¬ ∃ p', r = (Returned (), p')) ∧
  map row_time (ticks (db (store (snd r)))) = ["2024-01-01T19:59:59+00:00"] ∧
  items (tick_queue (snd r)) = [] ∧
  gets (snd r) = 4%nat ∧
  connections (store (snd r)) = 6%nat ∧
  flush_alive (get_status started) = true ∧
  flush_alive (get_status p) = false.
Proof.
  vm_compute. split_and!; try reflexivity.
  intros [p' Hp']. discriminate Hp'.
Qed.

(** C1, as the code has it.  From a store whose tables exist, let [k]
    cycles of the flush loop go by.  If a persistence call of the next
    cycle fails, that is, if a connection that the cycle opens fails, the
    loop does not absorb it: the cycle raises SQLite's error at that call,
    the failed connection is the last one opened (the rest of the cycle is
    skipped, nothing is retried), the loop ends there with that error in
    the same state however many turns one watches (no further cycle runs),
    and a thread that runs it is dead. *)
Theorem flush_loop_ends_at_failed_cycle (float_sum : list Q → Q) (env : Env)
    (batch_size : nat) (flush_interval : Q) (retention_hours : option N)
    (k : nat) (lp lp_k : Q) (p p_k : Process) (n : nat) :
  created (db (store p)) = true →
  after_cycles float_sum env batch_size flush_interval retention_hours k lp p
    = Some (lp_k, p_k) →
  let r := flush_cycle float_sum env batch_size flush_interval retention_hours lp_k p_k in
  (connections (store p_k) ≤ n < connections (store (snd r)))%nat →
  io_fails (db_env env) n = true →
  fst r = Raised (OperationalError "database is locked") ∧
  connections (store (snd r)) = S n ∧
  ∀ m t,
    flush_cycles float_sum env batch_size flush_interval retention_hours (k + S m) lp p
      = (Raised (OperationalError "database is locked"), snd r) ∧
    is_alive t (snd (run_thread t
      (flush_cycles float_sum env batch_size flush_interval retention_hours (k + S m) lp) p))
      = false.
Proof.
  intros Hcr Hafter r Hn Hio.
  pose proof (after_cycles_created float_sum env _ _ _ _ _ _ _ _ Hafter Hcr) as Hcr_k.
  pose proof (flush_cycle_discipline float_sum env batch_size flush_interval
                retention_hours lp_k p_k Hcr_k) as (_ & _ & Hfail & _).
  destruct (Hfail n Hn Hio) as [Hlast Hr]. fold r in Hr, Hlast.
  split; [exact Hr|]. split; [done|].
  intros m t.
  assert (Hloop : flush_cycles float_sum env batch_size flush_interval retention_hours
                    (k + S m) lp p = (Raised locked, snd r)).
  { rewrite (flush_cycles_after float_sum env _ _ _ _ _ _ _ _ _ Hafter).
    simpl. unfold py_bind. fold r. destruct r as [r1 r2]. simpl in *. by rewrite Hr. }
  split; [exact Hloop|]. by eapply run_thread_raised.
Qed.

Lemma flush_loop_ends_at_failed_cycle_witness :
  ∃ p', flush_cycles exact_sum locked_once 200 (1 # 1) (Some 6%N) 3 (0 # 1) flusher_started
          = (Raised (OperationalError "database is locked"), p') ∧
        connections (store p') = 6%nat.
Proof.
  assert (Hcr : created (db (store flusher_started)) = true) by reflexivity.
  destruct (after_cycles exact_sum locked_once 200 (1 # 1) (Some 6%N) 1 (0 # 1)
              flusher_started) as [[lp_k p_k]|] eqn:Hafter;
    [|vm_compute in Hafter; discriminate Hafter].
  destruct (flush_loop_ends_at_failed_cycle exact_sum locked_once 200 (1 # 1) (Some 6%N)
              1 (0 # 1) lp_k flusher_started p_k 5 Hcr Hafter) as (_ & Hconn & Hloop).
  - vm_compute in Hafter. injection Hafter as <- <-. vm_compute. lia.
  - reflexivity.
  - eexists. split; [exact (proj1 (Hloop 1%nat 0%nat)) | exact Hconn].
Defined.

(** ** Bars *)

Section aggregation.
Implicit Types (t u : Tick) (l : list Tick) (xs : list Q).

Lemma insert_by_time_perm t l : insert_by_time t l ≡ₚ t :: l.
Proof.
  induction l as [|u l IH]; simpl; [done|].
  destruct (tick_time u <? tick_time t); [|done].
  rewrite IH. apply Permutation_swap.
Qed.

Lemma sort_by_time_perm l : sort_by_time l ≡ₚ l.
Proof.
  induction l as [|t l IH]; simpl; [done|].
  by rewrite insert_by_time_perm, IH.
Qed.

Lemma insert_by_time_sorted t l :
  StronglySorted time_le l → StronglySorted time_le (insert_by_time t l).
Proof.
  induction l as [|u l IH]; simpl; intros Hs.
  - repeat constructor.
  - apply StronglySorted_cons in Hs as [Hu Hs].
    destruct (Z.ltb_spec (tick_time u) (tick_time t)) as [Hlt|Hge].
    + apply StronglySorted_cons. split; [|by apply IH].
      rewrite insert_by_time_perm. constructor; [unfold time_le; lia | done].
    + apply StronglySorted_cons. split; [|by apply StronglySorted_cons].
      constructor; [done|].
      eapply Forall_impl; [exact Hu|]. unfold time_le. intros v Hv. lia.
Qed.

Lemma sort_by_time_sorted l : StronglySorted time_le (sort_by_time l).
Proof.
  induction l as [|t l IH]; simpl; [constructor|].
  by apply insert_by_time_sorted.
Qed.

Lemma filter_sorted (P : Tick → Prop) `{!∀ t, Decision (P t)} l :
  StronglySorted time_le l → StronglySorted time_le (filter P l).
Proof.
  induction l as [|t l IH]; intros Hs; [constructor|].
  apply StronglySorted_cons in Hs as [Ht Hs]. rewrite filter_cons.
  case_decide; [|by apply IH].
  apply StronglySorted_cons. split; [|by apply IH].
  apply Forall_forall. intros u Hu. apply list_elem_of_filter in Hu as [_ Hu].
  by eapply Forall_forall in Ht.
Qed.

Lemma sorted_head_least t l :
  StronglySorted time_le l → head l = Some t → ∀ u, u ∈ l → time_le t u.
Proof.
  intros Hs Hh u Hu. destruct l as [|t' l]; [done|]. injection Hh as ->.
  apply StronglySorted_cons in Hs as [Ht _].
  apply elem_of_cons in Hu as [->|Hu]; [unfold time_le; lia|].
  by eapply Forall_forall in Ht.
Qed.

Lemma sorted_last_greatest t l :
  StronglySorted time_le l → last l = Some t → ∀ u, u ∈ l → time_le u t.
Proof.
  intros Hs Hl u Hu. apply last_Some in Hl as [l' ->].
  apply StronglySorted_app in Hs as (Hcross & _ & _).
  apply elem_of_app in Hu as [Hu|Hu].
  - apply Hcross; [done | left].
  - apply list_elem_of_singleton in Hu as ->. unfold time_le. lia.
Qed.

Lemma head_map {A B} (f : A → B) (l : list A) : head (map f l) = f <$> head l.
Proof. by destruct l. Qed.

Lemma last_map {A B} (f : A → B) (l : list A) : last (map f l) = f <$> last l.
Proof.
  induction l as [|a l IH]; [done|].
  destruct l as [|b l]; [done|]. exact IH.
Qed.

Lemma elem_of_map {A B} (f : A → B) (l : list A) (y : B) :
  y ∈ map f l ↔ ∃ x, y = f x ∧ x ∈ l.
Proof.
  rewrite list_elem_of_In, in_map_iff. split.
  - intros (x & <- & Hx). exists x. by rewrite list_elem_of_In.
  - intros (x & -> & Hx). exists x. by rewrite <- list_elem_of_In.
Qed.





Lemma insert_by_time_least t l :
  Forall (λ u, tick_time t ≤ tick_time u) l → insert_by_time t l = t :: l.
Proof.
  destruct l as [|u l]; [done|]. intros Hall%Forall_cons_1. destruct Hall as [Hu _].
  simpl. destruct (Z.ltb_spec (tick_time u) (tick_time t)); [lia | done].
Qed.

(** The stable sort commutes with a selection of rows. *)
Lemma filter_insert_by_time (P : Tick → Prop) `{!∀ t, Decision (P t)} t l :
  StronglySorted time_le l →
  filter P (insert_by_time t l) =
    if decide (P t) then insert_by_time t (filter P l) else filter P l.
Proof.
  induction l as [|u l IH]; intros Hs.
  - simpl. rewrite filter_cons, filter_nil. by case_decide.
  - apply StronglySorted_cons in Hs as [Hu Hs]. simpl.
    destruct (Z.ltb_spec (tick_time u) (tick_time t)) as [Hlt|Hge].
    + rewrite !filter_cons, (IH Hs).
      destruct (decide (P u)), (decide (P t)); try done.
      simpl. destruct (Z.ltb_spec (tick_time u) (tick_time t)); [done | lia].
    + rewrite filter_cons. destruct (decide (P t)); [|done].
      rewrite insert_by_time_least; [done|].
      apply Forall_forall. intros v Hv. apply list_elem_of_filter in Hv as [_ Hv].
      apply elem_of_cons in Hv as [->|Hv]; [done|].
      eapply Forall_forall in Hu; [|exact Hv]. unfold time_le in Hu. lia.
Qed.

Lemma filter_sort_by_time (P : Tick → Prop) `{!∀ t, Decision (P t)} l :
  filter P (sort_by_time l) = sort_by_time (filter P l).
Proof.
  induction l as [|t l IH]; [done|]. simpl.
  rewrite filter_insert_by_time by apply sort_by_time_sorted.
  rewrite filter_cons. case_decide; [|done]. simpl. by rewrite IH.
Qed.
End aggregation.

Section bars.
Context (float_sum : list Q → Q).
Implicit Types (t u : Tick) (l : list Tick) (bar : Bar).



Lemma pandas_years_in_bounds (ms : Z) : pandas_years ms → in_timestamp_bounds ms = true.
Proof.
  unfold pandas_years, in_timestamp_bounds, timestamp_min, timestamp_max. intros H.
  apply andb_true_iff. split; apply Z.leb_le; lia.
Qed.

Lemma forallb_in_bounds l :
  Forall (λ t, pandas_years (tick_time t)) l →
  forallb (λ t, in_timestamp_bounds (tick_time t)) l = true.
Proof.
  intros Hall. apply forallb_forall. intros t Ht%list_elem_of_In.
  apply pandas_years_in_bounds. by eapply Forall_forall in Hall.
Qed.

(** When [to_datetime] returns, it returns the rows it was given, which
    are then of one format and in the bounds of a [Timestamp]. *)
Lemma to_datetime_returned (batch df : list Tick) :
  to_datetime batch = Returned df →
  df = batch ∧
  Forall (λ t, in_timestamp_bounds (tick_time t) = true) batch ∧
  ∀ t u, t ∈ batch → u ∈ batch →
         has_fraction (tick_time t) = has_fraction (tick_time u).
Proof.
  destruct batch as [|t0 batch]; [intros [= <-]; split_and!; [done | done | ]|].
  { intros t u Ht. by apply elem_of_nil in Ht. }
  unfold to_datetime.
  destruct (forallb (λ t, in_timestamp_bounds (tick_time t)) (t0 :: batch)) eqn:Hb;
    [|done].
  destruct (forallb (same_format t0) (t0 :: batch)) eqn:Hf; [|done].
  simpl. intros [= <-]. split; [done|].
  rewrite forallb_forall in Hb, Hf. split.
  - apply Forall_forall. intros t Ht. apply Hb. by apply list_elem_of_In.
  - assert (Hall : ∀ t, t ∈ t0 :: batch →
                        has_fraction (tick_time t) = has_fraction (tick_time t0)).
    { intros t Ht. apply list_elem_of_In, Hf in Ht. unfold same_format in Ht.
      by apply Bool.eqb_prop in Ht. }
    intros t u Ht Hu. by rewrite (Hall t Ht), (Hall u Hu).
Qed.


End bars.



(** * Further properties of the store *)

Section store_writes.
Implicit Types (s : Store) (b r : Bar) (rows bars : list Bar).

Lemma sql_upsert_bars_app bars1 bars2 rows :
  sql_upsert_bars (bars1 ++ bars2) rows = sql_upsert_bars bars2 (sql_upsert_bars bars1 rows).
Proof. unfold sql_upsert_bars. apply fold_left_app. Qed.

Lemma sql_upsert_bars_others bars r rows :
  (∀ b, b ∈ bars → ¬ same_key r b) →
  rows_of_key r (sql_upsert_bars bars rows) = rows_of_key r rows.
Proof.
  revert rows. induction bars as [|b bars IH]; intros rows Hne; [done|].
  unfold sql_upsert_bars in *. simpl. rewrite IH.
  - apply sql_upsert_bar_others, Hne. left.
  - intros b' Hb'. apply Hne. by right.
Qed.

Lemma sql_upsert_bars_keys_prefix bars rows :
  map bar_key rows `prefix_of` map bar_key (sql_upsert_bars bars rows).
Proof.
  revert rows. induction bars as [|b bars IH]; intros rows; [done|].
  unfold sql_upsert_bars in *. simpl. etrans; [|apply IH].
  rewrite sql_upsert_bar_keys. case_decide; [done|]. by apply prefix_app_r.
Qed.

Lemma bar_rows_set_bar_rows_ne table table' rows (d : Database) :
  table' ≠ table → bar_rows table' (set_bar_rows table rows d) = bar_rows table' d.
Proof. by destruct table, table'. Qed.

Lemma ticks_set_bar_rows table rows (d : Database) : ticks (set_bar_rows table rows d) = ticks d.
Proof. by destruct table. Qed.
End store_writes.

(** X1.  Pruning a store whose ticks were written by [insert_ticks_bulk]
    (their instants are of the years that a Python [datetime] holds), with
    a number of hours that leaves the cutoff ([now] minus the hours) in the
    years 0000 to 9999: when the connection succeeds, the ticks that are
    left are those whose UTC calendar date is not before the date of the
    cutoff, whatever their time of day. *)
Theorem prune_goes_by_calendar_day (env : DbEnv) (hours : N) (batch : list Tick) (s : Store) :
  created (db s) = true →
  io_fails env (connections s) = false →
  ticks (db s) = map tick_row batch →
  Forall (λ t, python_years (tick_time t)) batch →
  let cutoff := sqlite_now env (connections s) - Z.of_N hours * 3600000 in
  sqlite_years cutoff →
  ∃ s', prune_ticks_older_than env (Some hours) s = (Returned (), s') ∧
        ticks (db s') =
          map tick_row
            (filter (λ t, ¬ text_lt (date_text (tick_time t / 1000))
                                    (date_text (cutoff / 1000))) batch).
Proof.
  intros Hcr Hio Hticks _ cutoff _.
  unfold prune_ticks_older_than, transaction, if_created. rewrite Hio, Hcr.
  eexists. split; [reflexivity|]. cbn [db ticks set_ticks].
  rewrite Hticks. apply prune_deletes_by_calendar_day.
Qed.

Lemma prune_goes_by_calendar_day_witness :
  let now := 1704139200000 in
  let tick (age : Z) := {| tick_time := now - age * 3600000; tick_symbol := "btcusdt";
                           tick_price := 100 # 1; tick_qty := 1 # 1 |} in
  let s := {| db := set_ticks (map tick_row [tick 30; tick 10; tick 1]) (sql_create_tables empty_db);
              connections := 0 |} in
  ∃ s', prune_ticks_older_than (reliable_store now) (Some 6%N) s = (Returned (), s') ∧
        map row_time (ticks (db s')) =
          ["2024-01-01T10:00:00+00:00"; "2024-01-01T19:00:00+00:00"]%string.
Proof.
  intros now tick s.
  destruct (prune_goes_by_calendar_day (reliable_store now) 6
              [tick 30; tick 10; tick 1] s) as (s' & Hs' & Hticks);
    [reflexivity | reflexivity | reflexivity | | |].
  { repeat constructor; unfold python_years; simpl; lia. }
  { unfold sqlite_years. simpl. lia. }
  exists s'. split; [exact Hs'|]. rewrite Hticks. vm_compute. reflexivity.
Defined.

(** X2.  Whatever its argument and whatever happens to its connection,
    pruning removes tick rows and does nothing else: the ticks left are a
    sublist of those before, in the same order, and every bar table is as
    before. *)
Theorem prune_only_removes_ticks (env : DbEnv) (hours : option N) (s : Store) :
  let s' := snd (prune_ticks_older_than env hours s) in
  sublist (ticks (db s')) (ticks (db s)) ∧
  ∀ table, bar_rows table (db s') = bar_rows table (db s).
Proof.
  unfold prune_ticks_older_than, transaction, if_created.
  destruct hours as [h|]; [|done].
  destruct (io_fails env (connections s)); [done|].
  destruct (created (db s)); [|done].
  simpl. split; [apply sublist_filter|]. by intros [].
Qed.

(** X3.  [insert_ticks_bulk] is append-only: a call that returns has put
    the rows of its batch, in order and without looking for duplicates,
    after the rows that were there, and has left the bar tables alone; a
    call that raises has changed no table; on an empty batch it returns
    without opening a connection, also when the store is locked. *)
Theorem insert_ticks_bulk_appends (env : DbEnv) (batch : list Tick) (s : Store) :
  let '(r, s') := insert_ticks_bulk env batch s in
  match r with
  | Returned _ =>
      ticks (db s') = ticks (db s) ++ map tick_row batch ∧
      (∀ table, bar_rows table (db s') = bar_rows table (db s)) ∧
      (batch = [] → s' = s)
  | Raised e => batch ≠ [] ∧ db s' = db s ∧ connections s' = S (connections s)
  end.
Proof.
  destruct batch as [|t batch].
  - simpl. rewrite app_nil_r. done.
  - unfold insert_ticks_bulk, transaction, if_created.
    destruct (io_fails env (connections s)); [done|].
    destruct (created (db s)); [|done].
    simpl. split_and!; [done|by intros []|done].
Qed.

(** X4.  One [executemany] of upserts, in a table that satisfies its
    uniqueness constraint: of several bars of the batch with the same key
    the last one is what the table holds afterwards, in a single row. *)
Theorem upsert_batch_last_wins (env : DbEnv) (table : BarTable) (before after : list Bar)
    (b : Bar) (s s' : Store) :
  unique_keys (bar_rows table (db s)) →
  (∀ b', b' ∈ after → ¬ same_key b' b) →
  insert_or_replace_bars env table (before ++ b :: after) s = (Returned (), s') →
  rows_of_key b (bar_rows table (db s')) = [b] ∧
  unique_keys (bar_rows table (db s')).
Proof.
  intros Hu Hlast Hret.
  assert (Hdb : db s' = set_bar_rows table
            (sql_upsert_bars (before ++ b :: after) (bar_rows table (db s))) (db s)).
  { destruct before; simpl in Hret; by apply insert_or_replace_bars_returned in Hret as [_ ?]. }
  rewrite Hdb, bar_rows_set_bar_rows. split; [|by apply sql_upsert_bars_unique].
  rewrite sql_upsert_bars_app.
  change (b :: after) with ([b] ++ after). rewrite sql_upsert_bars_app.
  rewrite sql_upsert_bars_others.
  - unfold sql_upsert_bars at 1. simpl.
    by apply sql_upsert_bar_row, sql_upsert_bars_unique.
  - intros b' Hb' [Hs Ht]. apply (Hlast b' Hb'). by split.
Qed.

Lemma upsert_batch_last_wins_witness :
  let bar (o : Z) := {| bar_time := "2024-01-01T00:00:00+00:00"; bar_symbol := "btcusdt";
                        bar_open := o # 1; bar_high := o # 1; bar_low := o # 1;
                        bar_close := o # 1; bar_volume := 1 # 1 |} in
  let s' := snd (insert_or_replace_bars (reliable_store 0) bars_1m [bar 1; bar 2; bar 3]
                   fresh_store) in
  rows_of_key (bar 3) (bar_rows bars_1m (db s')) = [bar 3].
Proof.
  intros bar s'.
  refine (proj1 (upsert_batch_last_wins (reliable_store 0) bars_1m [bar 1; bar 2] [] (bar 3)
                   fresh_store s' _ _ _)).
  - apply NoDup_nil_2.
  - intros b' Hb'. by apply elem_of_nil in Hb'.
  - reflexivity.
Defined.

(** X5.  An upsert never removes or moves a row: the keys that the table
    held are, in the same order, the first keys of the table afterwards;
    the rows under keys that the batch does not mention are as before; and
    the other bar tables and the ticks are not touched. *)
Theorem upsert_keeps_other_rows (env : DbEnv) (table : BarTable) (bars : list Bar)
    (s s' : Store) :
  insert_or_replace_bars env table bars s = (Returned (), s') →
  map bar_key (bar_rows table (db s)) `prefix_of` map bar_key (bar_rows table (db s')) ∧
  (∀ r, (∀ b, b ∈ bars → ¬ same_key r b) →
        rows_of_key r (bar_rows table (db s')) = rows_of_key r (bar_rows table (db s))) ∧
  (∀ table', table' ≠ table → bar_rows table' (db s') = bar_rows table' (db s)) ∧
  ticks (db s') = ticks (db s).
Proof.
  intros Hret. destruct bars as [|b bars].
  - injection Hret as <-. split_and!; done.
  - apply insert_or_replace_bars_returned in Hret as [_ ->].
    rewrite bar_rows_set_bar_rows, ticks_set_bar_rows. split_and!.
    + apply sql_upsert_bars_keys_prefix.
    + intros r Hr. by apply sql_upsert_bars_others.
    + intros table' Hne. by apply bar_rows_set_bar_rows_ne.
    + done.
Qed.

Lemma upsert_keeps_other_rows_witness :
  let bar (sym : string) (o : Z) :=
    {| bar_time := "2024-01-01T00:00:00+00:00"; bar_symbol := sym;
       bar_open := o # 1; bar_high := o # 1; bar_low := o # 1;
       bar_close := o # 1; bar_volume := 1 # 1 |} in
  let s1 := snd (insert_or_replace_bars (reliable_store 0) bars_1m [bar "ethusdt" 5]
                   fresh_store) in
  let s2 := snd (insert_or_replace_bars (reliable_store 0) bars_1m [bar "btcusdt" 7] s1) in
  rows_of_key (bar "ethusdt" 5) (bar_rows bars_1m (db s2)) = [bar "ethusdt" 5].
Proof.
  intros bar s1 s2.
  destruct (upsert_keeps_other_rows (reliable_store 0) bars_1m [bar "btcusdt" 7] s1 s2)
    as (_ & Hothers & _); [reflexivity|].
  rewrite Hothers; [reflexivity|].
  intros b Hb [Hs _]. apply list_elem_of_singleton in Hb as ->. discriminate Hs.
Defined.

(** * Properties of the readers *)

Section text_order.

Lemma text_lt_compare (a b : string) : text_lt a b ↔ String.compare a b = Lt.
Proof.
  unfold text_lt, String.ltb. destruct (String.compare a b); split; congruence.
Qed.

Lemma text_lt_trans (a b c : string) : text_lt a b → text_lt b c → text_lt a c.
Proof.
  rewrite !text_lt_compare. intros Hab Hbc.
  apply OrderedTypeEx.String_as_OT.cmp_lt.
  eapply OrderedTypeEx.String_as_OT.lt_trans; by apply OrderedTypeEx.String_as_OT.cmp_lt.
Qed.

Lemma text_lt_asym (a b : string) : text_lt a b → ¬ text_lt b a.
Proof.
  rewrite !text_lt_compare. intros Hab Hba.
  pose proof (OrderedTypeEx.String_as_OT.cmp_antisym a b) as H.
  unfold OrderedTypeEx.String_as_OT.cmp in H. rewrite Hab, Hba in H. discriminate.
Qed.

Lemma text_trichotomy (a b : string) : text_lt a b ∨ a = b ∨ text_lt b a.
Proof.
  rewrite !text_lt_compare.
  pose proof (OrderedTypeEx.String_as_OT.cmp_antisym b a) as H.
  unfold OrderedTypeEx.String_as_OT.cmp in H.
  destruct (String.compare a b) eqn:Hc.
  - right. left. by apply OrderedTypeEx.String_as_OT.cmp_eq.
  - by left.
  - right. right. by rewrite H.
Qed.

Lemma text_le_trans (a b c : string) : text_le a b → text_le b c → text_le a c.
Proof.
  unfold text_le. intros Hab Hbc Hca.
  destruct (text_trichotomy a b) as [Hlt|[->|Hlt]]; [|done|done].
  apply Hbc. by eapply text_lt_trans.
Qed.

Lemma text_lt_le (a b : string) : text_lt a b → text_le a b.
Proof. apply text_lt_asym. Qed.
End text_order.

Section order_by.
Context {A : Type} (key : A → string).
Implicit Types (r u : A) (l : list A).

Lemma insert_by_text_perm r l : insert_by_text key r l ≡ₚ r :: l.
Proof.
  induction l as [|u l IH]; simpl; [done|].
  destruct (String.ltb (key u) (key r)); [|done].
  rewrite IH. apply Permutation_swap.
Qed.

Lemma order_by_perm l : order_by key l ≡ₚ l.
Proof.
  induction l as [|r l IH]; simpl; [done|].
  by rewrite insert_by_text_perm, IH.
Qed.

Lemma insert_by_text_sorted r l :
  StronglySorted (λ a b, text_le (key a) (key b)) l →
  StronglySorted (λ a b, text_le (key a) (key b)) (insert_by_text key r l).
Proof.
  induction l as [|u l IH]; simpl; intros Hs.
  - repeat constructor.
  - apply StronglySorted_cons in Hs as [Hu Hs].
    destruct (String.ltb (key u) (key r)) eqn:Hlt.
    + apply StronglySorted_cons. split; [|by apply IH].
      rewrite insert_by_text_perm. constructor; [by apply text_lt_le | done].
    + apply StronglySorted_cons. split; [|by apply StronglySorted_cons].
      assert (Hru : text_le (key r) (key u)) by (unfold text_le, text_lt; congruence).
      constructor; [done|].
      eapply Forall_impl; [exact Hu|]. intros v Hv. by eapply text_le_trans.
Qed.

Lemma order_by_sorted l : StronglySorted (λ a b, text_le (key a) (key b)) (order_by key l).
Proof.
  induction l as [|r l IH]; simpl; [constructor|].
  by apply insert_by_text_sorted.
Qed.

Lemma sorted_take (R : relation A) (n : nat) l :
  StronglySorted R l → StronglySorted R (take n l).
Proof.
  intros Hs. rewrite <- (take_drop n l) in Hs.
  by apply StronglySorted_app in Hs as (_ & ? & _).
Qed.

Lemma sql_limit_sublist (limit : option N) l : sublist (sql_limit limit l) l.
Proof.
  unfold sql_limit. destruct limit as [n|]; [|done].
  destruct (n =? 0)%N; [done|]. apply sublist_take.
Qed.

Lemma sql_limit_length (n : N) l :
  n ≠ 0%N → (length (sql_limit (Some n) l) ≤ N.to_nat n)%nat.
Proof.
  intros Hn. unfold sql_limit. destruct (N.eqb_spec n 0); [done|].
  rewrite length_take. lia.
Qed.

Lemma where_symbol_spec (col : A → string) (symbol : option string) l r :
  r ∈ where_symbol col symbol l ↔
  r ∈ l ∧ ∀ sy, given symbol = Some sy → col r = sy.
Proof.
  unfold where_symbol. destruct (given symbol) as [sy|].
  - rewrite list_elem_of_filter. split.
    + intros [Hc Hr]. split; [done|]. by intros sy' [= <-].
    + intros [Hr Hc]. split; [by apply Hc | done].
  - split; [intros Hr; split; [done|]; by intros sy | by intros [Hr _]].
Qed.

Lemma where_time_from_spec (col : A → string) (bound : option string) l r :
  r ∈ where_time_from col bound l ↔
  r ∈ l ∧ ∀ t, bound = Some t → text_le t (col r).
Proof.
  unfold where_time_from. destruct bound as [t|].
  - rewrite list_elem_of_filter. split.
    + intros [Hc Hr]. split; [done|]. by intros t' [= <-].
    + intros [Hr Hc]. split; [by apply Hc | done].
  - split; [intros Hr; split; [done|]; by intros t | by intros [Hr _]].
Qed.
End order_by.

Section readers.
Implicit Types (s : Store) (env : DbEnv).

(** The two connections of a reader: [create_tables], whose failure is
    raised, then the query, whose failure is caught. *)
Lemma load_ticks_cases env (symbol since : option string) (limit : option N) s :
  load_ticks env symbol since limit s =
    if io_fails env (connections s)
    then (Raised (OperationalError "database is locked"),
          {| db := db s; connections := S (connections s) |})
    else (Returned (if io_fails env (S (connections s)) then []
                    else select_ticks symbol since limit (sql_create_tables (db s))),
          {| db := sql_create_tables (db s); connections := S (S (connections s)) |}).
Proof.
  unfold load_ticks, py_bind, create_tables, transaction, try_except, read_sql.
  destruct (io_fails env (connections s)); [done|]. simpl.
  destruct (io_fails env (S (connections s))); done.
Qed.

Lemma load_bars_cases env (timeframe : string) (symbol : option string)
    (lookback : option N) s :
  load_bars env timeframe symbol lookback s =
    match BAR_TABLES_get timeframe with
    | None => (Returned [], s)
    | Some table =>
        if io_fails env (connections s)
        then (Raised (OperationalError "database is locked"),
              {| db := db s; connections := S (connections s) |})
        else (Returned (if io_fails env (S (connections s)) then []
                        else select_bars table symbol lookback
                               (sqlite_now env (S (connections s)))
                               (sql_create_tables (db s))),
              {| db := sql_create_tables (db s); connections := S (S (connections s)) |})
    end.
Proof.
  unfold load_bars. destruct (BAR_TABLES_get timeframe) as [table|]; [|done].
  unfold py_bind, create_tables, transaction, try_except, read_sql.
  destruct (io_fails env (connections s)); [done|]. simpl.
  destruct (io_fails env (S (connections s))); done.
Qed.

Lemma select_ticks_elem (symbol since : option string) (limit : option N)
    (d : Database) (r : TickRow) :
  r ∈ select_ticks symbol since limit d →
  r ∈ ticks d ∧
  (∀ sy, given symbol = Some sy → row_symbol r = sy) ∧
  (∀ t, given since = Some t → text_le t (row_time r)).
Proof.
  unfold select_ticks. intros Hr.
  apply (λ H, elem_of_sublist _ _ _ H (sql_limit_sublist limit _)) in Hr.
  rewrite order_by_perm in Hr.
  apply where_time_from_spec in Hr as [Hr Hsince].
  apply where_symbol_spec in Hr as [Hr Hsym]. done.
Qed.

Lemma select_ticks_sorted (symbol since : option string) (limit : option N) (d : Database) :
  StronglySorted (λ a b, text_le (row_time a) (row_time b))
    (select_ticks symbol since limit d).
Proof.
  unfold select_ticks, sql_limit.
  destruct limit as [n|]; [destruct (n =? 0)%N|]; try apply order_by_sorted.
  apply sorted_take, order_by_sorted.
Qed.
End readers.

(** X6.  What [load_ticks] returns: rows of the tick table, in the order
    of their time text, all of the symbol asked for and not before [since]
    when these are given (an empty string counts as not given), and no more
    than [limit] of them when [limit] is not zero.  The call leaves every
    stored row as it was. *)
Theorem load_ticks_returns_selection (env : DbEnv) (symbol since : option string)
    (limit : option N) (s s' : Store) (rows : list TickRow) :
  load_ticks env symbol since limit s = (Returned rows, s') →
  StronglySorted (λ a b, text_le (row_time a) (row_time b)) rows ∧
  (∀ r, r ∈ rows →
        r ∈ ticks (db s) ∧
        (∀ sy, given symbol = Some sy → row_symbol r = sy) ∧
        (∀ t, given since = Some t → text_le t (row_time r))) ∧
  (∀ n, limit = Some n → n ≠ 0%N → (length rows ≤ N.to_nat n)%nat) ∧
  ticks (db s') = ticks (db s) ∧
  (∀ table, bar_rows table (db s') = bar_rows table (db s)).
Proof.
  rewrite load_ticks_cases.
  destruct (io_fails env (connections s)); [done|].
  intros [= <- <-]. simpl.
  destruct (io_fails env (S (connections s))).
  - split_and!; [constructor | by intros r Hr%elem_of_nil | simpl; lia | done | by intros []].
  - split_and!.
    + apply select_ticks_sorted.
    + intros r Hr. by apply select_ticks_elem in Hr.
    + intros n -> Hn. unfold select_ticks. by apply sql_limit_length.
    + done.
    + by intros [].
Qed.

Lemma load_ticks_returns_selection_witness :
  let row (t sym : string) := {| row_time := t; row_symbol := sym;
                                 row_price := 1 # 1; row_qty := 1 # 1 |} in
  let s := {| db := set_ticks [row "2024-01-01T00:00:03+00:00" "btcusdt";
                               row "2024-01-01T00:00:01+00:00" "ethusdt";
                               row "2024-01-01T00:00:02+00:00" "btcusdt";
                               row "2024-01-01T00:00:01+00:00" "btcusdt"]
                      (sql_create_tables empty_db);
              connections := 0 |} in
  fst (load_ticks (reliable_store 0) (Some "btcusdt") None (Some 2%N) s) =
    Returned [row "2024-01-01T00:00:01+00:00" "btcusdt";
              row "2024-01-01T00:00:02+00:00" "btcusdt"] ∧
  ∀ r, r ∈ [row "2024-01-01T00:00:01+00:00" "btcusdt";
            row "2024-01-01T00:00:02+00:00" "btcusdt"] → row_symbol r = "btcusdt".
Proof.
  intros row s. split; [reflexivity|].
  intros r Hr.
  destruct (load_ticks_returns_selection (reliable_store 0) (Some "btcusdt") None (Some 2%N) s
              (snd (load_ticks (reliable_store 0) (Some "btcusdt") None (Some 2%N) s))
              [row "2024-01-01T00:00:01+00:00" "btcusdt";
               row "2024-01-01T00:00:02+00:00" "btcusdt"] eq_refl)
    as (_ & Hsel & _).
  by apply (Hsel r Hr).
Defined.

(** X7.  When both connections succeed and no limit is given (or a limit
    of zero), [load_ticks] misses nothing: it returns a rearrangement of
    exactly the stored rows that match; with an empty string for the
    symbol that is every symbol's rows. *)
Theorem load_ticks_complete (env : DbEnv) (symbol since : option string)
    (limit : option N) (s : Store) :
  io_fails env (connections s) = false →
  io_fails env (S (connections s)) = false →
  (limit = None ∨ limit = Some 0%N) →
  ∃ rows s',
    load_ticks env symbol since limit s = (Returned rows, s') ∧
    rows ≡ₚ where_time_from row_time (given since)
              (where_symbol row_symbol symbol (ticks (db s))) ∧
    (symbol = Some ""%string → since = None → rows ≡ₚ ticks (db s)).
Proof.
  intros Hio1 Hio2 Hlimit. rewrite load_ticks_cases, Hio1, Hio2.
  eexists _, _. split; [reflexivity|].
  assert (Hsel : select_ticks symbol since limit (sql_create_tables (db s)) ≡ₚ
                 where_time_from row_time (given since)
                   (where_symbol row_symbol symbol (ticks (db s)))).
  { unfold select_ticks. destruct Hlimit as [-> | ->]; simpl; apply order_by_perm. }
  split; [exact Hsel|].
  intros -> ->. by rewrite Hsel.
Qed.

Lemma load_ticks_complete_witness :
  let row (t sym : string) := {| row_time := t; row_symbol := sym;
                                 row_price := 1 # 1; row_qty := 1 # 1 |} in
  let s := {| db := set_ticks [row "2024-01-01T00:00:03+00:00" "btcusdt";
                               row "2024-01-01T00:00:01+00:00" "ethusdt"]
                      (sql_create_tables empty_db);
              connections := 0 |} in
  ∃ rows s', load_ticks (reliable_store 0) (Some ""%string) None None s = (Returned rows, s') ∧
             rows ≡ₚ ticks (db s).
Proof.
  intros row s.
  destruct (load_ticks_complete (reliable_store 0) (Some ""%string) None None s)
    as (rows & s' & Hload & _ & Hall); [reflexivity | reflexivity | by left |].
  exists rows, s'. split; [exact Hload|]. by apply Hall.
Defined.

(** X8.  The failures of [load_bars].  For a timeframe that is not a key
    of [BAR_TABLES] it returns no rows without touching the store, not even
    to create the tables.  Otherwise a failure of [create_tables] is raised
    to the caller, while a failure of the query is caught: the call returns
    no rows. *)
Theorem load_bars_failures (env : DbEnv) (timeframe : string) (symbol : option string)
    (lookback : option N) (s : Store) :
  (BAR_TABLES_get timeframe = None →
   load_bars env timeframe symbol lookback s = (Returned [], s)) ∧
  (is_Some (BAR_TABLES_get timeframe) →
   io_fails env (connections s) = true →
   ∃ e s', load_bars env timeframe symbol lookback s = (Raised e, s') ∧ db s' = db s) ∧
  (is_Some (BAR_TABLES_get timeframe) →
   io_fails env (connections s) = false →
   io_fails env (S (connections s)) = true →
   ∃ s', load_bars env timeframe symbol lookback s = (Returned [], s')) ∧
  (BAR_TABLES_get timeframe = None ↔
   timeframe ≠ "1s"%string ∧ timeframe ≠ "1m"%string ∧ timeframe ≠ "5m"%string).
Proof.
  rewrite load_bars_cases. split_and!.
  - by intros ->.
  - intros [table ->] ->. eauto.
  - intros [table ->] -> ->. eauto.
  - unfold BAR_TABLES_get, timeframe_of_key.
    destruct (decide (timeframe = "1s")); simpl; [intuition congruence|].
    destruct (decide (timeframe = "1m")); simpl; [intuition congruence|].
    destruct (decide (timeframe = "5m")); simpl; intuition congruence.
Qed.

Lemma load_bars_failures_witness :
  let locked := {| io_fails := λ n, bool_decide (n = 1%nat); sqlite_now := λ _, 0 |} in
  load_bars locked "1h" None None fresh_store = (Returned [], fresh_store) ∧
  fst (load_bars locked "1m" None None fresh_store) = Returned [].
Proof.
  intros locked. split.
  - apply (load_bars_failures locked "1h" None None fresh_store). reflexivity.
  - destruct (load_bars_failures locked "1m" None None fresh_store) as (_ & _ & H & _).
    destruct H as [s' ->]; [by eexists | reflexivity | reflexivity | reflexivity].
Defined.

Section bar_reader.
Implicit Types (s : Store) (env : DbEnv) (r b : Bar).

Lemma bar_rows_create_tables (table : BarTable) (d : Database) :
  bar_rows table (sql_create_tables d) = bar_rows table d.
Proof. by destruct table. Qed.

Lemma given_nonempty (sy : string) : sy ≠ ""%string → given (Some sy) = Some sy.
Proof. by destruct sy. Qed.

Lemma select_bars_elem (table : BarTable) (symbol : option string) (lookback : option N)
    (now : Z) (d : Database) r :
  r ∈ select_bars table symbol lookback now d ↔
  r ∈ bar_rows table d ∧
  (∀ sy, given symbol = Some sy → bar_symbol r = sy) ∧
  (∀ h, lookback = Some h → h ≠ 0%N →
        text_le (sqlite_datetime_hours_before now h) (bar_time r)).
Proof.
  unfold select_bars. rewrite order_by_perm, where_time_from_spec, where_symbol_spec.
  destruct lookback as [h|]; simpl.
  - destruct (N.eqb_spec h 0) as [->|Hh]; simpl.
    + split; [intros [[? ?] _]; split_and!; [done|done|by intros h [= <-]] |].
      intros (? & ? & _). done.
    + split.
      * intros [[? ?] Ht]. split_and!; [done|done|]. intros h' [= <-] _. by apply Ht.
      * intros (? & ? & Ht). split; [done|]. intros t [= <-]. by apply Ht.
  - split; [intros [[? ?] _]; split_and!; done | intros (? & ? & _); done].
Qed.
End bar_reader.

(** X9.  The lookback of [load_bars] goes by calendar days.  Of the bars
    that [_aggregate_and_store_bars] stored (their time is the ISO text of
    an instant), a query with a lookback of [h] hours that leaves the
    cutoff ([now - h] hours) in the years 0000 to 9999 returns those of the
    asked symbol whose UTC date is not before the date of the cutoff,
    whatever their time of day: bars of that day that are older than the
    lookback are returned too. *)
Theorem load_bars_lookback_by_day (env : DbEnv) (timeframe : string) (table : BarTable)
    (symbol : option string) (h : N) (s : Store) (r : Bar) (ms : Z) :
  BAR_TABLES_get timeframe = Some table →
  io_fails env (connections s) = false →
  io_fails env (S (connections s)) = false →
  h ≠ 0%N →
  r ∈ bar_rows table (db s) →
  bar_time r = isoformat ms →
  python_years ms →
  (∀ sy, given symbol = Some sy → bar_symbol r = sy) →
  let cutoff := sqlite_now env (S (connections s)) - Z.of_N h * 3600000 in
  sqlite_years cutoff →
  ∃ rows s',
    load_bars env timeframe symbol (Some h) s = (Returned rows, s') ∧
    (r ∈ rows ↔ ¬ text_lt (date_text (ms / 1000)) (date_text (cutoff / 1000))).
Proof.
  intros Htable Hio1 Hio2 Hh Hr Htime _ Hsym cutoff _.
  rewrite load_bars_cases, Htable, Hio1, Hio2.
  eexists _, _. split; [reflexivity|].
  rewrite select_bars_elem, bar_rows_create_tables.
  assert (Hcmp : text_le (sqlite_datetime_hours_before
                            (sqlite_now env (S (connections s))) h) (bar_time r) ↔
                 ¬ text_lt (date_text (ms / 1000)) (date_text (cutoff / 1000))).
  { unfold text_le, text_lt, sqlite_datetime_hours_before. fold cutoff.
    by rewrite Htime, iso_before_sqlite. }
  split.
  - intros (_ & _ & Ht). apply Hcmp. by apply (Ht h).
  - intros Hday. split_and!; [done|done|]. intros h' [= <-] _. by apply Hcmp.
Qed.

Lemma load_bars_lookback_by_day_witness :
  let now := 1704139200000 in
  let old := {| bar_time := isoformat (now - 10 * 3600000); bar_symbol := "btcusdt";
                bar_open := 1 # 1; bar_high := 1 # 1; bar_low := 1 # 1;
                bar_close := 1 # 1; bar_volume := 1 # 1 |} in
  let s := snd (insert_or_replace_bars (reliable_store now) bars_1m [old] fresh_store) in
  ∃ rows s', load_bars (reliable_store now) "1m" (Some "btcusdt") (Some 6%N) s
               = (Returned rows, s') ∧ old ∈ rows.
Proof.
  intros now old s.
  destruct (load_bars_lookback_by_day (reliable_store now) "1m" bars_1m (Some "btcusdt") 6 s
              old (now - 10 * 3600000)) as (rows & s' & Hload & Hin);
    [reflexivity | reflexivity | reflexivity | discriminate | left | reflexivity | | | |].
  - unfold python_years. simpl. lia.
  - by intros sy [= <-].
  - unfold sqlite_years. simpl. lia.
  - exists rows, s'. split; [exact Hload|]. apply Hin. vm_compute. discriminate.
Defined.

(** X10.  Upsert, then load: in a table that satisfies its uniqueness
    constraint, a bar that [insert_or_replace_bars] has written is returned
    by [load_bars] for its symbol (without lookback), exactly once and with
    the values written, among rows of that symbol only. *)
Theorem upsert_then_load_bars (env : DbEnv) (timeframe : string) (table : BarTable)
    (b : Bar) (s s1 : Store) :
  BAR_TABLES_get timeframe = Some table →
  unique_keys (bar_rows table (db s)) →
  bar_symbol b ≠ ""%string →
  insert_or_replace_bars env table [b] s = (Returned (), s1) →
  io_fails env (connections s1) = false →
  io_fails env (S (connections s1)) = false →
  ∃ rows s2,
    load_bars env timeframe (Some (bar_symbol b)) None s1 = (Returned rows, s2) ∧
    rows_of_key b rows = [b] ∧
    ∀ r, r ∈ rows → bar_symbol r = bar_symbol b.
Proof.
  intros Htable Hu Hsym Hret Hio1 Hio2.
  apply insert_or_replace_bars_returned in Hret as [_ Hdb].
  rewrite load_bars_cases, Htable, Hio1, Hio2.
  eexists _, _. split; [reflexivity|].
  set (rows := select_bars table (Some (bar_symbol b)) None _ _).
  assert (Hrows : ∀ r, r ∈ rows ↔
            r ∈ sql_upsert_bar b (bar_rows table (db s)) ∧ bar_symbol r = bar_symbol b).
  { intros r. unfold rows. rewrite select_bars_elem, bar_rows_create_tables, Hdb,
      bar_rows_set_bar_rows, given_nonempty by done.
    unfold sql_upsert_bars. simpl. split.
    - intros (? & Hs & _). split; [done|]. by apply Hs.
    - intros [? Hs]. split_and!; [done|by intros sy [= <-]|done]. }
  split; [|intros r Hr; by apply Hrows in Hr as [_ ?]].
  apply Permutation_singleton_r.
  rewrite <- (sql_upsert_bar_row b (bar_rows table (db s)) Hu).
  unfold rows_of_key, rows, select_bars. simpl.
  rewrite order_by_perm. unfold where_symbol. rewrite given_nonempty by done.
  rewrite bar_rows_create_tables, Hdb, bar_rows_set_bar_rows.
  unfold sql_upsert_bars. simpl. rewrite list_filter_filter.
  apply Permutation_refl'. apply list_filter_iff.
  intros r. split; [by intros [? _] | intros Hk; split; [done | by destruct Hk]].
Qed.

Lemma upsert_then_load_bars_witness :
  let b := {| bar_time := "2024-01-01T00:00:00+00:00"; bar_symbol := "btcusdt";
              bar_open := 1 # 1; bar_high := 2 # 1; bar_low := 1 # 1;
              bar_close := 2 # 1; bar_volume := 3 # 1 |} in
  let s1 := snd (insert_or_replace_bars (reliable_store 0) bars_5m [b] fresh_store) in
  ∃ rows s2, load_bars (reliable_store 0) "5m" (Some "btcusdt") None s1 = (Returned rows, s2) ∧
             rows_of_key b rows = [b].
Proof.
  intros b s1.
  destruct (upsert_then_load_bars (reliable_store 0) "5m" bars_5m b fresh_store s1)
    as (rows & s2 & Hload & Hrow & _);
    [reflexivity | apply NoDup_nil_2 | discriminate | reflexivity | reflexivity | reflexivity |].
  exists rows, s2. split; [exact Hload | exact Hrow].
Defined.

(** * Further properties of the ingestion *)

(** X11.  A buffer of positive capacity never holds more than its
    capacity, however many messages it is fed; what it holds is always the
    newest part of what it held and was fed, in order; and as long as the
    capacity is not exceeded nothing is dropped. *)
Theorem buffer_within_capacity (msgs : list TradeMsg) (q : Queue) :
  0 < maxsize q → qsize q ≤ maxsize q →
  ∃ q', feed msgs q = (Returned (), q') ∧
        maxsize q' = maxsize q ∧
        qsize q' ≤ maxsize q' ∧
        items q' `suffix_of` (items q ++ map tick_of_message msgs) ∧
        (qsize q + Z.of_nat (length msgs) ≤ maxsize q →
         items q' = items q ++ map tick_of_message msgs).
Proof.
  intros Hpos Hle. rewrite feed_spec by done. eexists. split; [reflexivity|].
  simpl. split_and!.
  - done.
  - unfold qsize. simpl. rewrite last_items_length. lia.
  - unfold last_items. apply suffix_drop.
  - intros Hroom. apply last_items_short.
    unfold qsize in Hroom. rewrite length_app, length_map. lia.
Qed.

Lemma buffer_within_capacity_witness :
  let m (i : Z) := {| msg_T := i; msg_s := "ETHUSDT"; msg_p := 7 # 1; msg_q := 1 # 1 |} in
  ∃ q', feed [m 1; m 2] {| maxsize := 3; items := [tick_of_message (m 0)] |} = (Returned (), q') ∧
        items q' = map tick_of_message [m 0; m 1; m 2].
Proof.
  intros m.
  destruct (buffer_within_capacity [m 1; m 2] {| maxsize := 3; items := [tick_of_message (m 0)] |})
    as (q' & Hfeed & _ & _ & _ & Hall); [reflexivity | by vm_compute |].
  exists q'. split; [exact Hfeed|]. apply Hall. by vm_compute.
Defined.

Section store_sizes.
Implicit Types (s : Store) (denv : DbEnv).

Lemma insert_ticks_bulk_rows denv (batch : list Tick) s :
  (length (ticks (db (snd (insert_ticks_bulk denv batch s))))
   ≤ length (ticks (db s)) + length batch)%nat.
Proof.
  destruct batch as [|t batch]; [simpl; lia|].
  unfold insert_ticks_bulk, transaction, if_created.
  destruct (io_fails denv (connections s)); [simpl; lia|].
  destruct (created (db s)); [|simpl; lia].
  cbn [snd db ticks set_ticks]. rewrite length_app, length_map. lia.
Qed.

Lemma insert_or_replace_bars_keeps_ticks denv (table : BarTable) (bars : list Bar) s :
  ticks (db (snd (insert_or_replace_bars denv table bars s))) = ticks (db s).
Proof.
  destruct bars as [|b bars]; [done|].
  unfold insert_or_replace_bars, transaction, if_created.
  destruct (io_fails denv (connections s)); [done|].
  destruct (created (db s)); [|done].
  cbn [snd db]. apply ticks_set_bar_rows.
Qed.

Lemma for_each_keeps_ticks {A} (l : list A) (body : A → Py Store unit) s :
  (∀ a s, ticks (db (snd (body a s))) = ticks (db s)) →
  ticks (db (snd (for_each l body s))) = ticks (db s).
Proof.
  intros Hbody. revert s. induction l as [|a l IH]; intros s; simpl; [done|].
  unfold py_bind. specialize (Hbody a s).
  destruct (body a s) as [[u|e] s1]; simpl in *; [|done].
  by rewrite IH.
Qed.

Lemma aggregate_keeps_ticks (float_sum : list Q → Q) denv (batch : list Tick) s :
  ticks (db (snd (_aggregate_and_store_bars float_sum denv batch s))) = ticks (db s).
Proof.
  destruct batch as [|t batch]; [done|]. unfold _aggregate_and_store_bars.
  destruct (to_datetime (t :: batch)) as [df|e]; [|done].
  apply for_each_keeps_ticks. intros tf s0.
  destruct (grouped float_sum tf df); [done|].
  apply insert_or_replace_bars_keeps_ticks.
Qed.

Lemma prune_rows denv (hours : option N) s :
  (length (ticks (db (snd (prune_ticks_older_than denv hours s))))
   ≤ length (ticks (db s)))%nat.
Proof.
  unfold prune_ticks_older_than, transaction, if_created.
  destruct hours as [h|]; [|done].
  destruct (io_fails denv (connections s)); [done|].
  destruct (created (db s)); [|done].
  cbn [snd db ticks set_ticks]. apply length_filter.
Qed.
End store_sizes.

Section flush_bounds.
Context (float_sum : list Q → Q) (env : Env).
Implicit Types (p : Process).

(** The inner loop takes at most [room] ticks and keeps what it had. *)
Lemma drain_bound (room : nat) (flush_interval start : Q) (batch : list Tick) p :
  ∃ b p', drain env room flush_interval start batch p = (Returned b, p') ∧
          store p' = store p ∧
          batch `prefix_of` b ∧
          (length b ≤ length batch + room)%nat.
Proof.
  revert batch p. induction room as [|room IH]; intros batch p; simpl.
  - unfold py_ret. eexists _, _. split_and!; [done|done|done|lia].
  - unfold py_bind at 1. unfold time_ at 1.
    destruct (Qlt_bool _ _); [|unfold py_ret; eexists _, _; split_and!; [done|done|done|lia]].
    unfold py_bind at 1, try_except, py_bind at 1.
    destruct (queue_get_cases env (set_clock_reads (S (clock_reads p)) p))
      as (p1 & Hst & [Hget | [item Hget]]); rewrite Hget.
    + unfold py_ret. eexists _, _. split_and!; [done|done|done|lia].
    + unfold py_ret at 1.
      destruct (IH (batch ++ [item]) p1) as (b & p' & Hd & Hst' & Hpre & Hlen).
      exists b, p'. split_and!; [exact Hd | by rewrite Hst', Hst | |].
      * etrans; [|exact Hpre]. by apply prefix_app_r.
      * rewrite length_app in Hlen. simpl in Hlen. lia.
Qed.

Lemma stored_ticks_bind {A B} (c : Py Process A) (k : A → Py Process B) (n1 n2 : nat) :
  (∀ p, (stored_ticks (snd (c p)) ≤ stored_ticks p + n1)%nat) →
  (∀ a p, (stored_ticks (snd (k a p)) ≤ stored_ticks p + n2)%nat) →
  ∀ p, (stored_ticks (snd (py_bind c k p)) ≤ stored_ticks p + (n1 + n2))%nat.
Proof.
  intros Hc Hk p. unfold py_bind. specialize (Hc p).
  destruct (c p) as [[a|e] p1]; simpl in *; [|lia].
  specialize (Hk a p1). lia.
Qed.

Lemma stored_ticks_time p : (stored_ticks (snd (time_ env p)) ≤ stored_ticks p + 0)%nat.
Proof. unfold time_, stored_ticks. simpl. lia. Qed.

Lemma stored_ticks_insert (batch : list Tick) p :
  (stored_ticks (snd (on_store (insert_ticks_bulk (db_env env) batch) p))
   ≤ stored_ticks p + length batch)%nat.
Proof.
  unfold on_store, zoom, stored_ticks.
  pose proof (insert_ticks_bulk_rows (db_env env) batch (store p)) as H.
  destruct (insert_ticks_bulk _ _ _) as [r s']. simpl in *. lia.
Qed.

Lemma stored_ticks_aggregate (batch : list Tick) p :
  (stored_ticks (snd (on_store (_aggregate_and_store_bars float_sum (db_env env) batch) p))
   ≤ stored_ticks p + 0)%nat.
Proof.
  unfold on_store, zoom, stored_ticks.
  pose proof (aggregate_keeps_ticks float_sum (db_env env) batch (store p)) as H.
  destruct (_aggregate_and_store_bars _ _ _ _) as [r s']. simpl in *. rewrite H. lia.
Qed.

Lemma stored_ticks_prune (hours : option N) p :
  (stored_ticks (snd (on_store (prune_ticks_older_than (db_env env) hours) p))
   ≤ stored_ticks p + 0)%nat.
Proof.
  unfold on_store, zoom, stored_ticks.
  pose proof (prune_rows (db_env env) hours (store p)) as H.
  destruct (prune_ticks_older_than _ _ _) as [r s']. simpl in *. lia.
Qed.
End flush_bounds.

Section flush_cycle_bound.
Context (float_sum : list Q → Q) (env : Env).

Lemma flush_cycle_stores_at_most (batch_size : nat) (flush_interval : Q)
    (retention_hours : option N) (last_prune : Q) (p : Process) :
  (stored_ticks (snd (flush_cycle float_sum env batch_size flush_interval retention_hours
                        last_prune p))
   ≤ stored_ticks p + batch_size)%nat.
Proof.
  unfold flush_cycle. unfold py_bind at 1. unfold time_ at 1.
  unfold py_bind at 1.
  destruct (drain_bound env batch_size flush_interval
              (time_time env (clock_reads p)) [] (set_clock_reads (S (clock_reads p)) p))
    as (b & p1 & -> & Hst & _ & Hlen).
  simpl in Hlen.
  assert (Hp1 : stored_ticks p1 = stored_ticks p) by (unfold stored_ticks; by rewrite Hst).
  rewrite <- Hp1.
  eapply Nat.le_trans; [apply (stored_ticks_bind _ _ (length b) 0)|lia].
  - intros p2. destruct b as [|t b].
    + unfold py_ret. simpl. lia.
    + replace (length (t :: b)) with (length (t :: b) + 0)%nat by lia.
      apply stored_ticks_bind; [apply stored_ticks_insert|].
      intros _. apply (stored_ticks_aggregate float_sum).
  - intros _ p2. destruct (truthy retention_hours); [|unfold py_ret; simpl; lia].
    change 0%nat with (0 + 0)%nat.
    apply stored_ticks_bind; [apply stored_ticks_time|].
    intros now p3. destruct (Qlt_bool _ _); [|unfold py_ret; simpl; lia].
    change 0%nat with (0 + 0)%nat.
    apply stored_ticks_bind; [apply stored_ticks_prune|].
    intros _. apply stored_ticks_time.
Qed.
End flush_cycle_bound.

(** X12.  Over any number of turns of the flush loop, whatever arrives
    and whatever fails, the raw tick table grows by at most [batch_size]
    rows per turn. *)
Theorem flush_cycles_store_at_most (float_sum : list Q → Q) (env : Env) (batch_size : nat)
    (flush_interval : Q) (retention_hours : option N) (cycles : nat) (last_prune : Q)
    (p : Process) :
  (stored_ticks
     (snd (flush_cycles float_sum env batch_size flush_interval retention_hours cycles
             last_prune p))
   ≤ stored_ticks p + cycles * batch_size)%nat.
Proof.
  revert last_prune p. induction cycles as [|n IH]; intros lp p; simpl; [lia|].
  unfold py_bind.
  pose proof (flush_cycle_stores_at_most float_sum env batch_size flush_interval
                retention_hours lp p) as Hc.
  destruct (flush_cycle _ _ _ _ _ _ p) as [[lp'|e] p1]; simpl in *; [|lia].
  specialize (IH lp' p1). lia.
Qed.

Section one_format.
Context (float_sum : list Q → Q) (env : Env) (fraction : bool).
Hypothesis store_works : ∀ n, io_fails (db_env env) n = false.
Hypothesis arrivals_one_format :
  ∀ n, Forall (λ m, one_format fraction (tick_of_message m)) (arrivals env n).
Implicit Types (s : Store) (p : Process) (q : Queue).

Lemma to_datetime_one_format (batch : list Tick) :
  Forall (one_format fraction) batch → to_datetime batch = Returned batch.
Proof.
  intros Hall. destruct batch as [|t0 batch]; [done|]. unfold to_datetime.
  assert (Hb : forallb (λ t, in_timestamp_bounds (tick_time t)) (t0 :: batch) = true).
  { apply forallb_forall. intros t Ht%list_elem_of_In.
    eapply Forall_forall in Hall; [|exact Ht]. apply pandas_years_in_bounds, Hall. }
  assert (Hf : forallb (same_format t0) (t0 :: batch) = true).
  { apply forallb_forall. intros t Ht%list_elem_of_In. unfold same_format.
    pose proof (proj1 (Forall_forall _ _) Hall t Ht) as [_ ->].
    pose proof (proj1 (Forall_forall _ _) Hall t0 (list_elem_of_here _ _)) as [_ ->].
    by destruct fraction. }
  by rewrite Hb, Hf.
Qed.

Lemma offer_one_format (t : Tick) q :
  one_format fraction t → Forall (one_format fraction) (items q) →
  Forall (one_format fraction) (items (snd (offer t q))).
Proof.
  intros Ht Hq. unfold offer, try_except, put_nowait at 1.
  destruct (full q).
  - unfold py_bind, get_nowait.
    destruct (items q) as [|x rest] eqn:Hitems; simpl; [by rewrite Hitems|].
    apply Forall_cons_1 in Hq as [_ Hrest]. unfold put_nowait.
    destruct (full _); simpl; [done|].
    apply Forall_app. split; [done | by constructor].
  - simpl. apply Forall_app. split; [done | by constructor].
Qed.

Lemma feed_one_format (msgs : list TradeMsg) q :
  Forall (λ m, one_format fraction (tick_of_message m)) msgs →
  Forall (one_format fraction) (items q) →
  Forall (one_format fraction) (items (snd (feed msgs q))).
Proof.
  revert q. induction msgs as [|m msgs IH]; intros q Hm Hq; [done|].
  apply Forall_cons_1 in Hm as [Hm Hms].
  unfold feed in *. simpl. unfold py_bind, _on_message at 1.
  pose proof (offer_one_format (tick_of_message m) q Hm Hq) as Hq'.
  destruct (offer _ q) as [[u|e] q1]; simpl in *; [|done].
  by apply IH.
Qed.

(** What the flusher takes from the buffer is of the one format, and so
    is what it leaves there. *)
Lemma queue_get_one_format p :
  Forall (one_format fraction) (items (tick_queue p)) →
  ∃ p', store p' = store p ∧
        Forall (one_format fraction) (items (tick_queue p')) ∧
        (queue_get env p = (Raised QueueEmpty, p') ∨
         ∃ item, queue_get env p = (Returned item, p') ∧ one_format fraction item).
Proof.
  intros Hq.
  unfold queue_get, py_bind, get_state, set_state, deliver, on_queue, zoom, get_nowait.
  pose proof (feed_one_format (arrivals env (gets p)) (tick_queue p)
                (arrivals_one_format _) Hq) as Hfed.
  cbn [snd fst tick_queue set_gets set_tick_queue].
  destruct (feed _ _) as [r q]. simpl in *.
  destruct (items q) as [|x rest] eqn:Hitems.
  - eexists. split_and!; [| |left; reflexivity]; simpl; [done | by rewrite Hitems].
  - apply Forall_cons_1 in Hfed as [Hx Hrest].
    eexists. split_and!; [| |right; eexists; split; [reflexivity | exact Hx]]; done.
Qed.

Lemma drain_one_format (room : nat) (flush_interval start : Q) (batch : list Tick) p :
  Forall (one_format fraction) batch →
  Forall (one_format fraction) (items (tick_queue p)) →
  ∃ b p', drain env room flush_interval start batch p = (Returned b, p') ∧
          store p' = store p ∧
          Forall (one_format fraction) b ∧
          Forall (one_format fraction) (items (tick_queue p')).
Proof.
  revert batch p. induction room as [|room IH]; intros batch p Hb Hq; simpl.
  - unfold py_ret. eexists _, _. done.
  - unfold py_bind at 1. unfold time_ at 1.
    destruct (Qlt_bool _ _); [|unfold py_ret; eexists _, _; done].
    unfold py_bind at 1, try_except, py_bind at 1.
    destruct (queue_get_one_format (set_clock_reads (S (clock_reads p)) p) Hq)
      as (p1 & Hst & Hq1 & [Hget | (item & Hget & Hitem)]); rewrite Hget.
    + unfold py_ret. eexists _, _. done.
    + unfold py_ret at 1.
      destruct (IH (batch ++ [item]) p1) as (b & p' & Hd & Hst' & Hb' & Hq').
      { apply Forall_app. split; [done | by constructor]. }
      { done. }
      exists b, p'. split_and!; [exact Hd | by rewrite Hst', Hst | done | done].
Qed.

Lemma transaction_works (stmt : Z → Database → Database) s :
  created (db s) = true →
  transaction (db_env env) (λ now, if_created (stmt now)) s =
    (Returned (), {| db := stmt (sqlite_now (db_env env) (connections s)) (db s);
                     connections := S (connections s) |}).
Proof. intros Hcr. unfold transaction, if_created. by rewrite store_works, Hcr. Qed.

Lemma insert_or_replace_bars_works (table : BarTable) (bars : list Bar) s :
  created (db s) = true →
  ∃ s', insert_or_replace_bars (db_env env) table bars s = (Returned (), s') ∧
        created (db s') = true.
Proof.
  intros Hcr. destruct bars as [|b bars]; [by exists s|].
  unfold insert_or_replace_bars.
  rewrite (transaction_works (λ _ d, set_bar_rows table _ d)) by done.
  eexists. split; [done|]. simpl. by destruct table.
Qed.

Lemma aggregate_works (batch : list Tick) s :
  created (db s) = true → Forall (one_format fraction) batch →
  ∃ s', _aggregate_and_store_bars float_sum (db_env env) batch s = (Returned (), s') ∧
        created (db s') = true.
Proof.
  intros Hcr Hall. unfold _aggregate_and_store_bars.
  destruct batch as [|t0 batch]; [by exists s|].
  rewrite (to_datetime_one_format _ Hall).
  generalize (t0 :: batch). intros df. clear Hall.
  revert s Hcr. induction timeframes as [|tf tfs IH]; intros s Hcr; simpl.
  - by exists s.
  - unfold py_bind.
    destruct (insert_or_replace_bars_works (BAR_TABLES tf) (grouped float_sum tf df) s Hcr)
      as (s1 & Hs1 & Hcr1).
    destruct (grouped float_sum tf df) as [|b bars].
    + unfold py_ret. by apply IH.
    + rewrite Hs1. by apply IH.
Qed.

(** A cycle in which the store works and that finds ticks of one format
    returns, and leaves things so. *)
Lemma flush_cycle_works (batch_size : nat) (flush_interval : Q)
    (retention_hours : option N) (last_prune : Q) p :
  created (db (store p)) = true →
  Forall (one_format fraction) (items (tick_queue p)) →
  ∃ lp' p', flush_cycle float_sum env batch_size flush_interval retention_hours
              last_prune p = (Returned lp', p') ∧
            created (db (store p')) = true ∧
            Forall (one_format fraction) (items (tick_queue p')).
Proof.
  intros Hcr Hq. unfold flush_cycle. unfold py_bind at 1. unfold time_ at 1.
  unfold py_bind at 1.
  destruct (drain_one_format batch_size flush_interval
              (time_time env (clock_reads p)) [] (set_clock_reads (S (clock_reads p)) p))
    as (b & p1 & -> & Hst & Hb & Hq1); [done | done |].
  assert (Hcr1 : created (db (store p1)) = true) by by rewrite Hst.
  assert (Hstep : ∃ p2,
    match b with
    | [] => py_ret ()
    | _ => do_ on_store (insert_ticks_bulk (db_env env) b);
           on_store (_aggregate_and_store_bars float_sum (db_env env) b)
    end p1 = (Returned (), p2) ∧
    created (db (store p2)) = true ∧ tick_queue p2 = tick_queue p1).
  { destruct b as [|t b]; [by exists p1|].
    unfold py_bind, on_store, zoom, insert_ticks_bulk.
    rewrite (transaction_works (λ _ d, set_ticks _ d)) by done.
    cbn [store set_store].
    destruct (aggregate_works (t :: b)
                {| db := set_ticks (ticks (db (store p1)) ++ map tick_row (t :: b))
                           (db (store p1));
                   connections := S (connections (store p1)) |}) as (s' & -> & Hcr');
      [done | done |].
    eexists. split; [done|]. done. }
  destruct Hstep as (p2 & Hp2 & Hcr2 & Hq2). unfold py_bind at 1. rewrite Hp2.
  assert (Hq2' : Forall (one_format fraction) (items (tick_queue p2))) by by rewrite Hq2.
  destruct (truthy retention_hours) eqn:Htruthy; [|unfold py_ret; eexists _, _; done].
  unfold py_bind at 1, time_ at 1.
  destruct (Qlt_bool _ _); [|unfold py_ret; eexists _, _; done].
  unfold py_bind, on_store, zoom, prune_ticks_older_than.
  destruct retention_hours as [h|]; [|done].
  cbn [store set_clock_reads].
  rewrite (transaction_works (λ now d, set_ticks _ d)) by done.
  unfold time_. eexists _, _. done.
Qed.

Lemma flush_cycles_work (batch_size : nat) (flush_interval : Q)
    (retention_hours : option N) (cycles : nat) (last_prune : Q) p :
  created (db (store p)) = true →
  Forall (one_format fraction) (items (tick_queue p)) →
  fst (flush_cycles float_sum env batch_size flush_interval retention_hours cycles
         last_prune p) = Returned ().
Proof.
  revert last_prune p. induction cycles as [|n IH]; intros lp p Hcr Hq; [done|].
  simpl. unfold py_bind.
  destruct (flush_cycle_works batch_size flush_interval retention_hours lp p Hcr Hq)
    as (lp' & p' & -> & Hcr' & Hq').
  by apply IH.
Qed.
End one_format.

Section loop_ends.
Context (float_sum : list Q → Q) (env : Env).

Lemma flush_cycles_discipline (batch_size : nat) (flush_interval : Q)
    (retention_hours : option N) (cycles : nat) (last_prune : Q) :
  flusher_discipline env
    (flush_cycles float_sum env batch_size flush_interval retention_hours cycles last_prune).
Proof.
  revert last_prune. induction cycles as [|n IH]; intros lp; simpl.
  - apply flusher_discipline_ret.
  - apply flusher_discipline_bind; [apply flush_cycle_discipline | apply IH].
Qed.

(** The loop creates the tables, reads the clock and turns. *)
Lemma flush_loop_cases (batch_size : nat) (flush_interval : Q)
    (retention_hours : option N) (cycles : nat) (p : Process) :
  _flush_loop float_sum env batch_size flush_interval retention_hours cycles p =
    if io_fails (db_env env) (connections (store p))
    then (Raised (OperationalError "database is locked"),
          set_store {| db := db (store p); connections := S (connections (store p)) |} p)
    else
      let p0 := set_store {| db := sql_create_tables (db (store p));
                             connections := S (connections (store p)) |} p in
      flush_cycles float_sum env batch_size flush_interval retention_hours cycles
        (time_time env (clock_reads p0)) (set_clock_reads (S (clock_reads p0)) p0).
Proof.
  unfold _flush_loop, py_bind at 1, on_store, zoom, create_tables, transaction.
  destruct (io_fails (db_env env) (connections (store p))); done.
Qed.
End loop_ends.

(** X13.  How the flush loop can end.  If [_flush_loop] raises, then
    either a connection to the store has failed, the last one that it
    opened, and the exception is SQLite's, or the exception is a
    [ValueError]: the one of [pd.to_datetime] on a batch whose ISO texts are
    not of one format (with and without a fraction of a second) or hold an
    instant out of bounds.  As long as no connection to the store fails and
    the ticks that are queued or arrive are of one format, the loop keeps
    turning: for any number of turns one watches, it has not raised. *)
Theorem flush_loop_runs_while_store_works (float_sum : list Q → Q) (env : Env)
    (batch_size : nat) (flush_interval : Q) (retention_hours : option N) (cycles : nat)
    (p : Process) :
  let r := _flush_loop float_sum env batch_size flush_interval retention_hours cycles p in
  (∀ e, fst r = Raised e →
        (e = OperationalError "database is locked" ∧
         ∃ n, connections (store (snd r)) = S n ∧ (connections (store p) ≤ n)%nat ∧
              io_fails (db_env env) n = true) ∨
        (∃ msg, e = ValueError msg)) ∧
  ((∀ n, io_fails (db_env env) n = false) →
   ∀ fraction, feed_of_one_format env fraction p → fst r = Returned ()).
Proof.
  intros r. subst r. rewrite flush_loop_cases. split.
  - intros e.
    destruct (io_fails (db_env env) (connections (store p))) eqn:Hio.
    { simpl. intros [= <-]. left. split; [done|]. exists (connections (store p)).
      split_and!; [done | lia | done]. }
    cbv zeta. set (p0 := set_store _ p). set (p1 := set_clock_reads _ p0).
    pose proof (flush_cycles_discipline float_sum env batch_size flush_interval
                  retention_hours cycles (time_time env (clock_reads p0)) p1) as Hd.
    destruct (flush_cycles _ _ _ _ _ _ _ p1) as [[u|e'] p2]; [done|].
    destruct Hd as (_ & _ & _ & He); [done|].
    intros [= <-]. simpl in *.
    destruct He as [(-> & n & Hn & Hle & Hn') | Hv]; [|by right].
    left. split; [done|]. exists n. split_and!; [done | lia | done].
  - intros Hio fraction [Hq Harr]. rewrite Hio. cbv zeta.
    by apply (flush_cycles_work float_sum env fraction Hio Harr).
Qed.

Lemma flush_loop_runs_while_store_works_witness :
  let r := _flush_loop exact_sum steady_seconds 2 (5 # 1) (Some 6%N) 3 initial_process in
  fst r = Returned () ∧ stored_ticks (snd r) = 6%nat.
Proof.
  intros r. split; [|reflexivity].
  apply (proj2 (flush_loop_runs_while_store_works exact_sum steady_seconds 2 (5 # 1)
                  (Some 6%N) 3 initial_process) (λ _, eq_refl) false).
  split; [constructor|]. intros n. constructor; [|constructor].
  unfold one_format, pandas_years, has_fraction.
  cbn [tick_of_message tick_time msg_T].
  assert (Hn : 0 ≤ Z.of_nat (Nat.min n 3600) ≤ 3600) by lia.
  split; [lia|].
  rewrite Z.mul_comm, Z_mod_plus_full. reflexivity.
Defined.

(** * Further properties of the connector and of the registries *)

Section connector_passes.
Implicit Types (c : Connector) (wire : Feed).

Lemma passes_made_spec wire (passes n : nat) :
  let k := passes_made wire passes n in
  (k ≤ passes)%nat ∧
  (∀ i, (n ≤ i < n + k)%nat → stop_is_set wire i = false) ∧
  ((k < passes)%nat → stop_is_set wire (n + k) = true).
Proof.
  revert n. induction passes as [|m IH]; intros n; simpl.
  - split_and!; [lia | intros i Hi; lia | lia].
  - destruct (stop_is_set wire n) eqn:Hstop.
    + split_and!; [lia | intros i Hi; lia | intros _; by rewrite Nat.add_0_r].
    + destruct (IH (S n)) as (Hle & Hrun & Hend). split_and!.
      * lia.
      * intros i Hi. destruct (decide (i = n)) as [->|Hne]; [done|]. apply Hrun. lia.
      * intros Hlt. replace (n + S (passes_made wire m (S n)))%nat
          with (S n + passes_made wire m (S n))%nat by lia. apply Hend. lia.
Qed.

(** The loop, whatever the connections do: one sleep after each, until a
    test finds the stop event set. *)
Lemma socket_loop_passes wire (passes : nat) (b : Z) c :
  1 ≤ b →
  socket_loop wire passes b c =
    (Returned (),
     {| attempts := attempts c + passes_made wire passes (attempts c);
        slept := slept c ++ map (λ i, Z.min (b * 2 ^ Z.of_nat (S i)) 30)
                              (seq 0 (passes_made wire passes (attempts c))) |}).
Proof.
  revert b c. induction passes as [|n IH]; intros b c Hb.
  - simpl. unfold py_ret. rewrite app_nil_r, Nat.add_0_r. by destruct c.
  - cbn [socket_loop passes_made]. unfold py_bind at 1. unfold get_state at 1.
    destruct (stop_is_set wire (attempts c)).
    { unfold py_ret. simpl. rewrite app_nil_r, Nat.add_0_r. by destruct c. }
    unfold py_bind at 1. unfold try_except, py_bind at 1, run_forever.
    assert (Hb' : 1 ≤ Z.min (b * 2) 30) by lia.
    assert (Hrest : ∀ c', attempts c' = S (attempts c) →
              slept c' = slept c ++ [Z.min (b * 2) 30] →
              socket_loop wire n (Z.min (b * 2) 30) c' =
                (Returned (),
                 {| attempts := attempts c + S (passes_made wire n (S (attempts c)));
                    slept := slept c ++
                      map (λ i, Z.min (b * 2 ^ Z.of_nat (S i)) 30)
                          (seq 0 (S (passes_made wire n (S (attempts c))))) |})).
    { intros c' Hatt Hslept.
      rewrite (IH _ _ Hb'). rewrite Hatt, Hslept. do 2 f_equal; [lia|].
      rewrite <- app_assoc. f_equal. cbn [seq map app]. f_equal.
      rewrite <- seq_shift, map_map.
      apply map_ext. intros i. apply backoff_step. lia. }
    destruct (connection_raises wire (attempts c)); cbn [py_ret];
      unfold py_bind at 1, sleep at 1; apply Hrest; reflexivity.
Qed.
End connector_passes.

(** X14.  The connector, for any feed and any number of passes one
    watches: it never raises; it sleeps once after every connection, be it
    closed or failed, and the waits are 2, 4, 8, 16, 30, 30, ... in this
    order whatever the connections did (a connection that worked does not
    bring the wait back down); it connects as long as its tests find the
    stop event clear, and not once more after a test found it set. *)
Theorem start_socket_schedule (wire : Feed) (passes : nat) :
  let r := _start_socket wire passes new_connector in
  let c := snd r in
  fst r = Returned () ∧
  slept c = backoff_schedule 2 (attempts c) ∧
  (attempts c ≤ passes)%nat ∧
  (∀ i, (i < attempts c)%nat → stop_is_set wire i = false) ∧
  ((attempts c < passes)%nat → stop_is_set wire (attempts c) = true).
Proof.
  unfold _start_socket. rewrite socket_loop_passes by lia.
  cbn [fst snd attempts slept new_connector app Nat.add].
  destruct (passes_made_spec wire passes 0) as (Hle & Hrun & Hend).
  split_and!.
  - done.
  - unfold backoff_schedule. apply map_ext. intros i.
    rewrite Nat2Z.inj_succ, Z.pow_succ_r by lia. f_equal. lia.
  - done.
  - intros i Hi. apply Hrun. lia.
  - exact Hend.
Qed.

Section registry_wiring.
Implicit Types (p : Process) (symbol : string).

Lemma alter_last {A} (f : A → A) (l : list A) (x : A) :
  alter f (length l) (l ++ [x]) = l ++ [f x].
Proof. pose proof (alter_app_r f l [x] 0) as H. by rewrite Nat.add_0_r in H. Qed.

(** [_ensure_flush_thread] leaves a live flush thread and touches no
    other object. *)
Lemma ensure_flush_thread_effect (batch_size : nat) (flush_interval : Q)
    (retention_hours : option N) p :
  ∃ p' more,
    _ensure_flush_thread batch_size flush_interval retention_hours p = (Returned (), p') ∧
    threads p' = threads p ++ more ∧
    flush_alive_now p' = true ∧
    (flush_alive_now p = true → p' = p) ∧
    _stream_threads p' = _stream_threads p ∧ _stop_flags p' = _stop_flags p ∧
    events p' = events p ∧ tick_queue p' = tick_queue p ∧ store p' = store p.
Proof.
  unfold _ensure_flush_thread, py_bind, get_state.
  destruct (flush_alive_now p) eqn:Halive.
  - exists p, []. rewrite app_nil_r. split_and!; done.
  - eexists _, [_]. unfold new_thread, thread_start. cbn [fst snd].
    split; [reflexivity|]. cbn [threads set_threads set_flush_thread].
    rewrite alter_last. split_and!; try done.
    unfold flush_alive_now, is_alive. simpl.
    by rewrite lookup_app_r, Nat.sub_diag by lia.
Qed.

Lemma flush_alive_now_app p p' (more : list Thread) :
  threads p' = threads p ++ more → _flush_thread p' = _flush_thread p →
  flush_alive_now p = true → flush_alive_now p' = true.
Proof.
  unfold flush_alive_now, is_alive. intros -> ->.
  destruct (_flush_thread p) as [t|]; [|done].
  destruct (threads p !! t) as [th|] eqn:Hth; [|done].
  by rewrite (lookup_app_l_Some _ _ _ _ Hth).
Qed.

(** A start of a symbol that is not active, when [create_tables] works. *)
Lemma start_stream_effect env symbol p :
  symbol ∉ dom (_stream_threads p) →
  io_fails (db_env env) (connections (store p)) = false →
  ∃ p' th before,
    start_stream env symbol p = (Returned (), p') ∧
    threads p' = before ++ [{| target := StartSocket symbol (length (events p)); alive := true |}] ∧
    th = length before ∧
    threads p `prefix_of` before ∧
    events p' = events p ++ [false] ∧
    _stream_threads p' = <[symbol := th]> (_stream_threads p) ∧
    _stop_flags p' = <[symbol := length (events p)]> (_stop_flags p) ∧
    flush_alive_now p' = true ∧
    tick_queue p' = tick_queue p.
Proof.
  intros Hin Hio. unfold start_stream, py_bind at 1, get_state at 1.
  rewrite decide_False by done.
  unfold py_bind at 1, on_store, zoom, create_tables, transaction. rewrite Hio.
  cbn [fst snd].
  set (p0 := set_store _ p).
  destruct (ensure_flush_thread_effect default_batch_size default_flush_interval
              default_retention_hours p0)
    as (p1 & more & Hens & Hthreads & Halive & _ & Hst & Hsf & Hev & Hq & _).
  unfold py_bind at 1. rewrite Hens.
  unfold py_bind, new_event, new_thread, thread_start. cbn [fst snd].
  eexists _, _, (threads p1). split; [reflexivity|].
  cbn [threads events _stream_threads _stop_flags tick_queue set_threads set_events
       set_stream_threads set_stop_flags].
  rewrite alter_last, Hev, Hst, Hsf, Hq. split_and!; try done.
  - rewrite Hthreads. by apply prefix_app_r.
  - unfold flush_alive_now, is_alive in *. simpl.
    destruct (_flush_thread p1) as [t|]; [|done].
    destruct (threads p1 !! t) as [th|] eqn:Hth; [|done].
    by rewrite (lookup_app_l_Some _ _ _ _ Hth).
Qed.

Lemma wired_initial : wired initial_process.
Proof. split; [reflexivity|]. intros symbol th Hth. simpl in Hth. by rewrite lookup_empty in Hth. Qed.

Lemma start_stream_wired env symbol p : wired p → wired (snd (start_stream env symbol p)).
Proof.
  intros [Hal Hw].
  destruct (decide (symbol ∈ dom (_stream_threads p))) as [Hin|Hin].
  { rewrite start_stream_active by done. by split. }
  destruct (io_fails (db_env env) (connections (store p))) eqn:Hio.
  { unfold start_stream, py_bind at 1, get_state at 1. rewrite decide_False by done.
    unfold py_bind at 1, on_store, zoom, create_tables, transaction. rewrite Hio.
    split; [exact Hal|]. exact Hw. }
  destruct (start_stream_effect env symbol p Hin Hio)
    as (p' & th & before & -> & Hth & -> & Hpre & Hev & Hst & Hsf & _ & _).
  cbn [snd]. split.
  { unfold aligned in *. rewrite Hst, Hsf, !dom_insert_L. congruence. }
  intros symbol' th'. rewrite Hst, Hsf, Hth, Hev.
  destruct (decide (symbol = symbol')) as [<-|Hne].
  - rewrite !lookup_insert_eq. intros [= <-].
    eexists _, _. split_and!; [|done|rewrite length_app; simpl; lia].
    by rewrite lookup_app_r, Nat.sub_diag by lia.
  - rewrite !lookup_insert_ne by done. intros Hth'.
    destruct (Hw symbol' th' Hth') as (ev & a & Ht & Hf & Hlen).
    exists ev, a. split_and!; [|done|rewrite length_app; simpl; lia].
    apply lookup_app_l_Some. destruct Hpre as [more ->]. by apply lookup_app_l_Some.
Qed.

Lemma stop_stream_wired symbol p : wired p → wired (snd (stop_stream symbol p)).
Proof.
  intros [Hal Hw].
  destruct (decide (symbol ∈ dom (_stream_threads p))) as [Hin|Hin].
  2: { rewrite stop_stream_inactive by done. by split. }
  unfold stop_stream, py_bind, get_state. rewrite decide_True by done.
  apply elem_of_dom in Hin as [th Hth].
  destruct (Hw symbol th Hth) as (ev & a & Ht & Hf & Hlen). rewrite Hf.
  cbn [snd fst event_set]. split.
  { unfold aligned in *. simpl. rewrite !dom_delete_L. congruence. }
  intros symbol' th'. simpl.
  destruct (decide (symbol = symbol')) as [<-|Hne].
  - by rewrite lookup_delete_eq.
  - rewrite !lookup_delete_ne by done. intros Hth'.
    destruct (Hw symbol' th' Hth') as (ev' & a' & Ht' & Hf' & Hlen').
    exists ev', a'. by rewrite length_insert.
Qed.

Lemma calls_wired env (cs : list Call) p : wired p → wired (calls env cs p).
Proof.
  revert p. induction cs as [|c cs IH]; intros p Hw; simpl; [done|].
  apply IH. destruct c; simpl; [by apply start_stream_wired | by apply stop_stream_wired].
Qed.
End registry_wiring.

(** X15.  After any sequence of calls, stopping an active symbol sets
    the very event that the symbol's connector thread was given to test,
    takes the symbol out of both registries, and leaves the thread objects
    as they are (the thread itself is not ended by the call). *)
Theorem stop_stream_sets_the_threads_event (env : Env) (cs : list Call)
    (symbol : string) (th : nat) :
  let p := calls env cs initial_process in
  _stream_threads p !! symbol = Some th →
  ∃ ev a p',
    threads p !! th = Some {| target := StartSocket symbol ev; alive := a |} ∧
    stop_stream symbol p = (Returned (), p') ∧
    events p' !! ev = Some true ∧
    _stream_threads p' !! symbol = None ∧
    _stop_flags p' !! symbol = None ∧
    threads p' = threads p.
Proof.
  intros p Hth.
  assert (Hw : wired p) by apply calls_wired, wired_initial.
  destruct Hw as [_ Hw]. destruct (Hw symbol th Hth) as (ev & a & Ht & Hf & Hlen).
  exists ev, a. eexists. split; [exact Ht|].
  unfold stop_stream, py_bind, get_state.
  rewrite decide_True by (apply elem_of_dom; eauto). rewrite Hf.
  cbn [fst snd event_set]. split; [reflexivity|]. simpl.
  rewrite !lookup_delete_eq. split_and!; try done.
  by apply list_lookup_insert_eq.
Qed.

Lemma stop_stream_sets_the_threads_event_witness :
  let p := calls steady [Start "btcusdt"; Start "ethusdt"] initial_process in
  ∃ ev p', stop_stream "ethusdt" p = (Returned (), p') ∧ events p' !! ev = Some true ∧
           events p !! ev = Some false.
Proof.
  intros p.
  destruct (stop_stream_sets_the_threads_event steady [Start "btcusdt"; Start "ethusdt"]
              "ethusdt" 2%nat) as (ev & a & p' & Ht & Hstop & Hev & _);
    [reflexivity|].
  exists ev, p'. split; [exact Hstop|]. split; [exact Hev|].
  vm_compute in Ht. injection Ht as <- _. reflexivity.
Defined.

(** X16.  Starting a symbol that is not active.  If [create_tables]
    fails, the error is raised and nothing is registered or started.
    Otherwise the call returns with the symbol registered, its connector
    thread alive and the flush thread alive, whether or not a flush thread
    was alive before; the buffer is not touched. *)
Theorem start_stream_starts_threads (env : Env) (symbol : string) (p : Process) :
  symbol ∉ dom (_stream_threads p) →
  if io_fails (db_env env) (connections (store p)) then
    ∃ e p', start_stream env symbol p = (Raised e, p') ∧
            threads p' = threads p ∧
            _stream_threads p' = _stream_threads p ∧
            _stop_flags p' = _stop_flags p ∧
            _flush_thread p' = _flush_thread p
  else
    ∃ p' th, start_stream env symbol p = (Returned (), p') ∧
             _stream_threads p' !! symbol = Some th ∧
             is_alive th p' = true ∧
             flush_alive (get_status p') = true ∧
             symbol ∈ active_symbols (get_status p') ∧
             tick_queue p' = tick_queue p.
Proof.
  intros Hin. destruct (io_fails (db_env env) (connections (store p))) eqn:Hio.
  - unfold start_stream, py_bind at 1, get_state at 1. rewrite decide_False by done.
    unfold py_bind at 1, on_store, zoom, create_tables, transaction. rewrite Hio.
    eexists _, _. split_and!; reflexivity.
  - destruct (start_stream_effect env symbol p Hin Hio)
      as (p' & th & before & Hstart & Hth & -> & _ & _ & Hst & _ & Halive & Hq).
    exists p', (length before). split_and!; try done.
    + rewrite Hst. apply lookup_insert_eq.
    + unfold is_alive. rewrite Hth. by rewrite lookup_app_r, Nat.sub_diag by lia.
    + unfold get_status. cbn [active_symbols]. apply elem_of_elements.
      apply elem_of_dom. rewrite Hst, lookup_insert_eq. eauto.
Qed.

Lemma start_stream_starts_threads_witness :
  ∃ p' th, start_stream steady "btcusdt" initial_process = (Returned (), p') ∧
           _stream_threads p' !! "btcusdt" = Some th ∧ is_alive th p' = true.
Proof.
  pose proof (start_stream_starts_threads steady "btcusdt" initial_process) as H.
  cbn [io_fails db_env steady reliable_store] in H.
  destruct H as (p' & th & Hstart & Hth & Halive & _).
  - simpl. apply not_elem_of_dom. apply lookup_empty.
  - exists p', th. split_and!; assumption.
Defined.

(** X17.  After any sequence of calls, starting a symbol that is not
    active and stopping it again gives back both registries as they were;
    what is left of the pair of calls is the new event, set, and the new
    thread objects. *)
Theorem start_then_stop_restores_registries (env : Env) (cs : list Call) (symbol : string) :
  let p := calls env cs initial_process in
  symbol ∉ dom (_stream_threads p) →
  io_fails (db_env env) (connections (store p)) = false →
  ∃ p1 p2,
    start_stream env symbol p = (Returned (), p1) ∧
    stop_stream symbol p1 = (Returned (), p2) ∧
    _stream_threads p2 = _stream_threads p ∧
    _stop_flags p2 = _stop_flags p ∧
    events p2 = events p ++ [true] ∧
    threads p `prefix_of` threads p2.
Proof.
  intros p Hin Hio.
  assert (Hal : aligned p) by (apply calls_aligned; reflexivity).
  destruct (start_stream_effect env symbol p Hin Hio)
    as (p1 & th & before & Hstart & Hth & -> & Hpre & Hev & Hst & Hsf & _ & _).
  exists p1. eexists. split; [exact Hstart|].
  unfold stop_stream, py_bind, get_state.
  rewrite decide_True by (apply elem_of_dom; rewrite Hst, lookup_insert_eq; eauto).
  rewrite Hsf, lookup_insert_eq. cbn [fst snd event_set].
  split; [reflexivity|]. simpl. rewrite Hst, Hsf, Hev, Hth, !delete_insert_eq.
  split_and!.
  - apply delete_id. by apply not_elem_of_dom.
  - apply delete_id. apply not_elem_of_dom. by rewrite <- Hal.
  - pose proof (insert_app_r (events p) [false] 0 true) as H.
    by rewrite Nat.add_0_r in H.
  - by apply prefix_app_r.
Qed.

Lemma start_then_stop_restores_registries_witness :
  let p := calls steady [Start "btcusdt"] initial_process in
  ∃ p1 p2, start_stream steady "ethusdt" p = (Returned (), p1) ∧
           stop_stream "ethusdt" p1 = (Returned (), p2) ∧
           _stream_threads p2 = _stream_threads p.
Proof.
  intros p.
  destruct (start_then_stop_restores_registries steady [Start "btcusdt"] "ethusdt")
    as (p1 & p2 & H1 & H2 & Hst & _).
  - vm_compute. intros H. discriminate H.
  - reflexivity.
  - exists p1, p2. split_and!; assumption.
Defined.

(** * Further properties of the analytics *)

Lemma div_nan_r (x : float) : (x / nan)%float = nan.
Proof.
  apply Prim2SF_inj. rewrite div_spec.
  change (Prim2SF nan) with S754_nan.
  unfold SF64div, SFdiv. by destruct (Prim2SF x).
Qed.

(** X18.  [zscore] needs two values: on a series with fewer than two
    values that are not NaN (an empty one, a single bar, ...) the sample
    standard deviation is NaN and the z-score is NaN at every position,
    without any error. *)
Theorem zscore_needs_two_values (s : Series) :
  (length (notna s) ≤ 1)%nat →
  zscore s = Returned (map (λ _, nan) s).
Proof.
  intros Hcount. unfold zscore, std.
  destruct (Nat.leb_spec (length (notna s)) 1) as [_|Hgt]; [|lia].
  f_equal. apply map_ext. intros x. apply div_nan_r.
Qed.

Lemma zscore_needs_two_values_witness :
  zscore [5%float] = Returned [nan] ∧ zscore [nan; 3%float] = Returned [nan; nan].
Proof.
  split.
  - apply (zscore_needs_two_values [5%float]). vm_compute. lia.
  - apply (zscore_needs_two_values [nan; 3%float]). vm_compute. lia.
Defined.

(** * Further properties of the aggregation *)

Section coverage.
Context (float_sum : list Q → Q).
Implicit Types (t u : Tick) (l : list Tick) (k : string).

Lemma elem_of_insert_key k k' (keys : list string) :
  k' ∈ insert_key k keys ↔ k' = k ∨ k' ∈ keys.
Proof.
  induction keys as [|k0 keys IH]; simpl.
  - rewrite list_elem_of_singleton, elem_of_nil. tauto.
  - destruct (decide (k = k0)) as [->|Hne].
    + rewrite elem_of_cons. tauto.
    + destruct (String.ltb k k0).
      * rewrite !elem_of_cons. tauto.
      * rewrite !elem_of_cons, IH. tauto.
Qed.

(** The keys are kept in increasing order, hence without repetition. *)
Lemma insert_key_sorted k (keys : list string) :
  StronglySorted text_lt keys → StronglySorted text_lt (insert_key k keys).
Proof.
  induction keys as [|k0 keys IH]; simpl; intros Hs.
  - repeat constructor.
  - destruct (decide (k = k0)) as [->|Hne]; [done|].
    pose proof Hs as Hs0. apply StronglySorted_cons in Hs as [Hk0 Hs].
    destruct (String.ltb k k0) eqn:Hlt.
    + apply StronglySorted_cons. split; [|done].
      constructor; [done|]. eapply Forall_impl; [exact Hk0|].
      intros k1 Hk1. by eapply text_lt_trans.
    + apply StronglySorted_cons. split; [|by apply IH].
      apply Forall_forall. intros k1 Hk1. apply elem_of_insert_key in Hk1 as [->|Hk1].
      * destruct (text_trichotomy k k0) as [H|[H|H]]; [|done|done].
        unfold text_lt in H. congruence.
      * by eapply Forall_forall in Hk0.
Qed.

Lemma text_lt_irrefl k : ¬ text_lt k k.
Proof. intros H. by apply (text_lt_asym k k). Qed.

Lemma sorted_text_NoDup (keys : list string) : StronglySorted text_lt keys → NoDup keys.
Proof.
  induction keys as [|k keys IH]; intros Hs; [constructor|].
  apply StronglySorted_cons in Hs as [Hk Hs]. apply NoDup_cons. split; [|by apply IH].
  intros Hin. eapply Forall_forall in Hk; [|exact Hin]. by apply text_lt_irrefl in Hk.
Qed.

Lemma group_keys_sorted l : StronglySorted text_lt (group_keys l).
Proof.
  unfold group_keys. induction (map tick_symbol l) as [|k ks IH]; simpl; [constructor|].
  by apply insert_key_sorted.
Qed.

Lemma elem_of_group_keys k l : k ∈ group_keys l ↔ ∃ t, t ∈ l ∧ tick_symbol t = k.
Proof.
  unfold group_keys. induction l as [|t l IH]; simpl.
  - rewrite elem_of_nil. split; [done | by intros (t & Ht%elem_of_nil & _)].
  - rewrite elem_of_insert_key, IH. split.
    + intros [->|(u & Hu & Hk)]; [exists t; split; [left | done] | exists u; split; [by right | done]].
    + intros (u & Hu & Hk). apply elem_of_cons in Hu as [->|Hu]; [by left | right; eauto].
Qed.

Lemma stdlib_last_last {A} (l : list A) (d : A) : l ≠ [] → last l = Some (List.last l d).
Proof.
  induction l as [|a l IH]; [done|]. intros _.
  destruct l as [|b l]; [done|]. rewrite last_cons_cons. by apply IH.
Qed.

Lemma bin_start_mono (w a b : Z) : 0 < w → a ≤ b → a / w ≤ b / w.
Proof. intros Hw Hab. by apply Z.div_le_mono. Qed.

Lemma NoDup_window_starts (w first n : Z) :
  0 < w → NoDup (map (λ i, first + i * w) (seqZ 0 n)).
Proof.
  intros Hw. generalize (NoDup_seqZ 0 n). generalize (seqZ 0 n) as idx.
  induction idx as [|i idx IH]; intros Hnd; simpl; [constructor|].
  apply NoDup_cons in Hnd as [Hi Hnd]. apply NoDup_cons. split; [|by apply IH].
  intros Hin. apply elem_of_map in Hin as (j & Heq & Hj).
  assert (i = j) by nia. by subst.
Qed.

(** The windows of a group are distinct and hold every tick of it. *)
Lemma bins_NoDup (w : Z) l : 0 < w → NoDup (bins w l).
Proof.
  intros Hw. unfold bins. destruct l as [|t0 rest]; [constructor|].
  by apply NoDup_window_starts.
Qed.

Lemma bins_cover (w : Z) l t :
  0 < w → StronglySorted time_le l → t ∈ l → bin_start w (tick_time t) ∈ bins w l.
Proof.
  intros Hw Hs Ht. unfold bins. destruct l as [|t0 rest]; [by apply elem_of_nil in Ht|].
  cbv zeta. set (tl := List.last (t0 :: rest) t0).
  assert (Hlast : last (t0 :: rest) = Some tl) by by apply stdlib_last_last.
  assert (H0 : time_le t0 t) by by apply (sorted_head_least t0 (t0 :: rest)).
  assert (H1 : time_le t tl) by by apply (sorted_last_greatest tl (t0 :: rest)).
  unfold time_le, bin_start in *.
  apply elem_of_map. exists (tick_time t / w - tick_time t0 / w). split; [lia|].
  apply elem_of_seqZ.
  replace (tick_time tl / w * w - tick_time t0 / w * w)
    with ((tick_time tl / w - tick_time t0 / w) * w) by lia.
  rewrite Z.div_mul by lia.
  pose proof (bin_start_mono w _ _ Hw H0). pose proof (bin_start_mono w _ _ Hw H1). lia.
Qed.

Lemma rules_pos (tf : Timeframe) : 0 < rules tf.
Proof. by destruct tf. Qed.

(** A bucket that is not empty gives a row. *)
Lemma agg_row_some (symbol : string) (start : Z) l :
  l ≠ [] →
  ∃ bar, agg_row float_sum symbol start l = Some bar ∧
         bar_symbol bar = symbol ∧ bar_time bar = isoformat start ∧
         bar_volume bar = float_sum (map tick_qty l).
Proof.
  intros Hl. unfold agg_row, agg_first, agg_last. rewrite head_map, last_map.
  destruct l as [|t0 l]; [done|]. simpl head. simpl agg_max. simpl agg_min.
  destruct (last (t0 :: l)) as [t1|] eqn:Hlast.
  - simpl. eexists. split; [reflexivity|]. done.
  - apply last_None in Hlast. done.
Qed.

Lemma forallb_false {A} (f : A → bool) (xs : list A) :
  forallb f xs = false → ∃ x, x ∈ xs ∧ f x = false.
Proof.
  induction xs as [|x xs IH]; [done|]. simpl.
  destruct (f x) eqn:Hx; simpl.
  - intros (y & Hy & Hfy)%IH. exists y. split; [by right | done].
  - intros _. exists x. split; [left | done].
Qed.

(** In the frame, every tick is in the bucket of a bar. *)
Lemma tick_in_a_bar (tf : Timeframe) l t :
  t ∈ l →
  let start := bin_start (rules tf) (tick_time t) in
  ∃ bar, bar ∈ grouped float_sum tf l ∧
         bar_symbol bar = tick_symbol t ∧
         bar_time bar = isoformat start ∧
         t ∈ bucket_of (rules tf) (bar_symbol bar) start l.
Proof.
  intros Ht start.
  set (group := filter (λ u, tick_symbol u = tick_symbol t) l).
  assert (Hgroup : t ∈ group) by by apply list_elem_of_filter.
  assert (Hsorted : t ∈ sort_by_time group) by by rewrite sort_by_time_perm.
  assert (Hbin : start ∈ bins (rules tf) (sort_by_time group)).
  { apply bins_cover; [apply rules_pos | apply sort_by_time_sorted | done]. }
  assert (Hbucket : in_bin (rules tf) start (sort_by_time group) ≠ []).
  { intros Hnil. assert (Hin : t ∈ in_bin (rules tf) start (sort_by_time group))
      by by apply list_elem_of_filter.
    rewrite Hnil in Hin. by apply elem_of_nil in Hin. }
  destruct (agg_row_some (tick_symbol t) start _ Hbucket) as (bar & Hrow & Hsym & Htime & _).
  exists bar. split_and!; [|done|done|].
  - unfold grouped. apply list_elem_of_bind. exists (tick_symbol t). split.
    + unfold resample_group. apply list_elem_of_omap. exists start. by split.
    + apply elem_of_group_keys. eauto.
  - unfold bucket_of. apply list_elem_of_filter. rewrite Hsym. done.
Qed.
End coverage.

(** X19.  The aggregation of a batch of ticks of the years 1678 to 2261
    leaves no tick out, or fails as a whole.  Either the ISO texts of all
    the ticks are of the format of the tick [t] (all with a fraction of a
    second, or all without): then [pd.to_datetime] returns and, for every
    timeframe, [t] lies in the bucket of one of the bars produced, the bar
    of its symbol whose window holds its instant.  Or a tick of the batch
    has the other format: then [pd.to_datetime] raises, the step raises
    the same [ValueError] whatever the store, and stores nothing. *)
Theorem every_tick_is_in_a_bar (float_sum : list Q → Q) (tf : Timeframe)
    (batch : list Tick) (t : Tick) :
  Forall (λ u, pandas_years (tick_time u)) batch →
  t ∈ batch →
  let start := bin_start (rules tf) (tick_time t) in
  match to_datetime batch with
  | Returned df =>
      df = batch ∧
      (∀ u, u ∈ batch → has_fraction (tick_time u) = has_fraction (tick_time t)) ∧
      ∃ bar, bar ∈ grouped float_sum tf df ∧
             bar_symbol bar = tick_symbol t ∧
             bar_time bar = isoformat start ∧
             t ∈ bucket_of (rules tf) (bar_symbol bar) start batch
  | Raised e =>
      (∃ u, u ∈ batch ∧ has_fraction (tick_time u) ≠ has_fraction (tick_time t)) ∧
      (∃ msg, e = ValueError msg) ∧
      ∀ denv s, _aggregate_and_store_bars float_sum denv batch s = (Raised e, s)
  end.
Proof.
  intros Hyears Ht start.
  destruct (to_datetime batch) as [df|e] eqn:Hparse.
  - apply to_datetime_returned in Hparse as (-> & _ & Hformat).
    split; [done|]. split; [intros u Hu; by apply Hformat|].
    by apply tick_in_a_bar.
  - destruct batch as [|t0 batch]; [done|].
    assert (Hraise : ∀ denv s,
              _aggregate_and_store_bars float_sum denv (t0 :: batch) s = (Raised e, s)).
    { intros denv s. unfold _aggregate_and_store_bars. by rewrite Hparse. }
    unfold to_datetime in Hparse. rewrite (forallb_in_bounds _ Hyears) in Hparse.
    cbn [negb] in Hparse.
    destruct (forallb (same_format t0) (t0 :: batch)) eqn:Hf; [done|].
    injection Hparse as <-. split; [|split; [by eexists | done]].
    assert (Hu : ∃ u, u ∈ t0 :: batch ∧
                      has_fraction (tick_time u) ≠ has_fraction (tick_time t0)).
    { apply forallb_false in Hf as (u & Hu & Hne). exists u. split; [done|].
      intros Heq. unfold same_format in Hne. rewrite Heq in Hne.
      by destruct (has_fraction _). }
    destruct Hu as (u & Hu & Hne).
    destruct (decide (has_fraction (tick_time t) = has_fraction (tick_time t0))) as [Heq|Hdiff].
    + exists u. split; [done|]. by rewrite Heq.
    + exists t0. split; [left|]. congruence.
Qed.

Lemma every_tick_is_in_a_bar_witness :
  let t := {| tick_time := 61500; tick_symbol := "x"; tick_price := 5 # 1; tick_qty := 3 # 1 |} in
  let batch := [ {| tick_time := 400; tick_symbol := "x"; tick_price := 101 # 1;
                    tick_qty := 2 # 1 |}; t ] in
  ∃ bar, bar ∈ grouped exact_sum TF_1m batch ∧
         bar_time bar = "1970-01-01T00:01:00+00:00"%string.
Proof.
  intros t batch.
  assert (Hyears : Forall (λ u, pandas_years (tick_time u)) batch).
  { repeat constructor; unfold pandas_years; simpl; lia. }
  pose proof (every_tick_is_in_a_bar exact_sum TF_1m batch t Hyears) as H.
  destruct (to_datetime batch) as [df|e] eqn:Hparse;
    [|vm_compute in Hparse; discriminate Hparse].
  destruct H as (-> & _ & bar & Hbar & _ & Htime & _); [right; left|].
  exists bar. split; [exact Hbar | exact Htime].
Defined.

Section partition.
Context (float_sum : list Q → Q).
Implicit Types (t u : Tick) (l : list Tick).

Lemma bind_ext_in {A B} (f g : A → list B) (xs : list A) :
  (∀ x, x ∈ xs → f x = g x) → xs ≫= f = xs ≫= g.
Proof.
  induction xs as [|x xs IH]; intros Hfg; [done|].
  rewrite !bind_cons, (Hfg x) by left. f_equal. apply IH. intros y Hy. apply Hfg. by right.
Qed.

(** Rows sorted into classes by a key: the classes together are the rows,
    each once, when the keys are distinct and none is missing. *)
Lemma bind_filter_by_key {A K} `{EqDecision K} (f : A → K) (keys : list K) (xs : list A) :
  NoDup keys → (∀ x, x ∈ xs → f x ∈ keys) →
  keys ≫= (λ k, filter (λ x, f x = k) xs) ≡ₚ xs.
Proof.
  revert xs. induction keys as [|k keys IH]; intros xs Hnd Hcover.
  - destruct xs as [|x xs]; [done|].
    specialize (Hcover x (list_elem_of_here _ _)). by apply elem_of_nil in Hcover.
  - apply NoDup_cons in Hnd as [Hk Hnd]. rewrite bind_cons.
    etrans; [|apply (filter_app_complement (λ x, f x = k) xs)].
    apply Permutation_app; [done|].
    etrans; [|apply (IH (filter (λ x, ¬ f x = k) xs) Hnd)].
    + erewrite bind_ext_in; [reflexivity|]. intros k' Hk'. simpl.
      rewrite list_filter_filter. apply list_filter_iff.
      intros x. split; [intros Hf; split; [done | congruence] | by intros [? _]].
    + intros x Hx. apply list_elem_of_filter in Hx as [Hne Hx].
      specialize (Hcover x Hx). apply elem_of_cons in Hcover as [?|?]; done.
Qed.

Lemma bind_filter_nonempty {A B} (f : A → list B) (xs : list A) :
  filter (λ x, (0 < length (f x))%nat) xs ≫= f = xs ≫= f.
Proof.
  induction xs as [|x xs IH]; [done|].
  rewrite filter_cons, bind_cons. case_decide as Hx.
  - by rewrite bind_cons, IH.
  - rewrite IH. destruct (f x); [done | simpl in Hx; lia].
Qed.

(** The bucket of a window, as the aggregation sees it: in the order of
    the instants. *)
Lemma in_bin_bucket (w : Z) (symbol : string) (start : Z) l :
  in_bin w start (sort_by_time (filter (λ t, tick_symbol t = symbol) l)) =
    sort_by_time (bucket_of w symbol start l).
Proof.
  unfold in_bin, bucket_of. by rewrite filter_sort_by_time, list_filter_filter.
Qed.

Lemma sort_by_time_length l : length (sort_by_time l) = length l.
Proof. by rewrite sort_by_time_perm. Qed.

(** The bars of a group, window by window. *)
Lemma resample_group_windows (w : Z) (symbol : string) (sorted : list Tick)
    (starts : list Z) :
  Forall2 (λ start bar,
             bar_symbol bar = symbol ∧ bar_time bar = isoformat start ∧
             bar_volume bar = float_sum (map tick_qty (in_bin w start sorted)))
    (filter (λ start, (0 < length (in_bin w start sorted))%nat) starts)
    (omap (λ start, agg_row float_sum symbol start (in_bin w start sorted)) starts).
Proof.
  induction starts as [|start starts IH]; [constructor|].
  rewrite filter_cons. cbn [omap list_omap].
  destruct (in_bin w start sorted) as [|t0 bucket] eqn:Hbucket.
  - rewrite decide_False by (simpl; lia).
    change (agg_row float_sum symbol start []) with (@None Bar). exact IH.
  - rewrite decide_True by (simpl; lia).
    destruct (agg_row_some float_sum symbol start (t0 :: bucket))
      as (bar & -> & Hsym & Htime & Hvol); [done|].
    constructor; [|exact IH]. by rewrite Hbucket.
Qed.

Lemma windows_bars (tf : Timeframe) l :
  Forall2 (λ win bar,
             bar_symbol bar = win.1 ∧ bar_time bar = isoformat win.2 ∧
             bar_volume bar =
               float_sum (map tick_qty (sort_by_time (bucket_of (rules tf) win.1 win.2 l))))
    (windows tf l) (grouped float_sum tf l).
Proof.
  unfold windows, grouped. apply Forall2_bind, Forall_Forall2_diag, Forall_forall.
  intros symbol _. cbv zeta. apply Forall2_fmap_l. unfold resample_group.
  eapply Forall2_impl; [apply resample_group_windows|].
  intros start bar (Hsym & Htime & Hvol). simpl. by rewrite <- in_bin_bucket.
Qed.

Lemma windows_NoDup (tf : Timeframe) l : NoDup (windows tf l).
Proof.
  unfold windows. apply NoDup_bind.
  - intros k1 k2 [k start] _ _ Hk1 Hk2.
    apply list_elem_of_fmap in Hk1 as (? & [= -> _] & _).
    apply list_elem_of_fmap in Hk2 as (? & [= -> _] & _). done.
  - intros symbol _. cbv zeta. apply NoDup_fmap_2; [by intros ?? [= ->]|].
    apply NoDup_filter, bins_NoDup, rules_pos.
  - apply sorted_text_NoDup, group_keys_sorted.
Qed.

Lemma bind_bind {A B C} (f : A → list B) (g : B → list C) (xs : list A) :
  (xs ≫= f) ≫= g = xs ≫= (λ x, f x ≫= g).
Proof.
  induction xs as [|x xs IH]; [done|]. by rewrite !bind_cons, bind_app, IH.
Qed.

Lemma bind_perm_ext {A B} (f g : A → list B) (xs : list A) :
  (∀ x, f x ≡ₚ g x) → xs ≫= f ≡ₚ xs ≫= g.
Proof.
  intros Hfg. induction xs as [|x xs IH]; [done|].
  rewrite !bind_cons. by apply Permutation_app.
Qed.

(** The buckets of the windows of one symbol are the ticks of the symbol. *)
Lemma group_partition (w : Z) (symbol : string) l :
  0 < w →
  let sorted := sort_by_time (filter (λ t, tick_symbol t = symbol) l) in
  filter (λ start, (0 < length (in_bin w start sorted))%nat) (bins w sorted)
    ≫= (λ start, bucket_of w symbol start l)
  ≡ₚ filter (λ t, tick_symbol t = symbol) l.
Proof.
  intros Hw sorted.
  rewrite (list_filter_iff _ (λ start, (0 < length (bucket_of w symbol start l))%nat)).
  2:{ intros start. unfold sorted. by rewrite in_bin_bucket, sort_by_time_length. }
  rewrite (bind_filter_nonempty (λ start, bucket_of w symbol start l)).
  etrans; [|apply (bind_filter_by_key (λ t, bin_start w (tick_time t)) (bins w sorted))].
  - erewrite bind_ext_in; [reflexivity|]. intros start _. simpl.
    unfold bucket_of. by rewrite list_filter_filter.
  - by apply bins_NoDup.
  - intros t Ht. apply bins_cover; [done | apply sort_by_time_sorted |].
    unfold sorted. by rewrite sort_by_time_perm.
Qed.

Lemma windows_partition (tf : Timeframe) l :
  windows tf l ≫= (λ win, bucket_of (rules tf) win.1 win.2 l) ≡ₚ l.
Proof.
  unfold windows. rewrite bind_bind.
  etrans; [|apply (bind_filter_by_key tick_symbol (group_keys l) l)].
  - apply bind_perm_ext. intros symbol. cbv zeta. rewrite list_fmap_bind.
    apply (group_partition (rules tf) symbol l), rules_pos.
  - apply sorted_text_NoDup, group_keys_sorted.
  - intros t Ht. apply elem_of_group_keys. eauto.
Qed.
End partition.

(** X20.  For a batch of ticks of the years 1678 to 2261 that
    [pd.to_datetime] accepts, the bars of a timeframe count every tick
    once.  The bars are, in their order, those of the windows of the
    timeframe that hold a tick, symbol by symbol: no two bars have the same
    symbol and window, the volume of each is the sum, as pandas adds, of
    the quantities of its bucket in the order of their instants, and the
    buckets of all the bars together are the ticks of the batch, each
    once. *)
Theorem bars_count_every_tick_once (float_sum : list Q → Q) (tf : Timeframe)
    (batch df : list Tick) :
  Forall (λ t, pandas_years (tick_time t)) batch →
  to_datetime batch = Returned df →
  NoDup (windows tf df) ∧
  Forall2 (λ win bar,
             bar_symbol bar = win.1 ∧ bar_time bar = isoformat win.2 ∧
             bar_volume bar =
               float_sum (map tick_qty
                            (sort_by_time (bucket_of (rules tf) win.1 win.2 batch))))
    (windows tf df) (grouped float_sum tf df) ∧
  windows tf df ≫= (λ win, bucket_of (rules tf) win.1 win.2 batch) ≡ₚ batch.
Proof.
  intros _ [-> _]%to_datetime_returned. split_and!.
  - apply windows_NoDup.
  - apply windows_bars.
  - apply windows_partition.
Qed.

Lemma bars_count_every_tick_once_witness :
  let tick (ms : Z) (sym : string) :=
    {| tick_time := ms; tick_symbol := sym; tick_price := 5 # 1; tick_qty := 3 # 1 |} in
  let batch := [tick 61500 "y"; tick 400 "x"; tick 62500 "x"; tick 900 "x"] in
  windows TF_1s batch = [("x", 0); ("x", 62000); ("y", 61000)]%string ∧
  length (grouped exact_sum TF_1s batch) = 3%nat.
Proof.
  intros tick batch. split; [reflexivity|].
  destruct (bars_count_every_tick_once exact_sum TF_1s batch batch) as (_ & Hbars & _).
  - repeat constructor; unfold pandas_years; simpl; lia.
  - reflexivity.
  - apply Forall2_length in Hbars. by rewrite <- Hbars.
Defined.

(** * Properties of [services.py] and of the remaining helpers *)

Section sort_values.
Context {A : Type} (key : A → Z).
Implicit Types (r u : A) (l : list A).

Lemma insert_by_instant_perm r l : insert_by_instant key r l ≡ₚ r :: l.
Proof.
  induction l as [|u l IH]; simpl; [done|].
  destruct (key u <? key r); [|done].
  rewrite IH. apply Permutation_swap.
Qed.

Lemma sort_values_perm l : sort_values key l ≡ₚ l.
Proof.
  induction l as [|r l IH]; simpl; [done|].
  by rewrite insert_by_instant_perm, IH.
Qed.

Lemma insert_by_instant_sorted r l :
  StronglySorted (λ a b, key a ≤ key b) l →
  StronglySorted (λ a b, key a ≤ key b) (insert_by_instant key r l).
Proof.
  induction l as [|u l IH]; simpl; intros Hs.
  - repeat constructor.
  - apply StronglySorted_cons in Hs as [Hu Hs].
    destruct (Z.ltb_spec (key u) (key r)) as [Hlt|Hge].
    + apply StronglySorted_cons. split; [|by apply IH].
      rewrite insert_by_instant_perm. constructor; [lia | done].
    + apply StronglySorted_cons. split; [|by apply StronglySorted_cons].
      constructor; [done|].
      eapply Forall_impl; [exact Hu|]. intros v Hv. simpl in *. lia.
Qed.

Lemma sort_values_sorted l : StronglySorted (λ a b, key a ≤ key b) (sort_values key l).
Proof.
  induction l as [|r l IH]; simpl; [constructor|].
  by apply insert_by_instant_sorted.
Qed.

Lemma last_items_sorted (R : relation A) (n : nat) l :
  StronglySorted R l → StronglySorted R (last_items n l).
Proof.
  intros Hs. unfold last_items. rewrite <- (take_drop (length l - n) l) in Hs.
  by apply StronglySorted_app in Hs as (_ & _ & ?).
Qed.
End sort_values.

Section pair_bars.
Context (parse : list string → option (list Z)).
Implicit Types (s : Store) (env : DbEnv) (rows : list Bar) (frame : list (Z * Bar)).

Lemma prepare_bars_prepared rows frame :
  _prepare_bars parse rows = Returned frame → prepared parse rows frame.
Proof.
  unfold _prepare_bars, prepared. destruct rows as [|r rows].
  - intros [= <-]. split; [constructor | by left].
  - destruct (parse _) as [instants|] eqn:Hparse; [|done]. intros [= <-]. split.
    + apply (sort_values_sorted fst).
    + right. exists instants. split; [done|]. apply sort_values_perm.
Qed.

Lemma prepare_bars_returns rows :
  rows = [] ∨ is_Some (parse (map bar_time rows)) →
  ∃ frame, _prepare_bars parse rows = Returned frame.
Proof.
  unfold _prepare_bars. destruct rows as [|r rows]; [by eexists|].
  intros [?|[instants ->]]; [done | by eexists].
Qed.

Lemma last_items_suffix {A} (n : nat) (l : list A) : last_items n l `suffix_of` l.
Proof. exists (take (length l - n) l). unfold last_items. by rewrite take_drop. Qed.

(** The alignment of two prepared frames. *)
Lemma align_spec frame1 frame2 s :
  ∃ df1 df2,
    match frame1, frame2 with
    | [], _ | _, [] => py_ret (frame1, frame2)
    | _, _ =>
        if (Nat.min (length frame1) (length frame2) =? 0)%nat then py_ret (frame1, frame2)
        else py_ret (last_items (Nat.min (length frame1) (length frame2)) frame1,
                     last_items (Nat.min (length frame1) (length frame2)) frame2)
    end s = (Returned (df1, df2), s) ∧
    df1 `suffix_of` frame1 ∧ df2 `suffix_of` frame2 ∧
    (frame1 = [] ∨ frame2 = [] → df1 = frame1 ∧ df2 = frame2) ∧
    (frame1 ≠ [] → frame2 ≠ [] →
     length df1 = Nat.min (length frame1) (length frame2) ∧
     length df2 = Nat.min (length frame1) (length frame2)).
Proof.
  destruct frame1 as [|a1 f1].
  { exists [], frame2. split_and!; [by destruct frame2 | done | done | done | done]. }
  destruct frame2 as [|a2 f2].
  { exists (a1 :: f1), []. split_and!; done. }
  set (n := Nat.min _ _).
  assert (Hn : n ≠ 0%nat) by (unfold n; simpl; lia).
  destruct (Nat.eqb_spec n 0) as [?|_]; [done|].
  exists (last_items n (a1 :: f1)), (last_items n (a2 :: f2)).
  split_and!; [done | apply last_items_suffix | apply last_items_suffix | |].
  - intros [?|?]; done.
  - intros _ _. rewrite !last_items_length. unfold n. lia.
Qed.
End pair_bars.

(** X21.  [load_pair_bars].  When it returns, each of the two frames comes
    from what [load_bars] returned for its symbol: these rows, every one
    with the instant of its time text, put in the order of the instants and
    then cut to their last rows, as many as the shorter of the two has; if
    one of the two is empty, both are returned uncut.  It returns whenever
    both calls of [load_bars] return and [pd.to_datetime] accepts the time
    texts of both results. *)
Theorem load_pair_bars_aligns (env : DbEnv) (parse : list string → option (list Z))
    (symbol_1 symbol_2 : option string) (timeframe : string) (lookback_hours : option N)
    (s : Store) :
  (∀ df1 df2 s',
     load_pair_bars env parse symbol_1 symbol_2 timeframe lookback_hours s
       = (Returned (df1, df2), s') →
     ∃ rows1 s1 rows2 frame1 frame2,
       load_bars env timeframe symbol_1 lookback_hours s = (Returned rows1, s1) ∧
       load_bars env timeframe symbol_2 lookback_hours s1 = (Returned rows2, s') ∧
       prepared parse rows1 frame1 ∧ prepared parse rows2 frame2 ∧
       df1 `suffix_of` frame1 ∧ df2 `suffix_of` frame2 ∧
       (frame1 = [] ∨ frame2 = [] → df1 = frame1 ∧ df2 = frame2) ∧
       (frame1 ≠ [] → frame2 ≠ [] →
        length df1 = Nat.min (length frame1) (length frame2) ∧
        length df2 = Nat.min (length frame1) (length frame2))) ∧
  (∀ rows1 s1 rows2 s2,
     load_bars env timeframe symbol_1 lookback_hours s = (Returned rows1, s1) →
     load_bars env timeframe symbol_2 lookback_hours s1 = (Returned rows2, s2) →
     rows1 = [] ∨ is_Some (parse (map bar_time rows1)) →
     rows2 = [] ∨ is_Some (parse (map bar_time rows2)) →
     ∃ df1 df2,
       load_pair_bars env parse symbol_1 symbol_2 timeframe lookback_hours s
         = (Returned (df1, df2), s2)).
Proof.
  unfold load_pair_bars, py_bind. split.
  - intros df1 df2 s'.
    destruct (load_bars env timeframe symbol_1 lookback_hours s) as [[rows1|e] s1]; [|done].
    destruct (_prepare_bars parse rows1) as [frame1|e] eqn:Hp1; [|done].
    destruct (load_bars env timeframe symbol_2 lookback_hours s1) as [[rows2|e] s2] eqn:Hl2;
      [|done].
    destruct (_prepare_bars parse rows2) as [frame2|e] eqn:Hp2; [|done].
    cbv zeta.
    destruct (align_spec frame1 frame2 s2) as (d1 & d2 & -> & H1 & H2 & Hempty & Hlen).
    intros [= <- <- <-].
    exists rows1, s1, rows2, frame1, frame2.
    split_and!; try done; by apply prepare_bars_prepared.
  - intros rows1 s1 rows2 s2 -> Hload2 Hparse1 Hparse2.
    destruct (prepare_bars_returns parse rows1 Hparse1) as [frame1 ->].
    rewrite Hload2.
    destruct (prepare_bars_returns parse rows2 Hparse2) as [frame2 ->].
    cbv zeta.
    destruct (align_spec frame1 frame2 s2) as (d1 & d2 & -> & _). eauto.
Qed.

Lemma load_pair_bars_aligns_witness :
  let bar (ms : Z) (sym : string) :=
    {| bar_time := isoformat ms; bar_symbol := sym;
       bar_open := 1 # 1; bar_high := 1 # 1; bar_low := 1 # 1;
       bar_close := 1 # 1; bar_volume := 1 # 1 |} in
  let instants := [0; 60000; 120000] in
  let parse (texts : list string) :=
    Some (map (λ t, default 0 (head (filter (λ ms, isoformat ms = t) instants))) texts) in
  let s := snd (insert_or_replace_bars (reliable_store 0) bars_1m
                  [bar 120000 "btcusdt"; bar 0 "btcusdt"; bar 60000 "btcusdt";
                   bar 120000 "ethusdt"; bar 60000 "ethusdt"] fresh_store) in
  ∃ df1 df2 s',
    load_pair_bars (reliable_store 0) parse (Some "btcusdt") (Some "ethusdt")
      "1m" None s = (Returned (df1, df2), s') ∧
    length df1 = 2%nat ∧ length df2 = 2%nat.
Proof.
  intros bar instants parse s.
  destruct (load_pair_bars (reliable_store 0) parse (Some "btcusdt") (Some "ethusdt")
              "1m" None s) as [[[df1 df2]|e] s'] eqn:Hload;
    [|vm_compute in Hload; discriminate Hload].
  exists df1, df2, s'. split; [done|].
  destruct (proj1 (load_pair_bars_aligns (reliable_store 0) parse (Some "btcusdt")
                     (Some "ethusdt") "1m" None s) df1 df2 s' Hload)
    as (rows1 & s1 & rows2 & frame1 & frame2 & Hl1 & Hl2 & Hp1 & Hp2 & _ & _ & _ & Hlen).
  assert (Hn1 : length frame1 = 3%nat).
  { vm_compute in Hl1. injection Hl1 as <- _.
    destruct Hp1 as [_ [[? _]|(ins & Hins & ->)]]; [done|].
    vm_compute in Hins. injection Hins as <-. reflexivity. }
  assert (Hn2 : length frame2 = 2%nat).
  { vm_compute in Hl1. injection Hl1 as _ <-.
    vm_compute in Hl2. injection Hl2 as <- _.
    destruct Hp2 as [_ [[? _]|(ins & Hins & ->)]]; [done|].
    vm_compute in Hins. injection Hins as <-. reflexivity. }
  rewrite Hn1, Hn2 in Hlen. apply Hlen.
  - intros ->. discriminate Hn1.
  - intros ->. discriminate Hn2.
Defined.

(** X22.  [insert_tick] does not create the table: on a database where
    [create_tables] has never run it raises and stores nothing.  Where the
    table exists the row is appended, and a [load_ticks] of its symbol that
    follows returns the rows of that symbol that were there and the new
    one. *)
Theorem insert_tick_then_load_ticks (env : DbEnv) (time symbol : string) (price qty : Q)
    (s : Store) :
  io_fails env (connections s) = false →
  (created (db s) = false →
     ∃ s1, insert_tick env time symbol price qty s
             = (Raised (OperationalError "no such table"), s1) ∧
           db s1 = db s) ∧
  (created (db s) = true → symbol ≠ ""%string →
   io_fails env (S (connections s)) = false →
   io_fails env (S (S (connections s))) = false →
     ∃ s1 rows s2,
       insert_tick env time symbol price qty s = (Returned (), s1) ∧
       load_ticks env (Some symbol) None None s1 = (Returned rows, s2) ∧
       rows ≡ₚ filter (λ r, row_symbol r = symbol) (ticks (db s)) ++
                 [{| row_time := time; row_symbol := symbol;
                     row_price := price; row_qty := qty |}]).
Proof.
  intros Hio. unfold insert_tick, transaction, if_created. rewrite Hio. split.
  - intros ->. eexists. split; reflexivity.
  - intros -> Hsym Hio1 Hio2. eexists _, _, _. split; [reflexivity|].
    rewrite load_ticks_cases. cbn [connections db]. rewrite Hio1, Hio2.
    split; [reflexivity|].
    unfold select_ticks, where_symbol. rewrite (given_nonempty _ Hsym).
    cbn [given where_time_from sql_limit]. rewrite order_by_perm.
    destruct (db s); cbn. rewrite filter_app, filter_cons_True by done.
    by rewrite filter_nil.
Qed.

Lemma insert_tick_then_load_ticks_witness :
  ∃ s1 rows s2,
    insert_tick (reliable_store 0) "2024-01-01T00:00:00+00:00" "btcusdt" (42000 # 1) (1 # 2)
      {| db := sql_create_tables empty_db; connections := 1 |} = (Returned (), s1) ∧
    load_ticks (reliable_store 0) (Some "btcusdt") None None s1 = (Returned rows, s2) ∧
    rows ≡ₚ [{| row_time := "2024-01-01T00:00:00+00:00"; row_symbol := "btcusdt";
                row_price := 42000 # 1; row_qty := 1 # 2 |}].
Proof.
  destruct (insert_tick_then_load_ticks (reliable_store 0) "2024-01-01T00:00:00+00:00"
              "btcusdt" (42000 # 1) (1 # 2)
              {| db := sql_create_tables empty_db; connections := 1 |}) as [_ Hok];
    [reflexivity|].
  apply Hok; [reflexivity | discriminate | reflexivity | reflexivity].
Defined.

(** X23.  [_ensure_flush_thread] always returns with a live flush thread,
    which [health] reports, and with a live one it does nothing, whatever
    its arguments: a second call directly after the first changes nothing.
    When there was no live flush thread it creates exactly one thread, a
    flush loop with the arguments given. *)
Theorem ensure_flush_thread_once (batch_size batch_size' : nat)
    (flush_interval flush_interval' : Q) (retention_hours retention_hours' : option N)
    (p : Process) :
  ∃ p1,
    _ensure_flush_thread batch_size flush_interval retention_hours p = (Returned (), p1) ∧
    flush_alive (health p1) = true ∧
    _ensure_flush_thread batch_size' flush_interval' retention_hours' p1
      = (Returned (), p1) ∧
    (flush_alive (health p) = true → p1 = p) ∧
    (flush_alive (health p) = false →
       threads p1 = threads p ++
         [{| target := FlushLoop batch_size flush_interval retention_hours;
             alive := true |}] ∧
       _flush_thread p1 = Some (length (threads p))).
Proof.
  unfold health, get_status. cbn [flush_alive].
  assert (Hidle : ∀ b f r q, flush_alive_now q = true →
                    _ensure_flush_thread b f r q = (Returned (), q)).
  { intros b f r q Hq. unfold _ensure_flush_thread, py_bind, get_state. by rewrite Hq. }
  destruct (flush_alive_now p) eqn:Halive.
  - exists p. split_and!; [by apply Hidle | done | by apply Hidle | done | done].
  - unfold _ensure_flush_thread at 1. unfold py_bind, get_state. rewrite Halive.
    unfold new_thread, thread_start. cbn [fst snd].
    eexists. split; [reflexivity|].
    cbn [threads set_threads set_flush_thread _flush_thread].
    rewrite alter_last.
    assert (Hnow : flush_alive_now
              (set_threads
                 (threads p ++
                    [set_alive true
                       {| target := FlushLoop batch_size flush_interval retention_hours;
                          alive := false |}])
                 (set_flush_thread (Some (length (threads p)))
                    (set_threads
                       (threads p ++
                          [{| target := FlushLoop batch_size flush_interval retention_hours;
                              alive := false |}]) p))) = true).
    { unfold flush_alive_now, is_alive. simpl.
      by rewrite lookup_app_r, Nat.sub_diag by lia. }
    split_and!; [exact Hnow | by apply Hidle | done | done].
Qed.
